(** * WExplore region tree: a shallow embedding of
    [wepy/resampling/resamplers/wexplore.py]

    Walker weights and distances are Python floats in the source; they are
    modelled as rationals ([Q]), so every comparison and sum below is exact.
    Integer counters are [Z], list positions and walker indices are [nat].
    Region identifiers (tuples of ints) are [list nat]. *)

From Stdlib Require Import String.
From Stdlib Require Import List ZArith QArith Qabs Bool Lia Lqa Arith Sorted
  Permutation.
Import ListNotations.

Local Open Scope Z_scope.

(** ** Python exceptions and fallible results *)

(** The exception classes the module can raise.  [LoopBudget] is not a Python
    exception: it marks a [while] loop of the model that used up its
    iteration budget, and is shown unreachable wherever a budget is computed
    from the input. *)
Inductive exn : Set :=
| RegionTreeError
| ValueError
| TypeError
| NameError
| UnboundLocalError
| AttributeError
| KeyError
| IndexError
| AssertionError
| LoopBudget.

Inductive result (A : Type) : Type :=
| Ok (a : A)
| Raise (e : exn).
Arguments Ok {A} a.
Arguments Raise {A} e.

Definition exn_eq_dec (a b : exn) : {a = b} + {a <> b}.
Proof. decide equality. Defined.

Definition rbind {A B} (r : result A) (k : A -> result B) : result B :=
  match r with
  | Ok a => k a
  | Raise e => Raise e
  end.

Declare Scope py_scope.
Delimit Scope py_scope with py.
Notation "x <- c ;; k" := (rbind c (fun x => k))
  (at level 61, c at next level, right associativity) : py_scope.
Notation "' pat <- c ;; k" := (rbind c (fun x => match x with pat => k end))
  (at level 61, pat pattern, c at next level, right associativity) : py_scope.
Local Open Scope py_scope.

Fixpoint rmapM {A B} (f : A -> result B) (l : list A) : result (list B) :=
  match l with
  | [] => Ok []
  | x :: l' => y <- f x ;; ys <- rmapM f l' ;; Ok (y :: ys)
  end.

(** [l[i]] for a non-negative position: [IndexError] out of range. *)
Definition py_index {A} (l : list A) (i : nat) : result A :=
  match nth_error l i with
  | Some x => Ok x
  | None => Raise IndexError
  end.

(** [l[i] = v] for an existing position. *)
Fixpoint list_set {A} (l : list A) (i : nat) (v : A) : list A :=
  match l, i with
  | [], _ => []
  | _ :: l', O => v :: l'
  | x :: l', S i' => x :: list_set l' i' v
  end.

Definition Zsum (l : list Z) : Z := fold_left Z.add l 0.

Definition Qsum (l : list Q) : Q := fold_left Qplus l (0%Q).

Definition Qlt_bool (a b : Q) : bool := negb (Qle_bool b a).

Lemma Qlt_bool_iff a b : Qlt_bool a b = true <-> (a < b)%Q.
Proof.
  unfold Qlt_bool. rewrite negb_true_iff.
  split; intro H.
  - apply Qnot_le_lt. intro Hle. apply Qle_bool_iff in Hle. congruence.
  - destruct (Qle_bool b a) eqn:E; auto.
    apply Qle_bool_iff in E. exfalso. apply (Qlt_not_le _ _ H E).
Qed.

(** ** Sorting floats: [list.sort()] *)

Fixpoint insert_sorted (x : Q) (l : list Q) : list Q :=
  match l with
  | [] => [x]
  | y :: l' => if Qlt_bool x y then x :: y :: l' else y :: insert_sorted x l'
  end.

(** Stable ascending sort (an element goes after the ones equal to it). *)
Definition sort_weights (l : list Q) : list Q :=
  fold_left (fun acc x => insert_sorted x acc) l [].

(** ** Merge methods *)

(** The [while ... else] of [calc_squashable_walkers_single_method]: the
    result is [merge_size] as it stands after the statement; the [else]
    suite runs when the loop condition fails, not after [break]. *)
Fixpoint squashable_loop (budget : nat) (walker_weights : list Q)
    (max_weight : Q) (idx : nat) (sum_weights : Q) (merge_size : Z)
    : result Z :=
  match budget with
  | O => Raise LoopBudget
  | S budget' =>
      if Qle_bool sum_weights max_weight then
        if (length walker_weights <=? idx + 1)%nat then
          Ok merge_size
        else
          let idx := (idx + 1)%nat in
          w <- py_index walker_weights idx ;;
          squashable_loop budget' walker_weights max_weight idx
            (sum_weights + w)%Q (merge_size + 1)
      else
        Ok (merge_size - 1)
  end.

Definition calc_squashable_walkers_single_method
    (walker_weights : list Q) (max_weight : Q) : result Z :=
  let walker_weights := sort_weights walker_weights in
  let idx := O in
  sum_weights <- py_index walker_weights idx ;;
  let merge_size := 1 in
  merge_size <- squashable_loop (length walker_weights) walker_weights
                  max_weight idx sum_weights merge_size ;;
  let n_squashable := merge_size - 1 in
  Ok n_squashable.

(** ** Clone methods *)

(** The inner [while] of [calc_max_num_clones] for one walker; the value is
    [n_splits] when the loop is left.  [max_num_walkers] is [None] when the
    tree was built with the constructor's default, and then the comparison
    [n_splits <= None] raises [TypeError] as soon as the first conjunct
    holds. *)
Fixpoint n_splits_loop (budget : nat) (walker_weight min_weight : Q)
    (max_num_walkers : option Z) (n_splits : Z) : result Z :=
  match budget with
  | O => Raise LoopBudget
  | S budget' =>
      if Qle_bool min_weight (walker_weight / inject_Z n_splits) then
        match max_num_walkers with
        | None => Raise TypeError
        | Some m =>
            if n_splits <=? m then
              n_splits_loop budget' walker_weight min_weight max_num_walkers
                (n_splits + 1)
            else Ok n_splits
        end
      else Ok n_splits
  end.

Definition n_splits_budget (max_num_walkers : option Z) : nat :=
  match max_num_walkers with
  | Some m => S (Z.to_nat m)
  | None => 1%nat
  end.

(** Body of the [for] loop of [calc_max_num_clones] for one walker. *)
Definition max_num_clones_of (min_weight : Q) (max_num_walkers : option Z)
    (walker_weight : Q) : result Z :=
  let n_splits := 2 in
  n_splits <- n_splits_loop (n_splits_budget max_num_walkers) walker_weight
                min_weight max_num_walkers n_splits ;;
  let n_splits := n_splits - 1 in
  Ok (n_splits - 1).

Definition calc_max_num_clones (walker_weights : list Q) (min_weight : Q)
    (max_num_walkers : option Z) : result (list Z) :=
  rmapM (max_num_clones_of min_weight max_num_walkers) walker_weights.

(** ** Region identifiers *)

(** A node of the region tree is named by a tuple of child indices; the root
    is the empty tuple. *)
Definition node_id := list nat.

Definition ROOT_NODE : node_id := [].

Fixpoint node_id_eqb (a b : node_id) : bool :=
  match a, b with
  | [], [] => true
  | x :: a', y :: b' => (x =? y)%nat && node_id_eqb a' b'
  | _, _ => false
  end.

(** Python's order on tuples of ints (lexicographic, a proper prefix first). *)
Fixpoint node_id_ltb (a b : node_id) : bool :=
  match a, b with
  | [], [] => false
  | [], _ :: _ => true
  | _ :: _, [] => false
  | x :: a', y :: b' =>
      if (x <? y)%nat then true
      else if (y <? x)%nat then false
      else node_id_ltb a' b'
  end.

Fixpoint insert_id (x : node_id) (l : list node_id) : list node_id :=
  match l with
  | [] => [x]
  | y :: l' => if node_id_ltb x y then x :: y :: l' else y :: insert_id x l'
  end.

Definition sort_ids (l : list node_id) : list node_id :=
  fold_left (fun acc x => insert_id x acc) l [].

(** ** Node attributes *)

(** The attribute dictionary of a node.  Every node is created with the six
    keys [image_idx], [n_walkers], [n_mergeable], [n_cloneable], [balance]
    and [walker_idxs].  Two further keys, [n_squashable] and
    [n_possible_clones], are written by [clear_walkers] and read by the
    balancing routines; they are absent ([None]) until then, and reading an
    absent key raises [KeyError]. *)
Record NodeAttrs : Type := mkNodeAttrs {
  image_idx : nat;
  n_walkers : Z;
  n_mergeable : Z;
  n_cloneable : Z;
  balance : Z;
  walker_idxs : list nat;
  n_squashable : option Z;
  n_possible_clones : option Z
}.

Definition set_n_walkers (v : Z) (a : NodeAttrs) : NodeAttrs :=
  mkNodeAttrs (image_idx a) v (n_mergeable a) (n_cloneable a) (balance a)
    (walker_idxs a) (n_squashable a) (n_possible_clones a).

Definition set_n_mergeable (v : Z) (a : NodeAttrs) : NodeAttrs :=
  mkNodeAttrs (image_idx a) (n_walkers a) v (n_cloneable a) (balance a)
    (walker_idxs a) (n_squashable a) (n_possible_clones a).

Definition set_n_cloneable (v : Z) (a : NodeAttrs) : NodeAttrs :=
  mkNodeAttrs (image_idx a) (n_walkers a) (n_mergeable a) v (balance a)
    (walker_idxs a) (n_squashable a) (n_possible_clones a).

Definition set_balance (v : Z) (a : NodeAttrs) : NodeAttrs :=
  mkNodeAttrs (image_idx a) (n_walkers a) (n_mergeable a) (n_cloneable a) v
    (walker_idxs a) (n_squashable a) (n_possible_clones a).

Definition set_walker_idxs (v : list nat) (a : NodeAttrs) : NodeAttrs :=
  mkNodeAttrs (image_idx a) (n_walkers a) (n_mergeable a) (n_cloneable a)
    (balance a) v (n_squashable a) (n_possible_clones a).

Definition set_n_squashable (v : option Z) (a : NodeAttrs) : NodeAttrs :=
  mkNodeAttrs (image_idx a) (n_walkers a) (n_mergeable a) (n_cloneable a)
    (balance a) (walker_idxs a) v (n_possible_clones a).

Definition set_n_possible_clones (v : option Z) (a : NodeAttrs) : NodeAttrs :=
  mkNodeAttrs (image_idx a) (n_walkers a) (n_mergeable a) (n_cloneable a)
    (balance a) (walker_idxs a) (n_squashable a) v.

(** The keyword arguments every [add_node] call of the module passes. *)
Definition fresh_attrs (image_idx : nat) : NodeAttrs :=
  mkNodeAttrs image_idx 0 0 0 0 [] None None.

(** [d[key]] on a key that may be absent. *)
Definition py_key {A} (v : option A) : result A :=
  match v with
  | Some x => Ok x
  | None => Raise KeyError
  end.

(** [np.argmin] of a list of floats: the position of the first minimum;
    [ValueError] on an empty list. *)
Fixpoint argmin_from (best_i : nat) (best : Q) (i : nat) (l : list Q) : nat :=
  match l with
  | [] => best_i
  | x :: l' =>
      if Qlt_bool x best then argmin_from i x (S i) l'
      else argmin_from best_i best (S i) l'
  end.

Definition np_argmin (l : list Q) : result nat :=
  match l with
  | [] => Raise ValueError
  | x :: l' => Ok (argmin_from 0 x 1 l')
  end.

(** The distance cache of [assign]: a dict from image index to distance. *)
Definition dist_cache := list (nat * Q).

Fixpoint cache_get (c : dist_cache) (k : nat) : option Q :=
  match c with
  | [] => None
  | (k', d) :: c' => if (k =? k')%nat then Some d else cache_get c' k
  end.

Definition cache_set (c : dist_cache) (k : nat) (d : Q) : dist_cache :=
  (k, d) :: c.

(** ** The region tree *)

Section Model.

Context {State Image : Type}.

(** The distance metric is an external collaborator: [distance.image] and
    [distance.image_distance], the latter possibly raising. *)
Variable image : State -> Image.
Variable image_distance : Image -> Image -> result Q.

Record Walker : Type := mkWalker {
  state : State;
  weight : Q
}.

(** [RegionTree(nx.DiGraph)]: the graph and the instance attributes.
    [nodes] is the node dictionary in insertion order, [edges] the adjacency
    in insertion order. *)
Record RegionTree : Type := mkRegionTree {
  nodes : list (node_id * NodeAttrs);
  edges : list (node_id * node_id);
  _max_n_regions : list Z;
  _n_levels : nat;
  _max_region_sizes : list Q;
  _pmin : Q;
  _pmax : Q;
  _max_num_walkers : option Z;
  _min_num_walkers : Z;
  _merge_method : string;
  _walker_weights : list Q;
  _walker_assignments : list node_id;
  _images : list Image;
  _regions : list node_id
}.

Definition with_nodes (v : list (node_id * NodeAttrs)) (t : RegionTree) :=
  mkRegionTree v (edges t) (_max_n_regions t) (_n_levels t)
    (_max_region_sizes t) (_pmin t) (_pmax t) (_max_num_walkers t)
    (_min_num_walkers t) (_merge_method t) (_walker_weights t)
    (_walker_assignments t) (_images t) (_regions t).

Definition with_edges (v : list (node_id * node_id)) (t : RegionTree) :=
  mkRegionTree (nodes t) v (_max_n_regions t) (_n_levels t)
    (_max_region_sizes t) (_pmin t) (_pmax t) (_max_num_walkers t)
    (_min_num_walkers t) (_merge_method t) (_walker_weights t)
    (_walker_assignments t) (_images t) (_regions t).

Definition with_walker_weights (v : list Q) (t : RegionTree) :=
  mkRegionTree (nodes t) (edges t) (_max_n_regions t) (_n_levels t)
    (_max_region_sizes t) (_pmin t) (_pmax t) (_max_num_walkers t)
    (_min_num_walkers t) (_merge_method t) v
    (_walker_assignments t) (_images t) (_regions t).

Definition with_walker_assignments (v : list node_id) (t : RegionTree) :=
  mkRegionTree (nodes t) (edges t) (_max_n_regions t) (_n_levels t)
    (_max_region_sizes t) (_pmin t) (_pmax t) (_max_num_walkers t)
    (_min_num_walkers t) (_merge_method t) (_walker_weights t)
    v (_images t) (_regions t).

Definition with_images (v : list Image) (t : RegionTree) :=
  mkRegionTree (nodes t) (edges t) (_max_n_regions t) (_n_levels t)
    (_max_region_sizes t) (_pmin t) (_pmax t) (_max_num_walkers t)
    (_min_num_walkers t) (_merge_method t) (_walker_weights t)
    (_walker_assignments t) v (_regions t).

Definition with_regions (v : list node_id) (t : RegionTree) :=
  mkRegionTree (nodes t) (edges t) (_max_n_regions t) (_n_levels t)
    (_max_region_sizes t) (_pmin t) (_pmax t) (_max_num_walkers t)
    (_min_num_walkers t) (_merge_method t) (_walker_weights t)
    (_walker_assignments t) (_images t) v.

(** *** Methods that change the tree

    A method runs on the tree and leaves a tree behind, also when it raises:
    what it wrote before the exception stays written. *)
Definition M (A : Type) : Type := RegionTree -> result A * RegionTree.

Definition ret {A} (a : A) : M A := fun t => (Ok a, t).

Definition raise {A} (e : exn) : M A := fun t => (Raise e, t).

Definition bind {A B} (c : M A) (k : A -> M B) : M B :=
  fun t =>
    match c t with
    | (Ok a, t') => k a t'
    | (Raise e, t') => (Raise e, t')
    end.

Definition lift {A} (r : result A) : M A := fun t => (r, t).

Definition get : M RegionTree := fun t => (Ok t, t).

Definition read {A} (f : RegionTree -> result A) : M A := fun t => (f t, t).

Definition modify (f : RegionTree -> RegionTree) : M unit :=
  fun t => (Ok tt, f t).

Notation "x <~ c ;; k" := (bind c (fun x => k))
  (at level 61, c at next level, right associativity) : py_scope.
Notation "' pat <~ c ;; k" := (bind c (fun x => match x with pat => k end))
  (at level 61, pat pattern, c at next level, right associativity) : py_scope.
Notation "c ;;; k" := (bind c (fun _ => k))
  (at level 61, right associativity) : py_scope.

(** A [for] statement over a list, threading the loop's local variables. *)
Fixpoint for_each {A S} (l : list A) (body : A -> S -> M S) (s : S) : M S :=
  match l with
  | [] => ret s
  | x :: l' => s' <~ body x s ;; for_each l' body s'
  end.

(** *** Node dictionary *)

Fixpoint lookup_node (l : list (node_id * NodeAttrs)) (n : node_id)
    : option NodeAttrs :=
  match l with
  | [] => None
  | (k, a) :: l' => if node_id_eqb n k then Some a else lookup_node l' n
  end.

Fixpoint update_node (l : list (node_id * NodeAttrs)) (n : node_id)
    (f : NodeAttrs -> NodeAttrs) : list (node_id * NodeAttrs) :=
  match l with
  | [] => []
  | (k, a) :: l' =>
      if node_id_eqb n k then (k, f a) :: l'
      else (k, a) :: update_node l' n f
  end.

Definition has_node (t : RegionTree) (n : node_id) : bool :=
  match lookup_node (nodes t) n with
  | Some _ => true
  | None => false
  end.

(** [self.node[n]] *)
Definition node (t : RegionTree) (n : node_id) : result NodeAttrs :=
  py_key (lookup_node (nodes t) n).

(** [self.node[n][key] = ...], after [self.node[n]] was found. *)
Definition set_node (n : node_id) (f : NodeAttrs -> NodeAttrs) : M unit :=
  fun t =>
    match lookup_node (nodes t) n with
    | Some _ => (Ok tt, with_nodes (update_node (nodes t) n f) t)
    | None => (Raise KeyError, t)
    end.

(** [add_node(n, image_idx=..., n_walkers=0, ...)]: a new node gets exactly
    these attributes; on an existing node they overwrite the six keys. *)
Definition add_node (n : node_id) (image_idx : nat) (t : RegionTree)
    : RegionTree :=
  if has_node t n then
    with_nodes
      (update_node (nodes t) n
         (fun a => mkNodeAttrs image_idx 0 0 0 0 []
                     (n_squashable a) (n_possible_clones a)))
      t
  else with_nodes (nodes t ++ [(n, fresh_attrs image_idx)]) t.

Definition has_edge (t : RegionTree) (u v : node_id) : bool :=
  existsb (fun e => node_id_eqb (fst e) u && node_id_eqb (snd e) v) (edges t).

(** [add_edge(u, v)]; both ends are nodes already at each call site. *)
Definition add_edge (u v : node_id) (t : RegionTree) : RegionTree :=
  if has_edge t u v then t else with_edges (edges t ++ [(u, v)]) t.

(** [self.adj[parent_id].keys()] in insertion order. *)
Definition successors (t : RegionTree) (parent_id : node_id) : list node_id :=
  map snd (filter (fun e => node_id_eqb (fst e) parent_id) (edges t)).

Definition children (t : RegionTree) (parent_id : node_id)
    : result (list node_id) :=
  if has_node t parent_id then
    let children_ids := successors t parent_id in
    Ok (sort_ids children_ids)
  else Raise KeyError.

Definition add_child (parent_id : node_id) (image_idx : nat) : M node_id :=
  cs <~ read (fun t => children t parent_id) ;;
  let child_id := parent_id ++ [List.length cs] in
  modify (add_node child_id image_idx) ;;;
  modify (add_edge parent_id child_id) ;;;
  ret child_id.

Definition level_nodes (t : RegionTree) (level : nat)
    : result (list node_id) :=
  if (_n_levels t <? level)%nat then Raise ValueError
  else Ok (filter (fun node_id => (List.length node_id =? level)%nat)
             (map fst (nodes t))).

Definition leaf_nodes (t : RegionTree) : result (list node_id) :=
  level_nodes t (_n_levels t).

(** [RegionTree.__init__].  The parameters are typed as present, so the
    guard against [None] parameters has no counterpart; the membership test
    of [merge_method] in [MERGE_METHODS = ('single',)] is the assertion. *)
Definition MERGE_METHODS : list string := ["single"%string].

Definition RegionTree__init__ (init_state : State) (max_n_regions : list Z)
    (max_region_sizes : list Q) (max_num_walkers : option Z)
    (min_num_walkers : Z) (pmin pmax : Q) (merge_method : string)
    : result RegionTree :=
  if negb (existsb (String.eqb merge_method) MERGE_METHODS) then
    Raise AssertionError
  else
    let image_idx := O in
    let img := image init_state in
    let t0 :=
      mkRegionTree [] [] max_n_regions (List.length max_n_regions)
        max_region_sizes pmin pmax max_num_walkers min_num_walkers
        merge_method [] [] [img] [] in
    let t1 := add_node ROOT_NODE 0 t0 in
    let '(t2, _) :=
      fold_left
        (fun '(t, parent_id) (_ : nat) =>
           let child_id := parent_id ++ [O] in
           (add_edge parent_id child_id (add_node child_id image_idx t),
            child_id))
        (seq 0 (List.length max_n_regions)) (t1, ROOT_NODE) in
    Ok (with_regions [repeat O (List.length max_n_regions)] t2).

(** [branch_tree]: [child_id] is bound by the loop only, so a call with a
    parent at leaf depth would read it unbound. *)
Definition branch_tree (parent_id : node_id) (img : Image) : M node_id :=
  t <~ get ;;
  let image_idx := List.length (_images t) in
  modify (fun t => with_images (_images t ++ [img]) t) ;;;
  let branch_level := List.length parent_id in
  ' (_, child_id) <~
    for_each (seq branch_level (_n_levels t - branch_level))
      (fun (_ : nat) '(parent_id, _) =>
         child_id <~ add_child parent_id image_idx ;;
         ret (child_id, Some child_id))
      (parent_id, None) ;;
  match child_id with
  | None => raise UnboundLocalError
  | Some child_id =>
      modify (fun t => with_regions (_regions t ++ [child_id]) t) ;;;
      ret child_id
  end.

(** *** Assignment *)

(** The [try ... except ValueError] around the distance call: a
    [ValueError] of the metric is answered by raising a [ValueError] with
    another message; everything else passes. *)
Definition except_ValueError (r : result Q) : result Q :=
  match r with
  | Raise ValueError => Raise ValueError
  | r => r
  end.

(** The inner loop of [assign] over the children of the current node:
    distances are taken from the cache when the child's image index is in
    it. *)
Fixpoint assign_level_dists (t : RegionTree) (st : State)
    (level_nodes : list node_id) (cache : dist_cache)
    : result (list Q * dist_cache) :=
  match level_nodes with
  | [] => Ok ([], cache)
  | level_node :: rest =>
      attrs <- node t level_node ;;
      let image_idx := image_idx attrs in
      img <- py_index (_images t) image_idx ;;
      ' (dist, cache) <-
        match cache_get cache image_idx with
        | Some dist => Ok (dist, cache)
        | None =>
            let state_image := image st in
            dist <- except_ValueError (image_distance state_image img) ;;
            Ok (dist, cache_set cache image_idx dist)
        end ;;
      ' (image_dists, cache) <- assign_level_dists t st rest cache ;;
      Ok (dist :: image_dists, cache)
  end.

(** The outer loop of [assign], [levels] levels below [node]. *)
Fixpoint assign_levels (t : RegionTree) (st : State) (levels : nat)
    (nd : node_id) (cache : dist_cache) : result (list nat * list Q) :=
  match levels with
  | O => Ok ([], [])
  | S levels' =>
      level_nodes <- children t nd ;;
      ' (image_dists, cache) <- assign_level_dists t st level_nodes cache ;;
      level_closest_child_idx <- np_argmin image_dists ;;
      level_closest_image_dist <- py_index image_dists level_closest_child_idx ;;
      nd <- py_index level_nodes level_closest_child_idx ;;
      ' (assignment, dists) <- assign_levels t st levels' nd cache ;;
      Ok (level_closest_child_idx :: assignment,
          level_closest_image_dist :: dists)
  end.

Definition assign (t : RegionTree) (st : State)
    : result (node_id * list Q) :=
  assign_levels t st (_n_levels t) ROOT_NODE [].

(** *** Walker placement *)

Definition clear_walkers (t : RegionTree) : RegionTree :=
  let t := with_walker_assignments [] t in
  let t := with_walker_weights [] t in
  with_nodes
    (map (fun '(node_id, a) =>
            (node_id,
             set_balance 0
               (set_n_possible_clones (Some 0)
                  (set_n_squashable (Some 0)
                     (set_walker_idxs [] (set_n_walkers 0 a))))))
       (nodes t))
    t.

(** A record of [new_branches]. *)
Record Branch : Type := mkBranch {
  br_distance : Q;
  br_branching_level : nat;
  br_new_leaf_id : node_id;
  br_image : Image
}.

(** The loop of [place_walkers] over [enumerate(distances)]; it stops at the
    first level that branches. *)
Fixpoint place_branching (walker : Walker) (assignment : node_id)
    (level : nat) (distances : list Q) : M (node_id * list Branch) :=
  match distances with
  | [] => ret (assignment, [])
  | distance :: rest =>
      t <~ get ;;
      size <~ lift (py_index (_max_region_sizes t) level) ;;
      if Qlt_bool size distance then
        cs <~ lift (children t (firstn level assignment)) ;;
        max_n <~ lift (py_index (_max_n_regions t) level) ;;
        if Z.of_nat (List.length cs) <? max_n then
          let img := image (state walker) in
          let parent_id := firstn level assignment in
          assignment <~ branch_tree parent_id img ;;
          ret (assignment, [mkBranch distance level assignment img])
        else place_branching walker assignment (S level) rest
      else place_branching walker assignment (S level) rest
  end.

(** The body of the loop over [enumerate(walkers)]. *)
Definition place_walker (walker_idx : nat) (walker : Walker)
    (new_branches : list Branch) : M (list Branch) :=
  ' (assignment, distances) <~ read (fun t => assign t (state walker)) ;;
  ' (assignment, branches) <~ place_branching walker assignment 0 distances ;;
  let new_branches := new_branches ++ branches in
  modify (fun t =>
            with_walker_assignments (_walker_assignments t ++ [assignment]) t)
  ;;;
  modify (fun t =>
            with_walker_weights (_walker_weights t ++ [weight walker]) t) ;;;
  for_each (seq 0 (List.length assignment + 1))
    (fun level (_ : unit) =>
       let node_id := firstn level assignment in
       a <~ read (fun t => node t node_id) ;;
       set_node node_id (set_n_walkers (n_walkers a + 1)) ;;;
       a <~ read (fun t => node t node_id) ;;
       set_node node_id (set_walker_idxs (walker_idxs a ++ [walker_idx])))
    tt ;;;
  ret new_branches.

Fixpoint place_each (walker_idx : nat) (walkers : list Walker)
    (new_branches : list Branch) : M (list Branch) :=
  match walkers with
  | [] => ret new_branches
  | walker :: rest =>
      new_branches <~ place_walker walker_idx walker new_branches ;;
      place_each (S walker_idx) rest new_branches
  end.

(** [_calc_mergeable_walkers]: the ['single'] branch calls
    [calc_mergeable_walkers_single_method], a name bound nowhere in the
    module (the function defined above is
    [calc_squashable_walkers_single_method]). *)
Definition _calc_mergeable_walkers (t : RegionTree) (walker_weights : list Q)
    : result Z :=
  if String.eqb (_merge_method t) "single" then Raise NameError
  else Raise ValueError.

Definition _calc_max_num_clones (t : RegionTree) (walker_weights : list Q)
    : result (list Z) :=
  calc_max_num_clones walker_weights (_pmin t) (_max_num_walkers t).

(** [for level in reversed(range(self.n_levels))]: the proper prefixes of
    the leaf, longest first. *)
Definition branch_levels (t : RegionTree) : list nat :=
  rev (seq 0 (_n_levels t)).

(** The body of the loop of [place_walkers] over the leaves. *)
Definition account_leaf (node_id : node_id) : M unit :=
  a <~ read (fun t => node t node_id) ;;
  let leaf_walker_idxs := walker_idxs a in
  leaf_weights <~
    read (fun t => rmapM (py_index (_walker_weights t)) leaf_walker_idxs) ;;
  a <~ read (fun t => node t node_id) ;;
  (if 1 <? n_walkers a then
     v <~ read (fun t => _calc_mergeable_walkers t leaf_weights) ;;
     set_node node_id (set_n_mergeable v) ;;;
     t <~ get ;;
     for_each (branch_levels t)
       (fun level (_ : unit) =>
          let branch_node_id := firstn level node_id in
          b <~ read (fun t => node t branch_node_id) ;;
          l <~ read (fun t => node t node_id) ;;
          set_node branch_node_id
            (set_n_mergeable (n_mergeable b + n_mergeable l)))
       tt
   else ret tt) ;;;
  a <~ read (fun t => node t node_id) ;;
  if 0 <? n_walkers a then
    cl <~ read (fun t => _calc_max_num_clones t leaf_weights) ;;
    set_node node_id (set_n_cloneable (Zsum cl)) ;;;
    t <~ get ;;
    for_each (branch_levels t)
      (fun level (_ : unit) =>
         let branch_node_id := firstn level node_id in
         b <~ read (fun t => node t branch_node_id) ;;
         l <~ read (fun t => node t node_id) ;;
         set_node branch_node_id
           (set_n_cloneable (n_cloneable b + n_cloneable l)))
      tt
  else ret tt.

(** The first loop of [place_walkers], after the reset. *)
Definition place_all (walkers : list Walker) : M (list Branch) :=
  modify clear_walkers ;;;
  let new_branches := [] in
  place_each 0 walkers new_branches.

(** The second loop of [place_walkers]. *)
Definition account_leaves : M unit :=
  leaves <~ read leaf_nodes ;;
  for_each leaves (fun node_id (_ : unit) => account_leaf node_id) tt.

Definition place_walkers (walkers : list Walker) : M (list Branch) :=
  new_branches <~ place_all walkers ;;
  account_leaves ;;;
  ret new_branches.

(** *** Balance propagation *)

(** A local name that may not be bound yet when it is read. *)
Definition local {A} (v : option A) : M A :=
  match v with
  | Some x => ret x
  | None => raise UnboundLocalError
  end.

(** The dictionary [children_shares] as the dispensers build it: each child
    mapped to its [walker_idxs] list. *)
Definition shares := list (node_id * list nat).

Definition initial_shares (children_node_ids : list node_id) : M shares :=
  read (fun t =>
          rmapM (fun child_id =>
                   a <- node t child_id ;; Ok (child_id, walker_idxs a))
            children_node_ids).

(** The [while remaining_balance < 0] loop of [_dispense_debit_shares].
    [remaining_balance] is a local of the function (it is assigned in the
    loop body) and nothing binds it before the loop; [node_id] in the body
    is bound nowhere. *)
Fixpoint debit_loop (budget : nat) (parental_balance : Z)
    (children_node_ids : list node_id) (children_shares : shares)
    (child_idx : nat) (remaining_balance : option Z)
    : M (shares * option Z) :=
  match budget with
  | O => raise LoopBudget
  | S budget' =>
      rb <~ local remaining_balance ;;
      if rb <? 0 then
        child_node_id <~ lift (py_index children_node_ids child_idx) ;;
        a <~ read (fun t => node t child_node_id) ;;
        n_squashable <~ lift (py_key (n_squashable a)) ;;
        if 0 <? n_squashable then
          let payment := Z.min n_squashable (Z.abs parental_balance) in
          let remaining_balance := Some (rb + payment) in
          raise NameError
        else
          debit_loop budget' parental_balance children_node_ids
            children_shares child_idx remaining_balance
      else ret (children_shares, remaining_balance)
  end.

Definition _dispense_debit_shares (budget : nat) (parental_balance : Z)
    (children_node_ids : list node_id) : M shares :=
  children_shares <~ initial_shares children_node_ids ;;
  let child_idx := O in
  ' (children_shares, remaining_balance) <~
    debit_loop budget parental_balance children_node_ids children_shares
      child_idx None ;;
  if parental_balance <? 0 then raise ValueError
  else
    rb <~ local remaining_balance ;;
    if rb =? 0 then ret children_shares else raise AssertionError.

(** The [while remaining_balance > 0] loop of [_dispense_credit_shares],
    with the same unbound names; its body has no path to a second
    iteration. *)
Definition credit_loop (parental_balance : Z)
    (children_node_ids : list node_id) (children_shares : shares)
    (child_idx : nat) (remaining_balance : option Z)
    : M (shares * option Z) :=
  rb <~ local remaining_balance ;;
  if 0 <? rb then
    child_node_id <~ lift (py_index children_node_ids child_idx) ;;
    a <~ read (fun t => node t child_node_id) ;;
    n_possible_clones <~ lift (py_key (n_possible_clones a)) ;;
    let disbursement := Z.min n_possible_clones (Z.abs parental_balance) in
    let remaining_balance := Some (rb - disbursement) in
    raise NameError
  else ret (children_shares, remaining_balance).

Definition _dispense_credit_shares (parental_balance : Z)
    (children_node_ids : list node_id) : M shares :=
  children_shares <~ initial_shares children_node_ids ;;
  let child_idx := O in
  ' (children_shares, remaining_balance) <~
    credit_loop parental_balance children_node_ids children_shares
      child_idx None ;;
  if 0 <? parental_balance then raise ValueError
  else
    rb <~ local remaining_balance ;;
    if rb =? 0 then ret children_shares else raise AssertionError.

(** [_dispense_parental_shares]: [children_shares] is bound only on the two
    paths that call a dispenser; the final [return children_shares] reads it
    on every path. *)
Definition _dispense_parental_shares (budget : nat) (parental_balance : Z)
    (children_node_ids : list node_id) : M shares :=
  children_shares <~
    (if (List.length children_node_ids =? 1)%nat then
       child <~ lift (py_index children_node_ids 0) ;;
       set_node child (set_balance parental_balance) ;;;
       ret None
     else if (1 <? List.length children_node_ids)%nat then
       if parental_balance <? 0 then
         cs <~ _dispense_debit_shares budget parental_balance
                 children_node_ids ;;
         ret (Some cs)
       else if 0 <? parental_balance then
         cs <~ _dispense_credit_shares parental_balance children_node_ids ;;
         ret (Some cs)
       else ret None
     else ret None) ;;
  local children_shares.

(** [_balance_children_shares]: its first statement builds a dictionary over
    [children_node_ids], which is neither a parameter nor a local of the
    method nor a module global. *)
Definition _balance_children_shares (children_shares : shares)
    : M (list (node_id * Z)) :=
  raise NameError.

Definition _propagate_and_balance_shares (budget : nat)
    (parental_balance : Z) (children_node_ids : list node_id) : M unit :=
  children_shares <~
    _dispense_parental_shares budget parental_balance children_node_ids ;;
  children_net_balances <~ _balance_children_shares children_shares ;;
  for_each children_net_balances
    (fun '(child_node_id, child_net_balance) (_ : unit) =>
       set_node child_node_id (set_balance child_net_balance))
    tt.

(** [networkx.bfs_successors] is a library routine: the pairs it yields for
    a graph and a source are a parameter of the model. *)
Variable bfs_successors :
  RegionTree -> node_id -> list (node_id * list node_id).

(** The balances of the leaves, as [balance_tree] collects them. *)
Definition leaf_balances (t : RegionTree) : result (list Z) :=
  leaves <- leaf_nodes t ;;
  rmapM (fun leaf => a <- node t leaf ;; Ok (balance a)) leaves.

(** [balance_tree] from the check of the leaf balances on.  The call after
    the check names [_decide_settle_balances]; the class defines
    [_decide_settle_balance] only, so the attribute lookup fails. *)
Definition balance_tree_settle (delta_walkers : Z)
    : M (list (list nat) * list Z) :=
  leaf_balances <~ read leaf_balances ;;
  if negb (Zsum leaf_balances =? delta_walkers) then raise RegionTreeError
  else raise AttributeError.

(** [balance_tree] up to the check: the root takes [delta_walkers] and the
    balance goes down the tree breadth first. *)
Definition balance_tree_propagate (budget : nat) (delta_walkers : Z)
    : M unit :=
  set_node ROOT_NODE (set_balance delta_walkers) ;;;
  t <~ get ;;
  for_each (bfs_successors t ROOT_NODE)
    (fun '(parent, children) (_ : unit) =>
       a <~ read (fun t => node t parent) ;;
       let parental_balance := balance a in
       _propagate_and_balance_shares budget parental_balance children)
    tt.

Definition balance_tree (budget : nat) (max_num_walkers min_num_walkers : Z)
    (delta_walkers : Z) : M (list (list nat) * list Z) :=
  balance_tree_propagate budget delta_walkers ;;;
  balance_tree_settle delta_walkers.

(** *** Clone decision *)

(** [np.argsort] of a list of floats, as positions; equal values keep their
    order (NumPy sorts short arrays by insertion). *)
Fixpoint insert_pos (ws : list Q) (i : nat) (l : list nat) : list nat :=
  match l with
  | [] => [i]
  | j :: l' =>
      if Qlt_bool (nth i ws 0%Q) (nth j ws 0%Q) then i :: j :: l'
      else j :: insert_pos ws i l'
  end.

Definition np_argsort (ws : list Q) : list nat :=
  fold_left (fun acc i => insert_pos ws i acc) (seq 0 (List.length ws)) [].

(** [l[-1]] *)
Definition py_last {A} (l : list A) : result A :=
  match rev l with
  | x :: _ => Ok x
  | [] => Raise IndexError
  end.

(** [decide_merge_groups_single_method]: the positions of the
    [abs(balance) + 1] lightest walkers as the only merge group, and
    whether their weights sum to [max_weight] at most. *)
Definition decide_merge_groups_single_method (walker_weights : list Q)
    (balance : Z) (max_weight : Q) : result (list (list nat) * bool) :=
  if negb (balance <? 0) then Raise AssertionError
  else
    let num_merge_walkers := Z.abs balance + 1 in
    let chosen_idxs :=
      firstn (Z.to_nat num_merge_walkers) (np_argsort walker_weights) in
    chosen <- rmapM (py_index walker_weights) chosen_idxs ;;
    let result := negb (Qlt_bool max_weight (Qsum chosen)) in
    Ok ([chosen_idxs], result).

(** The inner [for] loop of the clone-assignment loop: the child weight of
    each candidate under the clones it already has, [-1] when that is below
    [pmin]. *)
Definition clone_child_weight (pmin : Q) (walkers_num_clones : list Z)
    (walker_idx : nat) (weight : Q) : result Q :=
  n <- py_index walkers_num_clones walker_idx ;;
  let child_weight := (weight / inject_Z (n + 1))%Q in
  Ok (if Qlt_bool child_weight pmin then (-1)%Q else child_weight).

Definition clone_child_weights (pmin : Q) (walkers_num_clones : list Z)
    (cloneable_walker_idxs : list nat) (cloneable_walker_weights : list Q)
    : result (list Q) :=
  rmapM (fun '(walker_idx, weight) =>
           clone_child_weight pmin walkers_num_clones walker_idx weight)
    (combine cloneable_walker_idxs cloneable_walker_weights).

(** One iteration of [while clones_left > 0]. *)
Definition clone_step (pmin : Q) (cloneable_walker_idxs : list nat)
    (cloneable_walker_weights : list Q) (walkers_num_clones : list Z)
    : result (list Z) :=
  child_weights <- clone_child_weights pmin walkers_num_clones
                     cloneable_walker_idxs cloneable_walker_weights ;;
  if forallb (fun child_weight => Qeq_bool child_weight (-1)%Q) child_weights
  then Raise AssertionError
  else
    pos <- py_last (np_argsort child_weights) ;;
    chosen_walker_idx <- py_index cloneable_walker_idxs pos ;;
    n <- py_index walkers_num_clones chosen_walker_idx ;;
    Ok (list_set walkers_num_clones chosen_walker_idx (n + 1)).

(** [while clones_left > 0: ...; clones_left -= 1]. *)
Fixpoint clone_loop (clones_left : nat) (pmin : Q)
    (cloneable_walker_idxs : list nat) (cloneable_walker_weights : list Q)
    (walkers_num_clones : list Z) : result (list Z) :=
  match clones_left with
  | O => Ok walkers_num_clones
  | S clones_left' =>
      walkers_num_clones <- clone_step pmin cloneable_walker_idxs
                              cloneable_walker_weights walkers_num_clones ;;
      clone_loop clones_left' pmin cloneable_walker_idxs
        cloneable_walker_weights walkers_num_clones
  end.

(** [for keep_idx, squashed_idxs in merge_groups if len(squashed_idxs) > 0]:
    each merge group is a list of walker indices; it unpacks into the two
    targets only when it has two elements, and then [squashed_idxs] is an
    int, which has no [len].  So no element [[keep_idx, *squashed_idxs]] is
    ever built. *)
Definition taken_of_group (group : list nat) : result (list nat) :=
  match group with
  | [keep_idx; squashed_idxs] => Raise TypeError
  | _ => Raise ValueError
  end.

(** [a, b = zip( *pairs )]: with no pair there is nothing to unpack. *)
Definition unzip_pairs (pairs : list (nat * Q)) : result (list nat * list Q) :=
  match pairs with
  | [] => Raise ValueError
  | _ => Ok (map fst pairs, map snd pairs)
  end.

Definition _decide_clone_leaf (leaf : node_id)
    (merge_groups : list (list nat)) (walkers_num_clones : list Z)
    (t : RegionTree) : result (list Z) :=
  a <- node t leaf ;;
  let leaf_balance := balance a in
  let leaf_walker_idxs := walker_idxs a in
  leaf_weights <- rmapM (py_index (_walker_weights t)) leaf_walker_idxs ;;
  let free_slot_idxs := merge_groups in
  taken <- rmapM taken_of_group merge_groups ;;
  let taken_walker_idxs := taken in
  ' (cloneable_walker_idxs, cloneable_walker_weights) <-
    unzip_pairs
      (filter (fun '(walker_idx, weight) =>
                 Qle_bool (_pmin t) (weight / 2)
                 && negb (existsb (fun (taken : list nat) => false)
                            taken_walker_idxs))
         (combine leaf_walker_idxs leaf_weights)) ;;
  max_n_clones <- _calc_max_num_clones t cloneable_walker_weights ;;
  if Zsum max_n_clones <? leaf_balance then Raise AssertionError
  else
    let clones_left := leaf_balance in
    clone_loop (Z.to_nat clones_left) (_pmin t) cloneable_walker_idxs
      cloneable_walker_weights walkers_num_clones.

(** *** Merge decision *)

(** [solve_merge_groupings]: the ['single'] branch calls
    [single_merge_method], a name bound nowhere in the module. *)
Definition solve_merge_groupings (t : RegionTree) (walker_weights : list Q)
    (balance : Z) : result (list (list nat)) :=
  if String.eqb (_merge_method t) "single" then Raise NameError
  else Raise ValueError.

(** [chosen_weights / sum(chosen_weights)] divides a Python list by a
    float. *)
Definition list_truediv (l : list Q) (d : Q) : result (list Q) :=
  Raise TypeError.

(** NumPy's global generator: its state and [np.random.choice(a, 1, p=p)[0]]
    are parameters of the model. *)
Context {NpRandomState : Type}.
Variable np_random_choice :
  NpRandomState -> list nat -> list Q -> nat * NpRandomState.

(** [l.pop(l.index(x))]: removes the first occurrence. *)
Fixpoint remove_first (x : nat) (l : list nat) : result (list nat) :=
  match l with
  | [] => Raise ValueError
  | y :: l' =>
      if (x =? y)%nat then Ok l'
      else r <- remove_first x l' ;; Ok (y :: r)
  end.

(** The body of the loop of [_decide_merge_leaf] over the full merge
    groups. *)
Definition decide_keep (t : RegionTree) (leaf_walker_idxs : list nat)
    (full_merge_group : list nat) (merge_groups : list (list nat))
    (g : NpRandomState) : result (list (list nat) * NpRandomState) :=
  chosen_walker_idxs <- rmapM (py_index leaf_walker_idxs) full_merge_group ;;
  chosen_weights <- rmapM (py_index (_walker_weights t)) chosen_walker_idxs ;;
  chosen_pdist <- list_truediv chosen_weights (Qsum chosen_weights) ;;
  let '(keep_walker_idx, g) :=
    np_random_choice g chosen_walker_idxs chosen_pdist in
  squash_walker_idxs <- remove_first keep_walker_idx chosen_walker_idxs ;;
  group <- py_index merge_groups keep_walker_idx ;;
  Ok (list_set merge_groups keep_walker_idx (group ++ squash_walker_idxs), g).

Fixpoint decide_keeps (t : RegionTree) (leaf_walker_idxs : list nat)
    (full_merge_groups : list (list nat)) (merge_groups : list (list nat))
    (g : NpRandomState) : result (list (list nat) * NpRandomState) :=
  match full_merge_groups with
  | [] => Ok (merge_groups, g)
  | fg :: rest =>
      ' (merge_groups, g) <-
        decide_keep t leaf_walker_idxs fg merge_groups g ;;
      decide_keeps t leaf_walker_idxs rest merge_groups g
  end.

Definition _decide_merge_leaf (leaf : node_id)
    (merge_groups : list (list nat)) (g : NpRandomState) (t : RegionTree)
    : result (list (list nat) * NpRandomState) :=
  a <- node t leaf ;;
  let leaf_balance := balance a in
  let leaf_walker_idxs := walker_idxs a in
  leaf_walker_weights <-
    rmapM (py_index (_walker_weights t)) leaf_walker_idxs ;;
  full_merge_groups <-
    solve_merge_groupings t leaf_walker_weights leaf_balance ;;
  decide_keeps t leaf_walker_idxs full_merge_groups merge_groups g.

(** *** The resampler's random sources *)

(** The two process-wide generators: the standard library's [random] and
    NumPy's [np.random]. *)
Context {RandomState : Type}.
Variable random_seed : Z -> RandomState.

Record Generators : Type := mkGenerators {
  random_state : RandomState;
  np_random_state : NpRandomState
}.

(** What [WExploreResampler.__init__] does to the generators:
    [if self.seed is not None: rand.seed(self.seed)]. *)
Definition WExploreResampler__init__ (seed : option Z) (gens : Generators)
    : Generators :=
  match seed with
  | Some seed => mkGenerators (random_seed seed) (np_random_state gens)
  | None => gens
  end.

(** The draw of the keeper,
    [np.random.choice(chosen_walker_idxs, 1, p=chosen_pdist)[0]]. *)
Definition choose_keep_walker (gens : Generators)
    (chosen_walker_idxs : list nat) (chosen_pdist : list Q)
    : nat * Generators :=
  let '(keep_walker_idx, g) :=
    np_random_choice (np_random_state gens) chosen_walker_idxs chosen_pdist in
  (keep_walker_idx, mkGenerators (random_state gens) g).

End Model.

(** ** A one-dimensional instance *)

(** States and images are rationals, the image of a state is the state, and
    the distance between two images is the absolute difference. *)
Module Line.

Definition image (x : Q) : Q := x.

Definition image_distance (a b : Q) : result Q := Ok (Qabs (a - b)).

Definition walker (x w : Q) : Walker := mkWalker x w.

(** The tree [RegionTree(0, max_n_regions=(2,), max_region_sizes=(1,),
    max_num_walkers=m, pmin=0.1, pmax=0.5)]: the root and one leaf. *)
Definition tree0 (max_num_walkers : option Z) : @RegionTree Q :=
  mkRegionTree
    [([], fresh_attrs 0); ([O], fresh_attrs 0)]
    [([], [O])]
    [2] 1 [1%Q] (1#10) (1#2) max_num_walkers 1 "single" [] [] [0%Q] [[O]].

(** [tree0] with a second leaf around the image 5. *)
Definition two_leaves (max_num_walkers : option Z) : @RegionTree Q :=
  mkRegionTree
    [([], fresh_attrs 0); ([O], fresh_attrs 0); ([1%nat], fresh_attrs 1)]
    [([], [O]); ([], [1%nat])]
    [2] 1 [1%Q] (1#10) (1#2) max_num_walkers 1 "single" [] []
    [0%Q; 5%Q] [[O]; [1%nat]].

(** A tree of two levels: two regions at the top (images 0 and 10), the
    first one split again (images 0 and 3). *)
Definition two_levels : @RegionTree Q :=
  mkRegionTree
    [([], fresh_attrs 0);
     ([O], fresh_attrs 0); ([O; O], fresh_attrs 0);
     ([1%nat], fresh_attrs 1); ([1%nat; O], fresh_attrs 1);
     ([O; 1%nat], fresh_attrs 2)]
    [([], [O]); ([O], [O; O]); ([], [1%nat]); ([1%nat], [1%nat; O]);
     ([O], [O; 1%nat])]
    [2; 2] 2 [4%Q; 1%Q] (1#10) (1#2) (Some 10) 1 "single" [] []
    [0%Q; 10%Q; 3%Q] [[O; O]; [1%nat; O]; [O; 1%nat]].

(** A stand-in for NumPy's generator: the state is a counter, and a draw
    takes the candidate at the counter's position (modulo their number). *)
Definition np_random_choice (g : nat) (a : list nat) (p : list Q)
    : nat * nat :=
  (nth (g mod List.length a) a O, S g).

(** A stand-in for [random.seed]. *)
Definition random_seed (seed : Z) : Z := seed.

End Line.

(** ** What the specification says, in its own words *)

(** Section 4.3: the sum of the [k] smallest weights. *)
Definition prefix_sum (sorted : list Q) (k : nat) : Q :=
  Qsum (firstn k sorted).

(** Section 4.3: [k] is the largest number of smallest weights whose sum is
    at most [pmax]. *)
Definition largest_prefix (sorted : list Q) (pmax : Q) (k : nat) : Prop :=
  (k <= List.length sorted)%nat /\
  (prefix_sum sorted k <= pmax)%Q /\
  forall k', (k < k' <= List.length sorted)%nat ->
             (pmax < prefix_sum sorted k')%Q.

(** Section 4.3: [n_mergeable = k - 1], and [0] when [k <= 1]. *)
Definition n_mergeable_spec (k : nat) : Z :=
  if (k <=? 1)%nat then 0 else Z.of_nat k - 1.




(** What the source computes instead: the weight of a child under the
    clones already assigned, [w / (clones[k] + 1)]. *)
Definition current_child_weight (w : Q) (clones : Z) : Q :=
  (w / inject_Z (clones + 1))%Q.

(** A candidate of the clone-assignment loop: position [pos] of the
    candidate lists, walker [idx] of weight [w] with [c] clones so far. *)
Definition candidate (idxs : list nat) (ws : list Q) (clones : list Z)
    (pos idx : nat) (w : Q) (c : Z) : Prop :=
  nth_error idxs pos = Some idx /\
  nth_error ws pos = Some w /\
  nth_error clones idx = Some c.


(** [d] is the minimum of [ds] and [i] its first position. *)
Definition first_min (ds : list Q) (i : nat) (d : Q) : Prop :=
  nth_error ds i = Some d /\
  (forall j dj, nth_error ds j = Some dj -> (d <= dj)%Q) /\
  (forall j dj, (j < i)%nat -> nth_error ds j = Some dj -> (d < dj)%Q).

Section Descent.

Context {Image : Type}.
Variable image_distance : Image -> Image -> result Q.

(** The distance from the image [x] to the image of the node [c]. *)
Definition child_dist (t : @RegionTree Image) (x : Image) (c : node_id)
    (d : Q) : Prop :=
  exists a img,
    lookup_node (nodes t) c = Some a /\
    nth_error (_images t) (image_idx a) = Some img /\
    image_distance x img = Ok d.

(** Section 4.1: from node [nd], [levels] times over, take the distances to
    all children, select the first child at minimum distance, record the
    position and the distance, and descend. *)
Inductive nearest_descent (t : @RegionTree Image) (x : Image)
    : node_id -> nat -> list nat -> list Q -> Prop :=
| nd_done : forall nd, nearest_descent t x nd O [] []
| nd_step : forall nd levels cs ds i d c assignment dists,
    children t nd = Ok cs ->
    Forall2 (child_dist t x) cs ds ->
    first_min ds i d ->
    nth_error cs i = Some c ->
    nearest_descent t x c levels assignment dists ->
    nearest_descent t x nd (S levels) (i :: assignment) (d :: dists).

End Descent.

(** ** Well-formed trees *)

Section WellFormed.

Context {Image : Type}.

Definition node_ids (t : @RegionTree Image) : list node_id :=
  map fst (nodes t).

(** Every prefix of a node identifier names a node. *)
Definition prefix_closedb (t : @RegionTree Image) : bool :=
  forallb (fun n =>
             forallb (fun k => has_node t (firstn k n))
               (seq 0 (List.length n)))
    (node_ids t).

(** The root is a node; every edge leads one level down to a node whose
    image is in the image table; every node above leaf depth has a child. *)
Definition descendableb (t : @RegionTree Image) : bool :=
  has_node t ROOT_NODE
  && forallb (fun '(u, v) =>
                (List.length v =? S (List.length u))%nat
                && match lookup_node (nodes t) v with
                   | Some a => (image_idx a <? List.length (_images t))%nat
                   | None => false
                   end)
       (edges t)
  && forallb (fun n =>
                (_n_levels t <=? List.length n)%nat
                || match successors t n with
                   | [] => false
                   | _ :: _ => true
                   end)
       (node_ids t).

(** The leaves, in the order of the node dictionary. *)
Definition leaves (t : @RegionTree Image) : list node_id :=
  filter (fun n => (List.length n =? _n_levels t)%nat) (node_ids t).

Definition attr_of (t : @RegionTree Image) (f : NodeAttrs -> Z)
    (n : node_id) : Z :=
  match lookup_node (nodes t) n with
  | Some a => f a
  | None => 0
  end.

(** The walkers a node holds. *)
Definition walkers_of (t : @RegionTree Image) (n : node_id) : list nat :=
  match lookup_node (nodes t) n with
  | Some a => walker_idxs a
  | None => []
  end.


End WellFormed.

(** ** Vocabulary of the proofs *)

(** The entry of [child_weights] for a candidate: its current child
    weight, or the mark [-1] when that is below [pmin]. *)
Definition marked (pmin : Q) (w : Q) (c : Z) : Q :=
  if Qlt_bool (current_child_weight w c) pmin then (-1)%Q
  else current_child_weight w c.

(** The first branch: the nodes [()], [(0,)], [(0, 0)], ... down to depth
    [n], and the edges between consecutive ones. *)
Definition chain_nodes (n : nat) : list (node_id * NodeAttrs) :=
  map (fun k => (repeat O k, fresh_attrs 0)) (seq 0 (S n)).

Definition chain_edges (n : nat) : list (node_id * node_id) :=
  map (fun k => (repeat O k, repeat O (S k))) (seq 0 n).

Section Vocabulary.

Context {Image : Type}.
Implicit Type t : @RegionTree Image.

(** Every cached distance is the distance the metric gives. *)
Definition cache_ok (image_distance : Image -> Image -> result Q) t
    (x : Image) (cache : dist_cache) : Prop :=
  forall k d img,
    cache_get cache k = Some d -> nth_error (_images t) k = Some img ->
    image_distance x img = Ok d.

(** A tree with the two counts that the accounting writes blanked out:
    what is left is what the accounting reads and never changes. *)
Definition erase_counts_attrs (a : NodeAttrs) : NodeAttrs :=
  set_n_cloneable 0 (set_n_mergeable 0 a).

Definition erase_counts t : @RegionTree Image :=
  with_nodes (map (fun '(k, a) => (k, erase_counts_attrs a)) (nodes t)) t.

(** The loops that add a leaf's count to its ancestors. *)
Definition propagate (get : NodeAttrs -> Z)
    (set : Z -> NodeAttrs -> NodeAttrs) (node_id : node_id)
    (levels : list nat) : @M Image unit :=
  for_each levels
    (fun level (_ : unit) =>
       let branch_node_id := firstn level node_id in
       bind (read (fun t => node t branch_node_id)) (fun b =>
       bind (read (fun t => node t node_id)) (fun l =>
       set_node branch_node_id (set (get b + get l)))))
    tt.



(** What the accounting relies on: every prefix of a node is a node, the
    walker indices kept on the nodes are positions of the weight table,
    the walker count of a node is the length of its walker list, and the
    merge method and the walker cap are set. *)
Record accountable t (m : Z) : Prop := mkAccountable {
  acc_prefix : forall n k, has_node t n = true ->
                           has_node t (firstn k n) = true;
  acc_idxs : forall n a, lookup_node (nodes t) n = Some a ->
               Forall (fun i => (i < List.length (_walker_weights t))%nat)
                 (walker_idxs a);
  acc_count : forall n a, lookup_node (nodes t) n = Some a ->
                n_walkers a = Z.of_nat (List.length (walker_idxs a));
  acc_method : _merge_method t = "single"%string;
  acc_cap : _max_num_walkers t = Some m
}.

(** [triple P c Q]: from a tree satisfying [P], if [c] returns [a] and
    leaves [t'], then [Q a t']. *)
Definition triple {A} (P : @RegionTree Image -> Prop) (c : @M Image A)
    (Q : A -> @RegionTree Image -> Prop) : Prop :=
  forall t a t', P t -> c t = (Ok a, t') -> Q a t'.

Definition attr_ok (bound : nat) (na : node_id * NodeAttrs) : Prop :=
  Forall (fun i => (i < bound)%nat) (walker_idxs (snd na)) /\
  n_walkers (snd na) = Z.of_nat (List.length (walker_idxs (snd na))).

(** The parameters no method changes after construction. *)
Definition config : Type := (string * option Z * Q * nat)%type.

Definition cfg t : config :=
  (_merge_method t, _max_num_walkers t, _pmin t, _n_levels t).

(** The state of the tree while walkers are being placed: [len] walkers
    have their weight in the table, every walker index on a node is below
    [bound], the parameters are [c], and, when [closed] is set, every
    prefix of a node is a node. *)
Record placing (c : config) (closed : bool) (bound len : nat) t : Prop :=
  mkPlacing {
  pl_prefix : closed = true ->
              forall n k, has_node t n = true ->
                          has_node t (firstn k n) = true;
  pl_attrs : Forall (attr_ok bound) (nodes t);
  pl_len : List.length (_walker_weights t) = len;
  pl_cfg : cfg t = c
}.

(** A tree that is descendable except that the node [hole], whose branch
    is still being built, may have no child yet. *)
Definition descendable_but t (hole : node_id) : Prop :=
  has_node t ROOT_NODE = true /\
  (forall u v, In (u, v) (edges t) ->
     List.length v = S (List.length u) /\
     exists a, lookup_node (nodes t) v = Some a /\
               (image_idx a < List.length (_images t))%nat) /\
  (forall n, has_node t n = true -> (List.length n < _n_levels t)%nat ->
             n <> hole -> exists v, In (n, v) (edges t)).

(** The state of a branch under construction: [p] is its lowest node, at
    depth [i]. *)
Definition branching (levels idx : nat) (i : nat) (p : node_id) t : Prop :=
  List.length p = i /\
  descendable_but t p /\ has_node t p = true /\
  (idx < List.length (_images t))%nat /\ _n_levels t = levels.

End Vocabulary.

(** ** Numbered trees and the books of a placement *)

(** The identifiers [add_child] gives to the first [k] children of [u]. *)
Definition kids (u : node_id) (k : nat) : list node_id :=
  map (fun i => u ++ [i]) (seq 0 k).

Section NumberedDefs.

Context {Image : Type}.
Implicit Type t : @RegionTree Image.

(** The most children a node at depth [level] is allowed: the entry of
    [max_n_regions], and one in any case (a branch gives each of its new
    nodes one child without asking). *)
Definition region_cap t (level : nat) : Z :=
  Z.max 1 (nth level (_max_n_regions t) 0).

(** A tree as the constructor and [place_walkers] build it: the children of
    a node [u] are numbered [u + (0,)], [u + (1,)], ... without gaps and
    are no more than the cap of their level, every node but the root hangs
    under its parent, every image index is in the image table, every node
    above leaf depth has a child (but for [hole], the lowest node of a
    branch under construction), and the two parameter tuples cover the
    levels. *)
Record numbered_but t (hole : option node_id) : Prop := mkNumbered {
  nb_root : has_node t ROOT_NODE = true;
  nb_edges : forall u v, In (u, v) (edges t) ->
               has_node t u = true /\ has_node t v = true;
  nb_kids : forall u, has_node t u = true ->
              exists k, children t u = Ok (kids u k) /\
                        Z.of_nat k <= region_cap t (List.length u) /\
                        ((List.length u < _n_levels t)%nat ->
                         Some u <> hole -> (0 < k)%nat);
  nb_parent : forall u i, has_node t (u ++ [i]) = true ->
                In (u, u ++ [i]) (edges t);
  nb_depth : forall u, has_node t u = true ->
               (List.length u <= _n_levels t)%nat;
  nb_image : forall u a, lookup_node (nodes t) u = Some a ->
               (image_idx a < List.length (_images t))%nat;
  nb_regions : List.length (_max_n_regions t) = _n_levels t;
  nb_sizes : (_n_levels t <= List.length (_max_region_sizes t))%nat
}.

Definition numbered t : Prop := numbered_but t None.

(** What a node and an edge that are both new add to the tree. *)
Definition grown t (p c : node_id) (idx : nat) : @RegionTree Image :=
  with_edges (edges t ++ [(p, c)])
    (with_nodes (nodes t ++ [(c, fresh_attrs idx)]) t).

(** The parameters given at construction. *)
Definition params t :=
  (_max_n_regions t, _n_levels t, _max_region_sizes t, _pmin t, _pmax t,
   _max_num_walkers t, _min_num_walkers t, _merge_method t).

(** [t'] is [t] with regions added: the nodes of [t] are as they were, the
    new nodes are without walkers, and the walker tables and the
    parameters are the same. *)
Record extends t t' : Prop := mkExtends {
  ex_old : forall n a, lookup_node (nodes t) n = Some a ->
                       lookup_node (nodes t') n = Some a;
  ex_new : forall n a, lookup_node (nodes t') n = Some a ->
                       lookup_node (nodes t) n = None ->
                       n_walkers a = 0 /\ walker_idxs a = [];
  ex_weights : _walker_weights t' = _walker_weights t;
  ex_assignments : _walker_assignments t' = _walker_assignments t;
  ex_params : params t' = params t
}.

End NumberedDefs.

(** What the last loop of a placement does to a node on the walker's
    path. *)
Definition bump (walker_idx : nat) (a : NodeAttrs) : NodeAttrs :=
  set_walker_idxs (walker_idxs a ++ [walker_idx])
    (set_n_walkers (n_walkers a + 1) a).

(** [n] is an initial segment of [a]. *)
Definition is_prefix (n a : node_id) : Prop := firstn (List.length n) a = n.

Section LedgerDefs.

Context {State Image : Type}.
Implicit Type t : @RegionTree Image.

Definition credit (walker_idx : nat) (a : node_id) (levels : list nat) t
    : @RegionTree Image :=
  fold_left
    (fun t level =>
       with_nodes (update_node (nodes t) (firstn level a) (bump walker_idx))
         t)
    levels t.

(** The books of a placement after the walkers [ws]: the tree is numbered,
    the weight table holds their weights in order, every assignment is a
    leaf, walker [i] is listed at a node exactly when the node lies on the
    path to the leaf walker [i] was assigned, and the walker count of a
    node is the length of its list, which has no repetition. *)
Record ledger (ws : list (@Walker State)) t : Prop := mkLedger {
  lg_numbered : numbered t;
  lg_weights : _walker_weights t = map weight ws;
  lg_assignments : List.length (_walker_assignments t) = List.length ws;
  lg_leaf : Forall (fun a => In a (leaves t)) (_walker_assignments t);
  lg_where : forall n x i,
      lookup_node (nodes t) n = Some x ->
      (In i (walker_idxs x) <->
       exists a, nth_error (_walker_assignments t) i = Some a /\
                 is_prefix n a);
  lg_count : forall n x,
      lookup_node (nodes t) n = Some x ->
      n_walkers x = Z.of_nat (List.length (walker_idxs x)) /\
      NoDup (walker_idxs x)
}.

End LedgerDefs.

Section GrewDefs.

Context {Image : Type}.
Implicit Type t : @RegionTree Image.

(** How a placement that recorded the branches [bs] changed the tree [t]
    into [t']: the image and region tables grew by the images and leaves
    of the records, in order; the parameters and the nodes of [t] are
    kept; and every record names a leaf that is new, a level of the tree,
    and a distance above the region size of that level. *)
Record grew t (bs : list (@Branch Image)) t' : Prop := mkGrew {
  gr_images : _images t' = _images t ++ map br_image bs;
  gr_regions : _regions t' = _regions t ++ map br_new_leaf_id bs;
  gr_params : params t' = params t;
  gr_nodes : forall n, has_node t n = true -> has_node t' n = true;
  gr_branches :
    Forall (fun b =>
              In (br_new_leaf_id b) (leaves t') /\
              has_node t (br_new_leaf_id b) = false /\
              (br_branching_level b < _n_levels t)%nat /\
              exists size,
                nth_error (_max_region_sizes t) (br_branching_level b)
                = Some size /\ (size < br_distance b)%Q)
      bs
}.

End GrewDefs.

Section BranchedDefs.

Context {State Image : Type}.
Variable image : State -> Image.
Implicit Type t : @RegionTree Image.

(** What the branching loop of [place_walkers] leaves: either no level
    branched, or one did and the walker now belongs to the new leaf. *)
Definition branched_at (walker : @Walker State) (a : node_id) (level : nat)
    (distances : list Q) t (a' : node_id) (bs : list (@Branch Image)) t'
    : Prop :=
  (bs = [] /\ a' = a /\ t' = t) \/
  (exists lvl d size,
     bs = [mkBranch d lvl a' (image (state walker))] /\
     (level <= lvl < _n_levels t)%nat /\
     nth_error distances (lvl - level) = Some d /\
     nth_error (_max_region_sizes t) lvl = Some size /\ (size < d)%Q /\
     has_node t a' = false /\
     firstn lvl a' = firstn lvl a /\
     _images t' = _images t ++ [image (state walker)] /\
     _regions t' = _regions t ++ [a'] /\
     lookup_node (nodes t') a'
     = Some (fresh_attrs (List.length (_images t)))).

End BranchedDefs.

(** ** The resampler *)

Section ResamplerDefs.

Context {State Image : Type}.
Variable image : State -> Image.
Variable image_distance : Image -> Image -> result Q.

(** The region tree [WExploreResampler.__init__] builds: the constructor
    is called without [max_num_walkers], [min_num_walkers] and
    [merge_method], which take their defaults. *)
Definition WExploreResampler_region_tree (pmin pmax : Q)
    (max_n_regions : list Z) (max_region_sizes : list Q)
    (init_state : State) : result (@RegionTree Image) :=
  RegionTree__init__ image init_state max_n_regions max_region_sizes
    None 1 pmin pmax "single".

(** [WExploreResampler.assign]: the walkers are placed on the region tree,
    and the assignments kept on the tree are returned with the records of
    the new branches. *)
Definition WExploreResampler_assign (walkers : list (@Walker State))
    : @M Image (list node_id * list (@Branch Image)) :=
  bind (place_walkers image image_distance walkers) (fun new_branches =>
  let resampler_data := new_branches in
  bind get (fun t =>
  let assignments := _walker_assignments t in
  ret (assignments, resampler_data))).

End ResamplerDefs.

(** * Properties *)

(** ** Lists, identifiers and the node dictionary *)

Lemma rbind_ok {A B} (r : result A) (k : A -> result B) (b : B) :
  rbind r k = Ok b -> exists a, r = Ok a /\ k a = Ok b.
Proof. destruct r as [a|e]; simpl; intro H; [eauto | discriminate]. Qed.

Lemma rmapM_ok_map {A B} (f : A -> result B) (g : A -> B) (l : list A) :
  (forall x, In x l -> f x = Ok (g x)) -> rmapM f l = Ok (map g l).
Proof.
  induction l as [|x l IH]; intro H; simpl; [reflexivity|].
  rewrite (H x (or_introl eq_refl)). simpl.
  rewrite IH by (intros y Hy; apply H; right; exact Hy).
  reflexivity.
Qed.

Lemma rmapM_length {A B} (f : A -> result B) (l : list A) (r : list B) :
  rmapM f l = Ok r -> List.length r = List.length l.
Proof.
  revert r. induction l as [|x l IH]; simpl; intros r H.
  - inversion H. reflexivity.
  - apply rbind_ok in H. destruct H as [y [_ H]].
    apply rbind_ok in H. destruct H as [ys [Hys H]].
    inversion H. simpl. f_equal. apply IH. exact Hys.
Qed.

Lemma rmapM_Forall2 {A B} (f : A -> result B) (l : list A) (r : list B) :
  rmapM f l = Ok r -> Forall2 (fun x y => f x = Ok y) l r.
Proof.
  revert r. induction l as [|x l IH]; simpl; intros r H.
  - inversion H. constructor.
  - apply rbind_ok in H. destruct H as [y [Hy H]].
    apply rbind_ok in H. destruct H as [ys [Hys H]].
    inversion H. constructor; [exact Hy | apply IH; exact Hys].
Qed.

Lemma rmapM_one_error {A B} (f : A -> result B) (e : exn) (l : list A) :
  (forall x, (exists y, f x = Ok y) \/ f x = Raise e) ->
  (exists r, rmapM f l = Ok r) \/ rmapM f l = Raise e.
Proof.
  intro Hf. induction l as [|x l IH]; simpl; [left; eauto|].
  destruct (Hf x) as [[y ->] | ->]; simpl; [|right; reflexivity].
  destruct IH as [[r ->] | ->]; simpl; [left; eauto | right; reflexivity].
Qed.

Lemma py_index_ok {A} (l : list A) (i : nat) (x : A) :
  py_index l i = Ok x <-> nth_error l i = Some x.
Proof.
  unfold py_index. destruct (nth_error l i); split; intro H;
    inversion H; reflexivity.
Qed.

Lemma py_index_lt {A} (l : list A) (i : nat) :
  (i < List.length l)%nat -> exists x, py_index l i = Ok x.
Proof.
  intro H. unfold py_index.
  destruct (nth_error l i) eqn:E; [eauto|].
  apply nth_error_None in E. lia.
Qed.

Lemma node_id_eqb_eq (a b : node_id) : node_id_eqb a b = true <-> a = b.
Proof.
  revert b. induction a as [|x a IH]; destruct b as [|y b]; simpl;
    try (split; [discriminate | congruence]); try tauto.
  rewrite andb_true_iff, Nat.eqb_eq, IH.
  split; [intros [-> ->]; reflexivity | intro H; inversion H; auto].
Qed.

Lemma node_id_eqb_refl (a : node_id) : node_id_eqb a a = true.
Proof. apply node_id_eqb_eq. reflexivity. Qed.

Lemma node_id_eqb_neq (a b : node_id) : node_id_eqb a b = false <-> a <> b.
Proof.
  split.
  - intros H E. apply node_id_eqb_eq in E. congruence.
  - intro H. destruct (node_id_eqb a b) eqn:E; [|reflexivity].
    apply node_id_eqb_eq in E. contradiction.
Qed.

Lemma lookup_node_in (l : list (node_id * NodeAttrs)) (n : node_id) :
  In n (map fst l) <-> exists a, lookup_node l n = Some a.
Proof.
  induction l as [|[k a] l IH]; simpl.
  - split; [tauto | intros [a H]; discriminate].
  - destruct (node_id_eqb n k) eqn:E.
    + apply node_id_eqb_eq in E. subst. split; eauto.
    + apply node_id_eqb_neq in E. rewrite <- IH.
      split; [intros [H|H]; [congruence | exact H] | tauto].
Qed.

Lemma update_node_keys (l : list (node_id * NodeAttrs)) n f :
  map fst (update_node l n f) = map fst l.
Proof.
  induction l as [|[k a] l IH]; simpl; [reflexivity|].
  destruct (node_id_eqb n k); simpl; [reflexivity | f_equal; exact IH].
Qed.

Lemma lookup_update_same (l : list (node_id * NodeAttrs)) n f :
  lookup_node (update_node l n f) n = option_map f (lookup_node l n).
Proof.
  induction l as [|[k a] l IH]; simpl; [reflexivity|].
  destruct (node_id_eqb n k) eqn:E; simpl; rewrite E;
    [reflexivity | exact IH].
Qed.

Lemma lookup_update_other (l : list (node_id * NodeAttrs)) n n' f :
  n' <> n -> lookup_node (update_node l n f) n' = lookup_node l n'.
Proof.
  intro Hne. induction l as [|[k a] l IH]; simpl; [reflexivity|].
  destruct (node_id_eqb n k) eqn:E; simpl.
  - apply node_id_eqb_eq in E. subst k.
    apply node_id_eqb_neq in Hne. rewrite Hne. reflexivity.
  - destruct (node_id_eqb n' k); [reflexivity | exact IH].
Qed.

Lemma Zsum_from (l : list Z) (z : Z) : fold_left Z.add l z = z + Zsum l.
Proof.
  unfold Zsum. revert z. induction l as [|x l IH]; intro z; simpl; [lia|].
  rewrite (IH (z + x)), (IH x). lia.
Qed.

Lemma Zsum_cons (x : Z) (l : list Z) : Zsum (x :: l) = x + Zsum l.
Proof. unfold Zsum at 1. simpl. apply Zsum_from. Qed.

(** ** The instance trees are trees the code builds *)

Example tree0_constructed (m : option Z) :
  RegionTree__init__ Line.image 0%Q [2] [1%Q] m 1 (1#10) (1#2) "single"
  = Ok (Line.tree0 m).
Proof. reflexivity. Qed.

Example two_leaves_placed :
  let t := snd (place_all Line.image Line.image_distance
                  [Line.walker 0 (4#10); Line.walker 5 (2#10)]
                  (Line.tree0 (Some 10))) in
  node_ids t = node_ids (Line.two_leaves (Some 10)) /\
  edges t = edges (Line.two_leaves (Some 10)) /\
  _images t = _images (Line.two_leaves (Some 10)) /\
  _regions t = _regions (Line.two_leaves (Some 10)).
Proof. vm_compute. repeat split. Qed.

Example two_levels_placed :
  let t :=
    t0 <- RegionTree__init__ Line.image 0%Q [2; 2] [4%Q; 1%Q] (Some 10) 1
            (1#10) (1#2) "single" ;;
    Ok (snd (place_all Line.image Line.image_distance
               [Line.walker 10 (4#10); Line.walker 3 (2#10)] t0)) in
  match t with
  | Ok t =>
      node_ids t = node_ids Line.two_levels /\
      edges t = edges Line.two_levels /\
      _images t = _images Line.two_levels /\
      _regions t = _regions Line.two_levels
  | Raise _ => False
  end.
Proof. vm_compute. repeat split. Qed.

(** ** Mergeable count *)

(** [list.sort()] sorts: the result is ascending and a rearrangement of
    the input. *)
Lemma insert_sorted_perm (x : Q) (l : list Q) :
  Permutation (x :: l) (insert_sorted x l).
Proof.
  induction l as [|y l IH]; simpl; [reflexivity|].
  destruct (Qlt_bool x y); [reflexivity|].
  rewrite perm_swap. constructor. exact IH.
Qed.

Lemma insert_sorted_sorted (x : Q) (l : list Q) :
  StronglySorted Qle l -> StronglySorted Qle (insert_sorted x l).
Proof.
  induction l as [|y l IH]; simpl; intro Hs.
  - constructor; constructor.
  - inversion Hs as [|? ? Hs' Hall]; subst.
    destruct (Qlt_bool x y) eqn:E.
    + apply Qlt_bool_iff in E. constructor; [exact Hs|].
      constructor; [apply Qlt_le_weak; exact E|].
      eapply Forall_impl; [|exact Hall].
      intros a Ha. eapply Qle_trans; [apply Qlt_le_weak; exact E | exact Ha].
    + assert (y <= x)%Q as Hyx.
      { apply Qnot_lt_le. intro Hlt. apply Qlt_bool_iff in Hlt. congruence. }
      constructor; [apply IH; exact Hs'|].
      apply Forall_forall. intros a Ha.
      apply (Permutation_in _ (Permutation_sym (insert_sorted_perm x l))) in Ha.
      destruct Ha as [<- | Ha]; [exact Hyx|].
      rewrite Forall_forall in Hall. apply Hall. exact Ha.
Qed.

Lemma sort_weights_sorted_perm (l : list Q) :
  StronglySorted Qle (sort_weights l) /\ Permutation l (sort_weights l).
Proof.
  unfold sort_weights.
  assert (forall acc, StronglySorted Qle acc ->
            StronglySorted Qle (fold_left (fun acc x => insert_sorted x acc) l acc)
            /\ Permutation (l ++ acc)
                 (fold_left (fun acc x => insert_sorted x acc) l acc)) as H.
  { induction l as [|x l IH]; intros acc Hs; simpl.
    - split; [exact Hs | reflexivity].
    - destruct (IH (insert_sorted x acc) (insert_sorted_sorted x acc Hs))
        as [H1 H2].
      split; [exact H1|]. rewrite <- H2.
      rewrite <- insert_sorted_perm. apply Permutation_middle. }
  destruct (H [] (SSorted_nil _)) as [H1 H2].
  split; [exact H1|]. rewrite app_nil_r in H2. exact H2.
Qed.

Lemma Qsum_from (l : list Q) (z : Q) : (fold_left Qplus l z == z + Qsum l)%Q.
Proof.
  unfold Qsum. revert z. induction l as [|x l IH]; intro z; simpl.
  - ring.
  - rewrite (IH (z + x)%Q), (IH (0 + x)%Q). ring.
Qed.

Lemma prefix_sum_S (l : list Q) (k : nat) (x : Q) :
  nth_error l k = Some x ->
  (prefix_sum l (S k) == prefix_sum l k + x)%Q.
Proof.
  revert k. induction l as [|y l IH]; intros k H.
  - destruct k; discriminate.
  - destruct k as [|k]; simpl in H.
    + inversion H; subst. unfold prefix_sum, Qsum. simpl. ring.
    + specialize (IH k H). unfold prefix_sum, Qsum in *. simpl.
      rewrite (Qsum_from (firstn (S k) l)), (Qsum_from (firstn k l)).
      unfold Qsum. rewrite IH. ring.
Qed.





Lemma n_mergeable_spec_fits (k : nat) :
  (1 <= k)%nat -> n_mergeable_spec k = Z.of_nat k - 1.
Proof.
  intro H. unfold n_mergeable_spec.
  destruct (k <=? 1)%nat eqn:E; [|reflexivity].
  apply Nat.leb_le in E. assert (k = 1%nat) as -> by lia. reflexivity.
Qed.

Example squashable_four_equal :
  calc_squashable_walkers_single_method [1#10; 1#10; 1#10; 1#10] (1#2)
  = Ok 3.
Proof. reflexivity. Qed.

Example squashable_unsorted :
  calc_squashable_walkers_single_method [3#10; 1#10; 2#10; 1#10] (1#2)
  = Ok 2.
Proof. reflexivity. Qed.

(** C1.  Where the claim says the result is [0] when not even the smallest
    weight fits under [pmax] (the largest prefix is empty, [k = 0]), the
    function returns [-1]:  for the weights 0.6 and 0.7 and [pmax = 0.5]
    the loop condition fails at once, the [else] suite takes [merge_size]
    from 1 to 0, and [n_squashable = merge_size - 1 = -1]. *)
Theorem calc_squashable_below_zero :
  largest_prefix (sort_weights [6#10; 7#10]) (1#2) 0 /\
  n_mergeable_spec 0 = 0 /\
  calc_squashable_walkers_single_method [6#10; 7#10] (1#2) = Ok (-1).
Proof.
  split; [|split; reflexivity].
  split; [simpl; lia|]. split; [vm_compute; discriminate|].
  intros k' [H1 H2]. simpl in H2.
  assert (k' = 1 \/ k' = 2)%nat as [-> | ->] by lia; reflexivity.
Qed.

(** ** Clearing the walkers *)

Section ClearWalkers.

Context {Image : Type}.
Implicit Type t : @RegionTree Image.

Lemma clear_walkers_nodes t :
  nodes (clear_walkers t)
  = map (fun '(node_id, a) =>
           (node_id,
            set_balance 0
              (set_n_possible_clones (Some 0)
                 (set_n_squashable (Some 0)
                    (set_walker_idxs [] (set_n_walkers 0 a))))))
      (nodes t).
Proof. reflexivity. Qed.

Lemma lookup_clear_walkers t n :
  lookup_node (nodes (clear_walkers t)) n
  = option_map
      (fun a =>
         set_balance 0
           (set_n_possible_clones (Some 0)
              (set_n_squashable (Some 0)
                 (set_walker_idxs [] (set_n_walkers 0 a)))))
      (lookup_node (nodes t) n).
Proof.
  rewrite clear_walkers_nodes.
  induction (nodes t) as [|[k a] l IH]; simpl; [reflexivity|].
  destruct (node_id_eqb n k); [reflexivity | exact IH].
Qed.

(** What [clear_walkers] does reset, and what it leaves alone: the walker
    count, the walker list and the balance of every node go back to their
    defaults; the node set, the edges and the image table stay. *)
Lemma clear_walkers_resets t n a :
  lookup_node (nodes (clear_walkers t)) n = Some a ->
  n_walkers a = 0 /\ walker_idxs a = [] /\ balance a = 0.
Proof.
  rewrite lookup_clear_walkers.
  destruct (lookup_node (nodes t) n); simpl; intro H; inversion H.
  repeat split.
Qed.

Lemma clear_walkers_topology t :
  node_ids (clear_walkers t) = node_ids t /\
  edges (clear_walkers t) = edges t /\
  _images (clear_walkers t) = _images t.
Proof.
  repeat split. unfold node_ids. rewrite clear_walkers_nodes, map_map.
  apply map_ext. intros [k a]. reflexivity.
Qed.

(** The mergeable and cloneable counts are not among the keys that
    [clear_walkers] writes: they come out as they went in. *)
Lemma clear_walkers_keeps_counts t n :
  attr_of (clear_walkers t) n_mergeable n = attr_of t n_mergeable n /\
  attr_of (clear_walkers t) n_cloneable n = attr_of t n_cloneable n.
Proof.
  unfold attr_of. rewrite lookup_clear_walkers.
  destruct (lookup_node (nodes t) n); split; reflexivity.
Qed.

End ClearWalkers.

(** C6.  After a cycle that placed one walker of weight 0.4 ([pmin = 0.1],
    [max_num_walkers = 10]) the leaf and the root have [n_cloneable = 3];
    [clear_walkers] writes [n_squashable] and [n_possible_clones], not
    [n_mergeable] and [n_cloneable], so after it both nodes still have
    [n_cloneable = 3] where the claim says [0]. *)
Theorem clear_walkers_stale_n_cloneable :
  let run := place_walkers Line.image Line.image_distance
               [Line.walker 0 (4#10)] (Line.tree0 (Some 10)) in
  fst run = Ok [] /\
  attr_of (snd run) n_cloneable [O] = 3 /\
  attr_of (clear_walkers (snd run)) n_cloneable [O] = 3 /\
  attr_of (clear_walkers (snd run)) n_cloneable ROOT_NODE = 3 /\
  attr_of (clear_walkers (snd run)) n_walkers [O] = 0.
Proof. vm_compute. repeat split. Qed.

(** ** Balance propagation *)

Section Balance.

Context {Image : Type}.
Implicit Type t : @RegionTree Image.

Lemma node_of_key t n :
  In n (node_ids t) -> node t n = Ok (match lookup_node (nodes t) n with
                                       | Some a => a
                                       | None => fresh_attrs 0
                                       end).
Proof.
  intro H. apply lookup_node_in in H. destruct H as [a H].
  unfold node. rewrite H. reflexivity.
Qed.

Lemma leaf_nodes_ok t : leaf_nodes t = Ok (leaves t).
Proof.
  unfold leaf_nodes, level_nodes. rewrite Nat.ltb_irrefl. reflexivity.
Qed.

Lemma leaves_are_nodes t n : In n (leaves t) -> In n (node_ids t).
Proof. unfold leaves. intro H. apply filter_In in H. tauto. Qed.




(** The check is what [balance_tree] does after a propagation that
    completed. *)
Lemma balance_tree_after_propagation
    (bfs : @RegionTree Image -> node_id -> list (node_id * list node_id))
    (budget : nat) (mx mn delta_walkers : Z) t t' :
  balance_tree_propagate bfs budget delta_walkers t = (Ok tt, t') ->
  balance_tree bfs budget mx mn delta_walkers t
  = balance_tree_settle delta_walkers t'.
Proof. intro H. unfold balance_tree, bind. rewrite H. reflexivity. Qed.

Lemma node_error t n : (exists a, node t n = Ok a) \/ node t n = Raise KeyError.
Proof.
  unfold node. destruct (lookup_node (nodes t) n); simpl; eauto.
Qed.

Lemma initial_shares_state (cs : list node_id) t :
  snd (initial_shares cs t) = t.
Proof. reflexivity. Qed.

(** The debit dispenser never returns: building [children_shares] may fail
    on a child that is not a node, and the first test of the loop
    condition reads [remaining_balance] unbound. *)
Lemma initial_shares_result (cs : list node_id) t :
  (exists sh, fst (initial_shares cs t) = Ok sh) \/
  fst (initial_shares cs t) = Raise KeyError.
Proof.
  unfold initial_shares, read. simpl.
  apply rmapM_one_error. intro c.
  destruct (node_error t c) as [[a ->] | ->]; simpl; eauto.
Qed.

Lemma _dispense_debit_shares_raises (budget : nat) (B : Z)
    (cs : list node_id) t :
  exists e, _dispense_debit_shares budget B cs t = (Raise e, t) /\
            (e = KeyError \/ e = UnboundLocalError \/ e = LoopBudget).
Proof.
  unfold _dispense_debit_shares, bind.
  pose proof (initial_shares_result cs t) as H.
  pose proof (initial_shares_state cs t) as Hs.
  destruct (initial_shares cs t) as [[sh|e] t']; simpl in *; subst t'.
  - destruct budget; simpl; eauto.
  - destruct H as [[sh H]|H]; inversion H; eauto.
Qed.

Lemma _dispense_credit_shares_raises (B : Z) (cs : list node_id) t :
  exists e, _dispense_credit_shares B cs t = (Raise e, t) /\
            (e = KeyError \/ e = UnboundLocalError).
Proof.
  unfold _dispense_credit_shares, bind.
  pose proof (initial_shares_result cs t) as H.
  pose proof (initial_shares_state cs t) as Hs.
  destruct (initial_shares cs t) as [[sh|e] t']; simpl in *; subst t'.
  - eauto.
  - destruct H as [[sh H]|H]; inversion H; eauto.
Qed.

(** With exactly one child that is a node, the child takes the whole
    parental balance, and then the method raises on its [return]. *)
Lemma _dispense_parental_shares_one_child (budget : nat) (B : Z)
    (child : node_id) t :
  has_node t child = true ->
  _dispense_parental_shares budget B [child] t
  = (Raise UnboundLocalError,
     with_nodes (update_node (nodes t) child (set_balance B)) t).
Proof.
  unfold has_node, _dispense_parental_shares, bind, lift, set_node, ret,
    local, raise.
  simpl. destruct (lookup_node (nodes t) child); [reflexivity | discriminate].
Qed.

(** No call of [_dispense_parental_shares] returns, and none raises
    [RegionTreeError]. *)
Lemma _dispense_parental_shares_raises (budget : nat) (B : Z)
    (cs : list node_id) t :
  exists e, fst (_dispense_parental_shares budget B cs t) = Raise e /\
            e <> RegionTreeError.
Proof.
  unfold _dispense_parental_shares. unfold bind at 1.
  destruct (List.length cs =? 1)%nat.
  - unfold bind, lift, set_node, ret, local, raise.
    destruct (py_index cs 0) as [c|e] eqn:E.
    + destruct (lookup_node (nodes t) c); simpl; eexists; split;
        try reflexivity; discriminate.
    + unfold py_index in E. destruct (nth_error cs 0); inversion E.
      simpl. eexists; split; [reflexivity | discriminate].
  - destruct (1 <? List.length cs)%nat;
      [|simpl; eexists; split; [reflexivity | discriminate]].
    destruct (B <? 0).
    + unfold bind.
      destruct (_dispense_debit_shares_raises budget B cs t) as [e [-> H]].
      exists e. split; [reflexivity|].
      destruct H as [H|[H|H]]; subst; discriminate.
    + destruct (0 <? B);
        [|simpl; eexists; split; [reflexivity | discriminate]].
      unfold bind.
      destruct (_dispense_credit_shares_raises B cs t) as [e [-> H]].
      exists e. split; [reflexivity|].
      destruct H as [H|H]; subst; discriminate.
Qed.

End Balance.

(** C4.  The root of [Line.tree0] has the single child [(0,)].  Dispensing
    the parental balance 3 to it does write 3 into the child's balance, and
    then the method's [return children_shares] reads a name that this path
    never bound: the call ends in [UnboundLocalError] where the claim says
    it returns normally. *)
Theorem _dispense_parental_shares_single_child_raises :
  let run := _dispense_parental_shares 1 3 [[O]] (Line.tree0 (Some 10)) in
  children (Line.tree0 (Some 10)) ROOT_NODE = Ok [[O]] /\
  attr_of (snd run) balance [O] = 3 /\
  fst run = Raise UnboundLocalError.
Proof. vm_compute. repeat split. Qed.

(** C5.  The two leaves of [Line.two_leaves], cleared, have no walkers and
    nothing to merge; they cannot pay a parental debt of 1.  The dispenser
    raises [UnboundLocalError] at the first test of [remaining_balance < 0],
    where the claim says [RegionTreeError]. *)
Theorem _dispense_debit_shares_unpayable :
  let t := clear_walkers (Line.two_leaves (Some 10)) in
  children t ROOT_NODE = Ok [[O]; [1%nat]] /\
  attr_of t n_mergeable [O] + attr_of t n_mergeable [1%nat] = 0 /\
  (forall budget,
     fst (_dispense_debit_shares (S budget) (-1) [[O]; [1%nat]] t)
     = Raise UnboundLocalError).
Proof. vm_compute. repeat split. Qed.

(** ** The random keeper *)

Section Seeding.

Context {Image NpRandomState RandomState : Type}.
Variable np_random_choice :
  NpRandomState -> list nat -> list Q -> nat * NpRandomState.
Variable random_seed : Z -> RandomState.



(** In the source as it stands the draw is not reached: the merge decision
    of a leaf stops at [solve_merge_groupings]. *)
Lemma _decide_merge_leaf_raises (leaf : node_id)
    (merge_groups : list (list nat)) (g : NpRandomState)
    (t : @RegionTree Image) :
  exists e, _decide_merge_leaf np_random_choice leaf merge_groups g t
            = Raise e.
Proof.
  unfold _decide_merge_leaf, solve_merge_groupings.
  destruct (node t leaf); simpl; [|eauto].
  destruct (rmapM _ _); simpl; [|eauto].
  destruct (String.eqb _ _); simpl; eauto.
Qed.

End Seeding.

(** Two constructions with the same seed 7, in processes whose NumPy
    generators stand at different states, keep different walkers of the
    merge group (3, 5). *)
Example same_seed_different_keepers :
  let init := WExploreResampler__init__ Line.random_seed (Some 7) in
  let draw gens :=
    fst (choose_keep_walker Line.np_random_choice (init gens)
           [3%nat; 5%nat] [1#2; 1#2]) in
  draw (mkGenerators 0 0%nat) = 3%nat /\ draw (mkGenerators 0 1%nat) = 5%nat.
Proof. split; reflexivity. Qed.

(** ** Insertion sort of positions *)

Section Argsort.

Variable ws : list Q.

Let val (i : nat) : Q := nth i ws 0%Q.

Let le_pos (i j : nat) : Prop := (val i <= val j)%Q.

Lemma insert_pos_In (i j : nat) (l : list nat) :
  In j (insert_pos ws i l) <-> j = i \/ In j l.
Proof.
  induction l as [|k l IH]; simpl.
  - intuition.
  - destruct (Qlt_bool _ _); simpl; [intuition|].
    rewrite IH. intuition.
Qed.

Lemma insert_pos_sorted (i : nat) (l : list nat) :
  StronglySorted le_pos l -> StronglySorted le_pos (insert_pos ws i l).
Proof.
  induction l as [|k l IH]; simpl; intro Hs.
  - constructor; constructor.
  - inversion Hs as [|? ? Hs' Hall]; subst.
    destruct (Qlt_bool (nth i ws 0%Q) (nth k ws 0%Q)) eqn:E.
    + apply Qlt_bool_iff in E. constructor; [exact Hs|].
      constructor; [apply Qlt_le_weak; exact E|].
      eapply Forall_impl; [|exact Hall].
      intros a Ha. unfold le_pos, val in *.
      eapply Qle_trans; [apply Qlt_le_weak; exact E | exact Ha].
    + assert (le_pos k i) as Hki.
      { unfold le_pos, val. apply Qnot_lt_le. intro Hlt.
        apply Qlt_bool_iff in Hlt. congruence. }
      constructor; [apply IH; exact Hs'|].
      apply Forall_forall. intros a Ha. apply insert_pos_In in Ha.
      destruct Ha as [-> | Ha]; [exact Hki|].
      rewrite Forall_forall in Hall. apply Hall. exact Ha.
Qed.

Lemma fold_insert_pos (l acc : list nat) :
  StronglySorted le_pos acc ->
  StronglySorted le_pos (fold_left (fun acc i => insert_pos ws i acc) l acc)
  /\ forall j, In j (fold_left (fun acc i => insert_pos ws i acc) l acc)
               <-> In j l \/ In j acc.
Proof.
  revert acc. induction l as [|i l IH]; simpl; intros acc Hs.
  - split; [exact Hs | intuition].
  - destruct (IH (insert_pos ws i acc) (insert_pos_sorted i acc Hs))
      as [H1 H2].
    split; [exact H1|]. intro j. rewrite H2, insert_pos_In. intuition.
Qed.

Lemma sorted_last_max (l : list nat) (x : nat) :
  StronglySorted le_pos l -> py_last l = Ok x ->
  In x l /\ forall y, In y l -> le_pos y x.
Proof.
  unfold py_last. intros Hs Hl.
  destruct (rev l) as [|z r] eqn:E; inversion Hl; subst z.
  assert (l = rev r ++ [x]) as ->.
  { rewrite <- (rev_involutive l), E. reflexivity. }
  split; [apply in_or_app; right; left; reflexivity|].
  intros y Hy. apply in_app_or in Hy. destruct Hy as [Hy | [<- | []]].
  - clear E Hl. induction (rev r) as [|a l' IH]; [contradiction|].
    simpl in Hs. inversion Hs as [|? ? Hs' Hall]; subst.
    destruct Hy as [-> | Hy]; [|apply IH; assumption].
    rewrite Forall_forall in Hall. apply Hall.
    apply in_or_app; right; left; reflexivity.
  - apply Qle_refl.
Qed.

(** The last position of [np.argsort] is a position of the maximum. *)
Lemma np_argsort_last :
  (0 < List.length ws)%nat ->
  exists pos, py_last (np_argsort ws) = Ok pos /\
              (pos < List.length ws)%nat /\
              forall j, (j < List.length ws)%nat ->
                        (nth j ws 0 <= nth pos ws 0)%Q.
Proof.
  intro Hn. unfold np_argsort.
  destruct (fold_insert_pos (seq 0 (List.length ws)) [])
    as [Hs Hin]; [constructor|].
  set (l := fold_left _ _ _) in *.
  assert (In O l) as H0 by (apply Hin; left; apply in_seq; lia).
  destruct (py_last l) as [pos|e] eqn:E.
  - exists pos. split; [reflexivity|].
    destruct (sorted_last_max l pos Hs E) as [Hp Hmax].
    split.
    + apply Hin in Hp. destruct Hp as [Hp | []]. apply in_seq in Hp. lia.
    + intros j Hj. apply (Hmax j). apply Hin. left. apply in_seq. lia.
  - exfalso. unfold py_last in E.
    destruct (rev l) eqn:E'; [|discriminate].
    apply (f_equal (@rev nat)) in E'. rewrite rev_involutive in E'.
    rewrite E' in H0. contradiction.
Qed.

End Argsort.

(** ** Cloneable count of one walker *)



(** The loop stops within its budget, at the first number of splits that
    fails the test. *)
Lemma n_splits_loop_stops (w pmin : Q) (m : Z) (budget : nat) (n : Z) :
  (Z.to_nat (m + 1 - n) < budget)%nat ->
  exists n',
    n_splits_loop budget w pmin (Some m) n = Ok n' /\
    n <= n' /\
    (forall k, n <= k < n' -> (pmin <= w / inject_Z k)%Q /\ k <= m) /\
    ~ ((pmin <= w / inject_Z n')%Q /\ n' <= m).
Proof.
  revert n. induction budget as [|budget IH]; intros n Hb; [lia|].
  simpl.
  destruct (Qle_bool pmin (w / inject_Z n)) eqn:E1.
  - destruct (n <=? m) eqn:E2.
    + apply Z.leb_le in E2.
      destruct (IH (n + 1)) as [n' [Hr [Hle [Hall Hstop]]]]; [lia|].
      exists n'. split; [exact Hr|]. split; [lia|]. split; [|exact Hstop].
      intros k Hk. destruct (Z.eq_dec k n) as [-> | Hne].
      * split; [apply Qle_bool_iff; exact E1 | exact E2].
      * apply Hall. lia.
    + apply Z.leb_gt in E2. exists n. split; [reflexivity|].
      split; [lia|]. split; [intros k Hk; lia|]. intros [_ H]. lia.
  - exists n. split; [reflexivity|]. split; [lia|].
    split; [intros k Hk; lia|]. intros [H _].
    apply Qle_bool_iff in H. congruence.
Qed.



Example max_clones_three_walkers :
  calc_max_num_clones [4#10; 5#100; 1#10] (1#10) (Some 10) = Ok [3; 0; 0].
Proof. reflexivity. Qed.

(** ** The clone-assignment loop *)

Lemma combine_nth_error {A B} (a : list A) (b : list B) (i : nat) x y :
  nth_error (combine a b) i = Some (x, y)
  <-> nth_error a i = Some x /\ nth_error b i = Some y.
Proof.
  revert b i. induction a as [|u a IH]; intros b i.
  - simpl. destruct i; split; try discriminate; intros [H _]; discriminate.
  - destruct b as [|v b]; simpl.
    + destruct i; split; try discriminate; intros [_ H]; discriminate.
    + destruct i as [|i]; simpl; [|apply IH].
      split; [intro H; inversion H; auto | intros [H1 H2]; congruence].
Qed.

Lemma list_set_nth_error {A} (l : list A) (i j : nat) (v : A) :
  nth_error (list_set l i v) j
  = if (i =? j)%nat then option_map (fun _ => v) (nth_error l j)
    else nth_error l j.
Proof.
  revert i j. induction l as [|x l IH]; intros i j.
  - simpl. destruct j; destruct (i =? _)%nat; reflexivity.
  - destruct i as [|i], j as [|j]; simpl; try reflexivity. apply IH.
Qed.

Section CloneStep.

Variable pmin : Q.
Variable idxs : list nat.
Variable ws : list Q.
Variable clones : list Z.

Hypothesis pmin_pos : (0 < pmin)%Q.
Hypothesis in_range :
  forall pos idx w,
    nth_error idxs pos = Some idx -> nth_error ws pos = Some w ->
    (idx < List.length clones)%nat.

Lemma clone_child_weights_ok :
  exists cws,
    clone_child_weights pmin clones idxs ws = Ok cws /\
    List.length cws = List.length (combine idxs ws) /\
    forall pos cw,
      nth_error cws pos = Some cw <->
      exists idx w c, candidate idxs ws clones pos idx w c /\
                      cw = marked pmin w c.
Proof.
  set (g := fun p : nat * Q => marked pmin (snd p) (nth (fst p) clones 0)).
  exists (map g (combine idxs ws)).
  split; [|split; [apply length_map|]].
  - unfold clone_child_weights. apply rmapM_ok_map.
    intros [idx w] Hin. apply In_nth_error in Hin. destruct Hin as [pos Hpos].
    apply combine_nth_error in Hpos. destruct Hpos as [H1 H2].
    unfold clone_child_weight.
    destruct (py_index_lt clones idx (in_range _ _ _ H1 H2)) as [c Hc].
    rewrite Hc. simpl. apply py_index_ok in Hc.
    unfold g, marked, current_child_weight. simpl.
    rewrite (nth_error_nth _ _ 0 Hc). reflexivity.
  - intros pos cw. rewrite nth_error_map. split.
    + destruct (nth_error (combine idxs ws) pos) as [[idx w]|] eqn:E;
        [|discriminate].
      simpl. intro H. injection H as <-. apply combine_nth_error in E.
      destruct E as [H1 H2].
      destruct (py_index_lt clones idx (in_range _ _ _ H1 H2)) as [c Hc].
      apply py_index_ok in Hc. exists idx, w, c.
      split; [repeat split; assumption|].
      unfold g. simpl. rewrite (nth_error_nth _ _ 0 Hc). reflexivity.
    + intros [idx [w [c [[H1 [H2 H3]] ->]]]].
      assert (nth_error (combine idxs ws) pos = Some (idx, w)) as ->
        by (apply combine_nth_error; auto).
      simpl. unfold g. simpl. rewrite (nth_error_nth _ _ 0 H3). reflexivity.
Qed.


Lemma marked_positive (w : Q) (c : Z) :
  (0 < marked pmin w c)%Q ->
  marked pmin w c = current_child_weight w c /\
  (pmin <= current_child_weight w c)%Q.
Proof.
  unfold marked.
  destruct (Qlt_bool (current_child_weight w c) pmin) eqn:E; intro H.
  - exfalso. revert H. apply Qle_not_lt. discriminate.
  - split; [reflexivity|]. apply Qnot_lt_le. intro Hlt.
    apply Qlt_bool_iff in Hlt. congruence.
Qed.

End CloneStep.




(** ** Assignment *)

Lemma argmin_from_first_min (l pre : list Q) (bi : nat) (b : Q) :
  nth_error pre bi = Some b ->
  (forall j dj, nth_error pre j = Some dj -> (b <= dj)%Q) ->
  (forall j dj, (j < bi)%nat -> nth_error pre j = Some dj -> (b < dj)%Q) ->
  exists d, first_min (pre ++ l) (argmin_from bi b (List.length pre) l) d.
Proof.
  revert pre bi b. induction l as [|x l IH]; intros pre bi b Hb Hmin Hfirst.
  - simpl. rewrite app_nil_r. exists b. repeat split; assumption.
  - simpl.
    assert (bi < List.length pre)%nat as Hbi
      by (apply nth_error_Some; congruence).
    replace (pre ++ x :: l) with ((pre ++ [x]) ++ l)
      by (rewrite <- app_assoc; reflexivity).
    replace (S (List.length pre)) with (List.length (pre ++ [x]))
      by (rewrite length_app; simpl; lia).
    assert (forall j dj, nth_error (pre ++ [x]) j = Some dj ->
              nth_error pre j = Some dj /\ (j < List.length pre)%nat
              \/ j = List.length pre /\ dj = x) as Hsplit.
    { intros j dj Hj. destruct (Nat.lt_ge_cases j (List.length pre)) as [H|H].
      - left. rewrite nth_error_app1 in Hj by exact H. auto.
      - right. rewrite nth_error_app2 in Hj by exact H.
        destruct (j - List.length pre)%nat as [|k] eqn:E; simpl in Hj.
        + split; [lia | congruence].
        + destruct k; discriminate. }
    destruct (Qlt_bool x b) eqn:E.
    + apply Qlt_bool_iff in E. apply IH.
      * rewrite nth_error_app2 by lia. rewrite Nat.sub_diag. reflexivity.
      * intros j dj Hj. destruct (Hsplit j dj Hj) as [[H _] | [_ ->]].
        -- apply Qlt_le_weak. eapply Qlt_le_trans; [exact E | eauto].
        -- apply Qle_refl.
      * intros j dj Hlt Hj. destruct (Hsplit j dj Hj) as [[H _] | [H _]].
        -- eapply Qlt_le_trans; [exact E | eauto].
        -- lia.
    + assert (b <= x)%Q as Hbx.
      { apply Qnot_lt_le. intro H. apply Qlt_bool_iff in H. congruence. }
      apply IH.
      * rewrite nth_error_app1 by exact Hbi. exact Hb.
      * intros j dj Hj. destruct (Hsplit j dj Hj) as [[H _] | [_ ->]];
          [eauto | exact Hbx].
      * intros j dj Hlt Hj. destruct (Hsplit j dj Hj) as [[H _] | [H _]];
          [eauto | lia].
Qed.

(** [np.argmin] returns the first position of the minimum. *)
Lemma np_argmin_first_min (ds : list Q) :
  ds <> [] -> exists i d, np_argmin ds = Ok i /\ first_min ds i d.
Proof.
  destruct ds as [|x l]; [congruence|]. intros _.
  destruct (argmin_from_first_min l [x] O x) as [d Hd].
  - reflexivity.
  - intros [|[|j]] dj Hj; simpl in Hj; inversion Hj. apply Qle_refl.
  - intros j dj Hj. lia.
  - exists (argmin_from 0 x 1 l), d. split; [reflexivity | exact Hd].
Qed.

Lemma insert_id_In (x y : node_id) (l : list node_id) :
  In y (insert_id x l) <-> y = x \/ In y l.
Proof.
  induction l as [|z l IH]; simpl; [intuition|].
  destruct (node_id_ltb x z); simpl; [intuition|].
  rewrite IH. intuition.
Qed.

Lemma sort_ids_In (l : list node_id) (y : node_id) :
  In y (sort_ids l) <-> In y l.
Proof.
  unfold sort_ids.
  assert (forall acc, In y (fold_left (fun acc x => insert_id x acc) l acc)
                      <-> In y l \/ In y acc) as H.
  { induction l as [|x l IH]; intro acc; simpl; [intuition|].
    rewrite IH, insert_id_In. intuition. }
  rewrite H. simpl. intuition.
Qed.

Section Assign.

Context {State Image : Type}.
Variable image : State -> Image.
Variable image_distance : Image -> Image -> result Q.
Implicit Type t : @RegionTree Image.

Lemma except_ValueError_id (r : result Q) : except_ValueError r = r.
Proof. destruct r as [d|[]]; reflexivity. Qed.

Lemma assign_level_dists_sound t st cs cache ds cache' :
  cache_ok image_distance t (image st) cache ->
  assign_level_dists image image_distance t st cs cache = Ok (ds, cache') ->
  Forall2 (child_dist image_distance t (image st)) cs ds /\
  cache_ok image_distance t (image st) cache'.
Proof.
  revert cache ds cache'.
  induction cs as [|c cs IH]; intros cache ds cache' Hc H; simpl in H.
  - inversion H; subst. split; [constructor | exact Hc].
  - apply rbind_ok in H. destruct H as [a [Ha H]].
    apply rbind_ok in H. destruct H as [img [Himg H]].
    apply rbind_ok in H. destruct H as [[dist cache1] [Hd H]].
    apply rbind_ok in H. destruct H as [[ds' cache2] [Hrest H]].
    inversion H; subst. apply py_index_ok in Himg.
    unfold node, py_key in Ha.
    destruct (lookup_node (nodes t) c) as [a'|] eqn:El; inversion Ha; subst a'.
    assert (image_distance (image st) img = Ok dist /\
            cache_ok image_distance t (image st) cache1) as [Hdist Hc1].
    { destruct (cache_get cache (image_idx a)) as [d0|] eqn:Eg.
      - inversion Hd; subst. split; [eapply Hc; eauto | exact Hc].
      - rewrite except_ValueError_id in Hd.
        apply rbind_ok in Hd. destruct Hd as [d0 [Hd0 Hd]].
        inversion Hd; subst. split; [exact Hd0|].
        intros k d img' Hk Hi. unfold cache_set in Hk. simpl in Hk.
        destruct (k =? image_idx a)%nat eqn:Ek.
        + apply Nat.eqb_eq in Ek. subst k. inversion Hk; subst.
          congruence.
        + eapply Hc; eauto. }
    destruct (IH _ _ _ Hc1 Hrest) as [Hf Hc2].
    split; [|exact Hc2]. constructor; [|exact Hf].
    exists a, img. auto.
Qed.

Lemma assign_level_dists_length t st cs cache ds cache' :
  assign_level_dists image image_distance t st cs cache = Ok (ds, cache') ->
  List.length ds = List.length cs.
Proof.
  revert cache ds cache'.
  induction cs as [|c cs IH]; intros cache ds cache' H; simpl in H.
  - inversion H. reflexivity.
  - apply rbind_ok in H. destruct H as [a [_ H]].
    apply rbind_ok in H. destruct H as [img [_ H]].
    apply rbind_ok in H. destruct H as [[dist cache1] [_ H]].
    apply rbind_ok in H. destruct H as [[ds' cache2] [Hrest H]].
    inversion H; subst. simpl. f_equal. eapply IH. exact Hrest.
Qed.

Lemma assign_level_dists_total t st cs cache :
  (forall c, In c cs -> exists a img d,
     lookup_node (nodes t) c = Some a /\
     nth_error (_images t) (image_idx a) = Some img /\
     image_distance (image st) img = Ok d) ->
  exists ds cache',
    assign_level_dists image image_distance t st cs cache = Ok (ds, cache').
Proof.
  revert cache. induction cs as [|c cs IH]; intros cache H; simpl.
  - eauto.
  - destruct (H c (or_introl eq_refl)) as [a [img [d [Ha [Hi Hd]]]]].
    unfold node. rewrite Ha. simpl.
    apply py_index_ok in Hi. rewrite Hi. simpl.
    assert (exists dist cache1,
              match cache_get cache (image_idx a) with
              | Some dist => Ok (dist, cache)
              | None =>
                  dist <- except_ValueError
                            (image_distance (image st) img) ;;
                  Ok (dist, cache_set cache (image_idx a) dist)
              end = Ok (dist, cache1)) as [dist [cache1 ->]].
    { destruct (cache_get cache (image_idx a)); [eauto|].
      rewrite except_ValueError_id, Hd. simpl. eauto. }
    simpl.
    destruct (IH cache1) as [ds [cache' ->]];
      [intros c' Hc'; apply H; right; exact Hc'|].
    simpl. eauto.
Qed.

(** Whatever [assign] returns is a nearest-child descent. *)
Lemma assign_levels_sound t st levels nd cache assignment dists :
  cache_ok image_distance t (image st) cache ->
  assign_levels image image_distance t st levels nd cache
  = Ok (assignment, dists) ->
  nearest_descent image_distance t (image st) nd levels assignment dists.
Proof.
  revert nd cache assignment dists.
  induction levels as [|levels IH]; intros nd cache assignment dists Hc H;
    simpl in H.
  - inversion H. constructor.
  - apply rbind_ok in H. destruct H as [cs [Hcs H]].
    apply rbind_ok in H. destruct H as [[ds cache1] [Hds H]].
    apply rbind_ok in H. destruct H as [i [Hi H]].
    apply rbind_ok in H. destruct H as [d [Hd H]].
    apply rbind_ok in H. destruct H as [c [Hch H]].
    apply rbind_ok in H. destruct H as [[a dl] [Hrest H]].
    inversion H; subst.
    destruct (assign_level_dists_sound _ _ _ _ _ _ Hc Hds) as [Hf Hc1].
    apply py_index_ok in Hd, Hch.
    assert (ds <> []) as Hne by (intro; subst; destruct i; discriminate).
    destruct (np_argmin_first_min ds Hne) as [i' [d' [Hi' Hmin]]].
    rewrite Hi in Hi'. inversion Hi'; subst i'.
    assert (d' = d) as -> by (destruct Hmin as [Hn _]; congruence).
    eapply nd_step; eauto.
Qed.

Hypothesis metric_total : forall x y, exists d, image_distance x y = Ok d.

Lemma descendable_facts t :
  descendableb t = true ->
  has_node t ROOT_NODE = true /\
  (forall u v, In (u, v) (edges t) ->
     List.length v = S (List.length u) /\
     exists a, lookup_node (nodes t) v = Some a /\
               (image_idx a < List.length (_images t))%nat) /\
  (forall n, has_node t n = true -> (List.length n < _n_levels t)%nat ->
             successors t n <> []).
Proof.
  unfold descendableb. rewrite !andb_true_iff, !forallb_forall.
  intros [[Hroot Hedges] Hnodes]. split; [exact Hroot|]. split.
  - intros u v Hin. specialize (Hedges _ Hin). simpl in Hedges.
    apply andb_true_iff in Hedges. destruct Hedges as [H1 H2].
    apply Nat.eqb_eq in H1. split; [exact H1|].
    destruct (lookup_node (nodes t) v) as [a|]; [|discriminate].
    exists a. split; [reflexivity | apply Nat.ltb_lt; exact H2].
  - intros n Hn Hlen. unfold has_node in Hn.
    destruct (lookup_node (nodes t) n) as [a|] eqn:E; [|discriminate].
    assert (In n (node_ids t)) as Hin
      by (apply lookup_node_in; eauto).
    specialize (Hnodes _ Hin). apply orb_true_iff in Hnodes.
    destruct Hnodes as [H|H]; [apply Nat.leb_le in H; lia|].
    destruct (successors t n); [discriminate | discriminate].
Qed.

Lemma successors_edge t u v : In v (successors t u) <-> In (u, v) (edges t).
Proof.
  unfold successors. rewrite in_map_iff. split.
  - intros [[u' v'] [<- H]]. apply filter_In in H. destruct H as [H E].
    simpl in *. apply node_id_eqb_eq in E. subst. exact H.
  - intro H. exists (u, v). split; [reflexivity|].
    apply filter_In. split; [exact H | apply node_id_eqb_refl].
Qed.

(** On a descendable tree the descent goes through. *)
Lemma assign_levels_total t st levels nd cache :
  descendableb t = true ->
  has_node t nd = true ->
  (List.length nd + levels = _n_levels t)%nat ->
  exists assignment dists,
    assign_levels image image_distance t st levels nd cache
    = Ok (assignment, dists).
Proof.
  intro Hwf. destruct (descendable_facts t Hwf) as [_ [Hedges Hsucc]].
  revert nd cache. induction levels as [|levels IH]; intros nd cache Hn Hlen;
    simpl; [eauto|].
  unfold children. rewrite Hn. simpl.
  set (cs := sort_ids (successors t nd)).
  assert (forall c, In c cs -> In (nd, c) (edges t)) as Hcs
    by (intros c Hc; apply successors_edge, sort_ids_In; exact Hc).
  destruct (assign_level_dists_total t st cs cache) as [ds [cache' Hds]].
  { intros c Hc. destruct (Hedges _ _ (Hcs c Hc)) as [_ [a [Ha Hi]]].
    destruct (nth_error (_images t) (image_idx a)) as [img|] eqn:Ei;
      [|apply nth_error_None in Ei; lia].
    destruct (metric_total (image st) img) as [d Hd].
    exists a, img, d. auto. }
  rewrite Hds. simpl.
  pose proof (assign_level_dists_length _ _ _ _ _ _ Hds) as Hlen2.
  assert (successors t nd <> []) as Hne by (apply Hsucc; [exact Hn | lia]).
  assert (cs <> []) as Hne2.
  { intro E2. apply Hne.
    destruct (successors t nd) as [|c0 l0] eqn:E; [reflexivity|]. exfalso.
    assert (In c0 (sort_ids (c0 :: l0))) as Hin
      by (apply sort_ids_In; left; reflexivity).
    unfold cs in E2. try rewrite E in E2. rewrite E2 in Hin. contradiction. }
  assert (ds <> []) as Hne3
    by (intro E; rewrite E in Hlen2; destruct cs; [congruence | discriminate]).
  destruct (np_argmin_first_min ds Hne3) as [i [d [Hi [Hd _]]]].
  rewrite Hi. simpl.
  apply py_index_ok in Hd. rewrite Hd. simpl.
  assert (i < List.length cs)%nat as Hlt.
  { rewrite <- Hlen2. apply py_index_ok in Hd.
    apply nth_error_Some. congruence. }
  destruct (py_index_lt cs i Hlt) as [c Hc]. rewrite Hc. simpl.
  apply py_index_ok, nth_error_In in Hc.
  destruct (Hedges _ _ (Hcs c Hc)) as [Hl [a [Ha _]]].
  destruct (IH c cache') as [assignment [dists ->]].
  - unfold has_node. rewrite Ha. reflexivity.
  - lia.
  - simpl. eauto.
Qed.

End Assign.

(** C8.  On a tree in which every node above leaf depth has children, all
    with an image in the table, and with a metric that answers, [assign]
    returns, and what it returns is the top-down descent of section 4.1:
    at each level the position of the first child at minimum distance
    among the sorted children, and that minimum distance. *)
Theorem assign_is_nearest_descent {State Image : Type}
    (image : State -> Image) (image_distance : Image -> Image -> result Q)
    (t : @RegionTree Image) (st : State) :
  descendableb t = true ->
  (forall x y, exists d, image_distance x y = Ok d) ->
  exists assignment dists,
    assign image image_distance t st = Ok (assignment, dists) /\
    nearest_descent image_distance t (image st) ROOT_NODE (_n_levels t)
      assignment dists.
Proof.
  intros Hwf Hm.
  destruct (descendable_facts t Hwf) as [Hroot _].
  destruct (assign_levels_total image image_distance Hm t st (_n_levels t)
              ROOT_NODE [] Hwf Hroot eq_refl) as [a [d H]].
  exists a, d. split; [exact H|].
  eapply assign_levels_sound; [|exact H].
  intros k d0 img Hk. discriminate.
Qed.

Lemma assign_is_nearest_descent_witness :
  exists assignment dists,
    assign Line.image Line.image_distance Line.two_levels (26#10)
    = Ok (assignment, dists) /\
    nearest_descent Line.image_distance Line.two_levels
      (Line.image (26#10)) ROOT_NODE (_n_levels Line.two_levels)
      assignment dists.
Proof.
  apply assign_is_nearest_descent.
  - reflexivity.
  - intros x y. eexists. reflexivity.
Defined.

(** The walker at 2.6 goes to the first top region (distance 2.6 against
    7.4) and there to the second sub-region (distance 0.4 against 2.6).  A
    walker at 5 is at the same distance from both top regions and goes to
    the one with the lower index. *)
Example assign_two_levels :
  assign Line.image Line.image_distance Line.two_levels (26#10)
  = Ok ([O; 1%nat], [26#10; 4#10]).
Proof. reflexivity. Qed.

Example assign_tie_lowest_index :
  assign Line.image Line.image_distance Line.two_levels 5%Q
  = Ok ([O; 1%nat], [5%Q; 2%Q]).
Proof. reflexivity. Qed.

(** ** Accounting of the leaves *)

Section Accounting.

Context {Image : Type}.
Implicit Type t : @RegionTree Image.

Lemma lookup_erase_counts t n :
  lookup_node (nodes (erase_counts t)) n
  = option_map erase_counts_attrs (lookup_node (nodes t) n).
Proof.
  unfold erase_counts. simpl.
  induction (nodes t) as [|[k a] l IH]; simpl; [reflexivity|].
  destruct (node_id_eqb n k); [reflexivity | exact IH].
Qed.

Lemma erase_counts_lookup t t' n :
  erase_counts t' = erase_counts t ->
  option_map erase_counts_attrs (lookup_node (nodes t') n)
  = option_map erase_counts_attrs (lookup_node (nodes t) n).
Proof. intro H. rewrite <- !lookup_erase_counts, H. reflexivity. Qed.

Lemma erase_counts_has_node t t' n :
  erase_counts t' = erase_counts t -> has_node t' n = has_node t n.
Proof.
  intro H. apply (erase_counts_lookup _ _ n) in H. unfold has_node.
  destruct (lookup_node (nodes t') n), (lookup_node (nodes t) n);
    simpl in H; congruence.
Qed.

Lemma erase_counts_node_ids t : node_ids (erase_counts t) = node_ids t.
Proof.
  unfold node_ids, erase_counts. simpl. rewrite map_map.
  apply map_ext. intros [k a]. reflexivity.
Qed.

Lemma erase_counts_fields t t' :
  erase_counts t' = erase_counts t ->
  _walker_weights t' = _walker_weights t /\
  _pmin t' = _pmin t /\
  _max_num_walkers t' = _max_num_walkers t /\
  _merge_method t' = _merge_method t /\
  _n_levels t' = _n_levels t /\
  node_ids t' = node_ids t.
Proof.
  intro H.
  pose proof (f_equal (@_walker_weights Image) H) as H1.
  pose proof (f_equal (@_pmin Image) H) as H2.
  pose proof (f_equal (@_max_num_walkers Image) H) as H3.
  pose proof (f_equal (@_merge_method Image) H) as H4.
  pose proof (f_equal (@_n_levels Image) H) as H5.
  pose proof (f_equal (@node_ids Image) H) as H6.
  rewrite !erase_counts_node_ids in H6.
  repeat split; assumption.
Qed.

Lemma erase_counts_attr t t' n a' :
  erase_counts t' = erase_counts t ->
  lookup_node (nodes t') n = Some a' ->
  exists a, lookup_node (nodes t) n = Some a /\
            n_walkers a = n_walkers a' /\ walker_idxs a = walker_idxs a'.
Proof.
  intros H Ha. apply (erase_counts_lookup _ _ n) in H. rewrite Ha in H.
  destruct (lookup_node (nodes t) n) as [a|]; [|discriminate].
  exists a. split; [reflexivity|]. simpl in H. inversion H. auto.
Qed.

Lemma erase_counts_set_node t n (f : NodeAttrs -> NodeAttrs) :
  (forall a, erase_counts_attrs (f a) = erase_counts_attrs a) ->
  erase_counts (with_nodes (update_node (nodes t) n f) t) = erase_counts t.
Proof.
  intro Hf.
  assert (map (fun '(k, a) => (k, erase_counts_attrs a))
            (update_node (nodes t) n f)
          = map (fun '(k, a) => (k, erase_counts_attrs a)) (nodes t)) as E.
  { induction (nodes t) as [|[k a] l IH]; simpl; [reflexivity|].
    destruct (node_id_eqb n k); simpl; [rewrite Hf; reflexivity|].
    f_equal. exact IH. }
  unfold erase_counts, with_nodes. simpl. rewrite E. reflexivity.
Qed.

Lemma propagate_cons get set n level levels t :
  propagate get set n (level :: levels) t =
  match lookup_node (nodes t) (firstn level n) with
  | None => (Raise KeyError, t)
  | Some b =>
      match lookup_node (nodes t) n with
      | None => (Raise KeyError, t)
      | Some l =>
          propagate get set n levels
            (with_nodes
               (update_node (nodes t) (firstn level n)
                  (set (get b + get l))) t)
      end
  end.
Proof.
  unfold propagate. simpl. unfold bind, read, node, py_key, set_node.
  destruct (lookup_node (nodes t) (firstn level n)) as [b|] eqn:Eb;
    [|reflexivity].
  destruct (lookup_node (nodes t) n) as [l|]; [|reflexivity].
  try rewrite Eb. reflexivity.
Qed.

Lemma propagate_frame get set n levels t :
  (forall v a, erase_counts_attrs (set v a) = erase_counts_attrs a) ->
  erase_counts (snd (propagate get set n levels t)) = erase_counts t /\
  forall n', (forall level, In level levels -> firstn level n <> n') ->
             lookup_node (nodes (snd (propagate get set n levels t))) n'
             = lookup_node (nodes t) n'.
Proof.
  intro Hset. revert t. induction levels as [|level levels IH]; intro t.
  - simpl. auto.
  - rewrite propagate_cons.
    destruct (lookup_node (nodes t) (firstn level n)) as [b|]; [|simpl; auto].
    destruct (lookup_node (nodes t) n) as [l|]; [|simpl; auto].
    match goal with |- context [with_nodes ?l t] =>
      set (t1 := with_nodes l t) end.
    destruct (IH t1) as [He Hl].
    split.
    + rewrite He. apply erase_counts_set_node. intro a. apply Hset.
    + intros n' Hn'.
      rewrite Hl by (intros lv Hlv; apply Hn'; right; exact Hlv).
      unfold t1. simpl. apply lookup_update_other.
      intro E. apply (Hn' level (or_introl eq_refl)). congruence.
Qed.

Lemma propagate_total get set n levels t :
  (forall v a, erase_counts_attrs (set v a) = erase_counts_attrs a) ->
  has_node t n = true ->
  (forall level, In level levels -> has_node t (firstn level n) = true) ->
  fst (propagate get set n levels t) = Ok tt.
Proof.
  intro Hset. revert t. induction levels as [|level levels IH];
    intros t Hn Hp; [reflexivity|].
  rewrite propagate_cons.
  pose proof (Hp level (or_introl eq_refl)) as Hb. unfold has_node in Hb, Hn.
  destruct (lookup_node (nodes t) (firstn level n)) as [b|] eqn:Eb;
    [|discriminate].
  destruct (lookup_node (nodes t) n) as [l|] eqn:El; [|discriminate].
  match goal with |- context [with_nodes ?l t] =>
    set (t1 := with_nodes l t) end.
  assert (erase_counts t1 = erase_counts t) as He
    by (apply erase_counts_set_node; intro a; apply Hset).
  apply IH.
  - rewrite (erase_counts_has_node _ _ _ He). unfold has_node.
    rewrite El. reflexivity.
  - intros lv Hlv. rewrite (erase_counts_has_node _ _ _ He).
    apply Hp. right. exact Hlv.
Qed.

(** [account_leaf], with its reads resolved. *)
Lemma account_leaf_unfold n t :
  account_leaf n t =
  match lookup_node (nodes t) n with
  | None => (Raise KeyError, t)
  | Some a =>
      match rmapM (py_index (_walker_weights t)) (walker_idxs a) with
      | Raise e => (Raise e, t)
      | Ok lw =>
          if 1 <? n_walkers a then
            (Raise (if String.eqb (_merge_method t) "single"
                    then NameError else ValueError), t)
          else if 0 <? n_walkers a then
            match _calc_max_num_clones t lw with
            | Raise e => (Raise e, t)
            | Ok cl =>
                propagate n_cloneable set_n_cloneable n (branch_levels t)
                  (with_nodes
                     (update_node (nodes t) n (set_n_cloneable (Zsum cl))) t)
            end
          else (Ok tt, t)
      end
  end.
Proof.
  unfold account_leaf, bind, read, node, py_key, ret.
  destruct (lookup_node (nodes t) n) as [a|] eqn:Ea; [|reflexivity].
  destruct (rmapM _ (walker_idxs a)) as [lw|e]; [|reflexivity].
  rewrite ?Ea.
  destruct (1 <? n_walkers a).
  - unfold _calc_mergeable_walkers.
    destruct (String.eqb _ _); reflexivity.
  - rewrite ?Ea. destruct (0 <? n_walkers a); [|reflexivity].
    destruct (_calc_max_num_clones t lw) as [cl|e]; [|reflexivity].
    unfold set_node, get. rewrite ?Ea. reflexivity.
Qed.

End Accounting.

Section AccountLeaf.

Context {Image : Type}.
Implicit Type t : @RegionTree Image.

Lemma branch_levels_lt t level :
  In level (branch_levels t) -> (level < _n_levels t)%nat.
Proof.
  unfold branch_levels. rewrite <- in_rev, in_seq. lia.
Qed.

Lemma branch_prefix_shorter t (n n' : node_id) level :
  In level (branch_levels t) ->
  (_n_levels t <= List.length n')%nat -> firstn level n <> n'.
Proof.
  intros Hl Hn E. apply branch_levels_lt in Hl.
  pose proof (firstn_le_length level n) as H.
  assert (List.length (firstn level n) <= level)%nat
    by (rewrite length_firstn; lia).
  rewrite E in *. lia.
Qed.

(** Whatever [account_leaf] does, it writes counts only, and only on the
    leaf and on nodes above leaf depth. *)
Lemma account_leaf_frame n t :
  erase_counts (snd (account_leaf n t)) = erase_counts t /\
  forall n', (_n_levels t <= List.length n')%nat -> n' <> n ->
             lookup_node (nodes (snd (account_leaf n t))) n'
             = lookup_node (nodes t) n'.
Proof.
  rewrite account_leaf_unfold.
  destruct (lookup_node (nodes t) n) as [a|]; [|simpl; auto].
  destruct (rmapM _ _) as [lw|e]; [|simpl; auto].
  destruct (1 <? n_walkers a); [simpl; auto|].
  destruct (0 <? n_walkers a); [|simpl; auto].
  destruct (_calc_max_num_clones t lw) as [cl|e]; [|simpl; auto].
  match goal with |- context [with_nodes ?l t] =>
    set (t1 := with_nodes l t) end.
  destruct (propagate_frame n_cloneable set_n_cloneable n (branch_levels t) t1)
    as [He Hl]; [reflexivity|].
  assert (erase_counts t1 = erase_counts t) as He1
    by (apply erase_counts_set_node; reflexivity).
  split; [congruence|].
  intros n' Hlen Hne. rewrite Hl.
  - unfold t1. simpl. apply lookup_update_other. exact Hne.
  - intros level Hlv. eapply branch_prefix_shorter; eauto.
Qed.





Lemma accountable_erase t t' m :
  erase_counts t' = erase_counts t -> accountable t m -> accountable t' m.
Proof.
  intros He [H1 H2 H3 H4 H5].
  destruct (erase_counts_fields _ _ He) as [Hw [_ [Hm [Hmm _]]]].
  constructor.
  - intros n k. rewrite !(erase_counts_has_node _ _ _ He). apply H1.
  - intros n a' Ha'. rewrite Hw.
    destruct (erase_counts_attr _ _ _ _ He Ha') as [a [Ha [_ <-]]].
    eapply H2; eauto.
  - intros n a' Ha'.
    destruct (erase_counts_attr _ _ _ _ He Ha') as [a [Ha [<- <-]]].
    eapply H3; eauto.
  - congruence.
  - congruence.
Qed.

Lemma rmapM_py_index_total {A} (l : list A) (idxs : list nat) :
  Forall (fun i => (i < List.length l)%nat) idxs ->
  exists r, rmapM (py_index l) idxs = Ok r.
Proof.
  induction 1 as [|i idxs Hi _ [r IH]]; simpl; [eauto|].
  destruct (py_index_lt l i Hi) as [x ->]. rewrite IH. simpl. eauto.
Qed.

Lemma calc_max_num_clones_total (ws : list Q) (pmin : Q) (m : Z) :
  exists counts, calc_max_num_clones ws pmin (Some m) = Ok counts.
Proof.
  unfold calc_max_num_clones.
  induction ws as [|w ws [counts IH]]; simpl; [eauto|].
  unfold max_num_clones_of at 1.
  destruct (n_splits_loop_stops w pmin m (n_splits_budget (Some m)) 2)
    as [n' [-> _]]; [simpl; lia|].
  simpl. rewrite IH. simpl. eauto.
Qed.

(** A leaf with at most one walker is accounted without error. *)
Lemma account_leaf_total n t m a :
  accountable t m ->
  lookup_node (nodes t) n = Some a ->
  n_walkers a <= 1 ->
  fst (account_leaf n t) = Ok tt.
Proof.
  intros [H1 H2 H3 H4 H5] Ha Hw. rewrite account_leaf_unfold, Ha.
  destruct (rmapM_py_index_total _ _ (H2 _ _ Ha)) as [lw ->].
  destruct (1 <? n_walkers a) eqn:E1; [apply Z.ltb_lt in E1; lia|].
  destruct (0 <? n_walkers a); [|reflexivity].
  unfold _calc_max_num_clones. rewrite H5.
  destruct (calc_max_num_clones_total lw (_pmin t) m) as [cl ->].
  match goal with |- context [with_nodes ?l t] =>
    set (t1 := with_nodes l t) end.
  assert (erase_counts t1 = erase_counts t) as He
    by (apply erase_counts_set_node; reflexivity).
  assert (has_node t n = true) as Hn by (unfold has_node; rewrite Ha; auto).
  apply propagate_total; [reflexivity | |].
  - rewrite (erase_counts_has_node _ _ _ He). exact Hn.
  - intros level _. rewrite (erase_counts_has_node _ _ _ He).
    apply H1. exact Hn.
Qed.

(** A leaf with two or more walkers stops the accounting on the undefined
    name. *)
Lemma account_leaf_NameError n t m a :
  accountable t m ->
  lookup_node (nodes t) n = Some a ->
  1 < n_walkers a ->
  account_leaf n t = (Raise NameError, t).
Proof.
  intros [H1 H2 H3 H4 H5] Ha Hw. rewrite account_leaf_unfold, Ha.
  destruct (rmapM_py_index_total _ _ (H2 _ _ Ha)) as [lw ->].
  apply Z.ltb_lt in Hw. rewrite Hw, H4. reflexivity.
Qed.

Lemma account_each_NameError (ls : list node_id) t m :
  accountable t m ->
  (forall n, In n ls -> has_node t n = true) ->
  (exists n a, In n ls /\ lookup_node (nodes t) n = Some a /\
               1 < n_walkers a) ->
  fst (for_each ls (fun n (_ : unit) => account_leaf n) tt t)
  = Raise NameError.
Proof.
  revert t. induction ls as [|n ls IH]; intros t Hacc Hls [n2 [a2 [Hin [Ha2 Hw2]]]];
    [contradiction|].
  simpl. unfold bind at 1.
  pose proof (Hls n (or_introl eq_refl)) as Hn. unfold has_node in Hn.
  destruct (lookup_node (nodes t) n) as [a|] eqn:Ea; [|discriminate].
  destruct (Z_lt_le_dec 1 (n_walkers a)) as [Hbig | Hsmall].
  - rewrite (account_leaf_NameError n t m a Hacc Ea Hbig). reflexivity.
  - pose proof (account_leaf_total n t m a Hacc Ea Hsmall) as Hok.
    pose proof (account_leaf_frame n t) as [He _].
    destruct (account_leaf n t) as [[[]|e] t1]; simpl in *; [|discriminate].
    apply IH.
    + eapply accountable_erase; eauto.
    + intros n1 Hn1. rewrite (erase_counts_has_node _ _ _ He).
      apply Hls. right. exact Hn1.
    + destruct Hin as [<- | Hin]; [rewrite Ea in Ha2; inversion Ha2; subst; lia|].
      pose proof (erase_counts_lookup _ _ n2 He) as Hl. rewrite Ha2 in Hl.
      destruct (lookup_node (nodes t1) n2) as [a1|] eqn:E1; [|discriminate].
      exists n2, a1. split; [exact Hin|]. split; [exact E1|].
      simpl in Hl. inversion Hl. lia.
Qed.

End AccountLeaf.

(** ** A program logic for the methods that change the tree *)

Section Triples.

Context {Image : Type}.
Implicit Type t : @RegionTree Image.

Lemma triple_conseq {A} (P P' : @RegionTree Image -> Prop) (c : @M Image A)
    (Q Q' : A -> @RegionTree Image -> Prop) :
  (forall t, P' t -> P t) -> (forall a t, Q a t -> Q' a t) ->
  triple P c Q -> triple P' c Q'.
Proof. intros HP HQ H t a t' Ht Hc. eapply HQ, H; eauto. Qed.

Lemma triple_ret {A} (P : @RegionTree Image -> Prop) (a : A) Q :
  (forall t, P t -> Q a t) -> triple P (ret a) Q.
Proof. intros H t a' t' Ht Hc. inversion Hc; subst. auto. Qed.

Lemma triple_raise {A} (P : @RegionTree Image -> Prop) (e : exn)
    (Q : A -> @RegionTree Image -> Prop) :
  triple P (raise e) Q.
Proof. intros t a t' _ Hc. discriminate. Qed.

Lemma triple_bind {A B} (P : @RegionTree Image -> Prop) (c : @M Image A)
    (R : A -> @RegionTree Image -> Prop) (k : A -> @M Image B) Q :
  triple P c R -> (forall a, triple (R a) (k a) Q) -> triple P (bind c k) Q.
Proof.
  intros Hc Hk t b t' Ht H. unfold bind in H.
  destruct (c t) as [[a|e] t1] eqn:E; [|discriminate].
  eapply Hk; [eapply Hc; eauto | exact H].
Qed.

Lemma triple_read {A} (P : @RegionTree Image -> Prop)
    (f : @RegionTree Image -> result A) :
  triple P (read f) (fun a t => P t /\ f t = Ok a).
Proof. intros t a t' Ht H. unfold read in H. inversion H; subst. auto. Qed.

Lemma triple_lift {A} (P : @RegionTree Image -> Prop) (r : result A) :
  triple P (lift r) (fun a t => P t /\ r = Ok a).
Proof. intros t a t' Ht H. unfold lift in H. inversion H; subst. auto. Qed.

Lemma triple_get (P : @RegionTree Image -> Prop) :
  triple P get (fun a t => P t /\ a = t).
Proof. intros t a t' Ht H. inversion H; subst. auto. Qed.

Lemma triple_modify (P : @RegionTree Image -> Prop)
    (f : @RegionTree Image -> @RegionTree Image) :
  triple P (modify f) (fun _ t' => exists t, P t /\ t' = f t).
Proof. intros t a t' Ht H. inversion H; subst. eauto. Qed.

Lemma triple_set_node (P : @RegionTree Image -> Prop) (n : node_id)
    (f : NodeAttrs -> NodeAttrs) :
  triple P (set_node n f)
    (fun _ t' => exists t, P t /\ has_node t n = true /\
                           t' = with_nodes (update_node (nodes t) n f) t).
Proof.
  intros t a t' Ht H. unfold set_node in H. unfold has_node.
  destruct (lookup_node (nodes t) n) eqn:E; inversion H; subst.
  exists t. rewrite E. auto.
Qed.

Lemma triple_for_each {A S} (I : S -> @RegionTree Image -> Prop)
    (l : list A) (body : A -> S -> @M Image S) (s : S) :
  (forall x s, In x l -> triple (I s) (body x s) I) ->
  triple (I s) (for_each l body s) I.
Proof.
  revert s. induction l as [|x l IH]; intros s Hb; simpl.
  - apply triple_ret. auto.
  - eapply triple_bind; [apply Hb; left; reflexivity|].
    intro s'. apply IH. intros y s2 Hy. apply Hb. right. exact Hy.
Qed.

End Triples.

(** ** Walker placement keeps the tree accountable *)

Section Placement.

Context {State Image : Type}.
Variable image : State -> Image.
Variable image_distance : Image -> Image -> result Q.
Implicit Type t : @RegionTree Image.

Lemma lookup_node_In (l : list (node_id * NodeAttrs)) n a :
  lookup_node l n = Some a -> In (n, a) l.
Proof.
  induction l as [|[k b] l IH]; simpl; [discriminate|].
  destruct (node_id_eqb n k) eqn:E.
  - apply node_id_eqb_eq in E. intro H. inversion H; subst. left. reflexivity.
  - intro H. right. apply IH. exact H.
Qed.


Lemma Forall_update_node (P : node_id * NodeAttrs -> Prop)
    (l : list (node_id * NodeAttrs)) n f :
  Forall P l -> (forall k a, P (k, a) -> P (k, f a)) ->
  Forall P (update_node l n f).
Proof.
  intros Hl Hf. induction Hl as [|[k a] l Hx Hl IH]; simpl; [constructor|].
  destruct (node_id_eqb n k); constructor; auto.
Qed.

Lemma has_node_update t n f n' :
  has_node (with_nodes (update_node (nodes t) n f) t) n' = has_node t n'.
Proof.
  unfold has_node. simpl.
  destruct (list_eq_dec Nat.eq_dec n' n) as [-> | Hne].
  - rewrite lookup_update_same. destruct (lookup_node (nodes t) n); reflexivity.
  - rewrite lookup_update_other by exact Hne. reflexivity.
Qed.

Lemma lookup_node_app (l : list (node_id * NodeAttrs)) c x n :
  lookup_node (l ++ [(c, x)]) n
  = match lookup_node l n with
    | Some a => Some a
    | None => if node_id_eqb n c then Some x else None
    end.
Proof.
  induction l as [|[k a] l IH]; simpl; [reflexivity|].
  destruct (node_id_eqb n k); [reflexivity | exact IH].
Qed.

Lemma has_node_add_node t c idx n :
  has_node (add_node c idx t) n = has_node t n || node_id_eqb n c.
Proof.
  unfold add_node. destruct (has_node t c) eqn:Ec.
  - rewrite has_node_update.
    destruct (node_id_eqb n c) eqn:E; [|rewrite orb_false_r; reflexivity].
    apply node_id_eqb_eq in E. subst. rewrite Ec. reflexivity.
  - unfold has_node. simpl. rewrite lookup_node_app.
    destruct (lookup_node (nodes t) n); [reflexivity|].
    destruct (node_id_eqb n c); reflexivity.
Qed.

Lemma firstn_snoc (parent : node_id) (x k : nat) :
  firstn k (parent ++ [x]) = parent ++ [x] \/
  firstn k (parent ++ [x]) = firstn k parent.
Proof.
  destruct (Nat.le_gt_cases k (List.length parent)) as [H|H].
  - right. rewrite firstn_app.
    replace (k - List.length parent)%nat with O by lia.
    simpl. apply app_nil_r.
  - left. apply firstn_all2. rewrite length_app. simpl. lia.
Qed.

Lemma cfg_add_node t n idx : cfg (add_node n idx t) = cfg t.
Proof. unfold add_node. destruct (has_node t n); reflexivity. Qed.

Lemma placing_add_node c closed bound len t parent x idx :
  placing c closed bound len t -> has_node t parent = true ->
  placing c closed bound len (add_node (parent ++ [x]) idx t).
Proof.
  intros [H1 H2 H3 H4] Hp.
  constructor.
  - intros Hc n k Hn. rewrite has_node_add_node in *.
    apply orb_true_iff in Hn. apply orb_true_iff.
    destruct Hn as [Hn | Hn]; [left; apply H1; assumption|].
    apply node_id_eqb_eq in Hn. subst n.
    destruct (firstn_snoc parent x k) as [-> | ->].
    + right. apply node_id_eqb_refl.
    + left. apply H1; assumption.
  - unfold add_node. destruct (has_node t (parent ++ [x])); simpl.
    + apply Forall_update_node; [exact H2|].
      intros k a _. split; simpl; [constructor | reflexivity].
    + apply Forall_app. split; [exact H2|].
      constructor; [|constructor]. split; simpl; [constructor | reflexivity].
  - unfold add_node. destruct (has_node t (parent ++ [x])); exact H3.
  - rewrite cfg_add_node. exact H4.
Qed.

(** Changes that leave the nodes, the weights and the parameters alone. *)
Lemma placing_same_nodes c closed bound len t t' :
  nodes t' = nodes t -> _walker_weights t' = _walker_weights t ->
  cfg t' = cfg t ->
  placing c closed bound len t -> placing c closed bound len t'.
Proof.
  intros Hn Hw Hc [H1 H2 H3 H4].
  constructor; try congruence.
  unfold has_node in *. rewrite Hn. exact H1.
Qed.

Lemma placing_add_edge c closed bound len t u v :
  placing c closed bound len t -> placing c closed bound len (add_edge u v t).
Proof.
  intro H. unfold add_edge. destruct (has_edge t u v); [exact H|].
  apply (placing_same_nodes c closed bound len t); try reflexivity. exact H.
Qed.

Lemma add_child_placing c closed bound len parent idx :
  triple (placing c closed bound len) (add_child parent idx)
    (fun _ t => placing c closed bound len t).
Proof.
  unfold add_child.
  eapply triple_bind; [apply triple_read|]. intro cs.
  eapply triple_bind; [apply triple_modify|]. intros [].
  eapply triple_bind; [apply triple_modify|]. intros [].
  apply triple_ret.
  intros t [t1 [[t0 [[Hpl Hcs] ->]] ->]].
  apply placing_add_edge, placing_add_node; [exact Hpl|].
  unfold children in Hcs. destruct (has_node t0 parent); [reflexivity|].
  discriminate.
Qed.

Lemma branch_tree_placing c closed bound len parent img :
  triple (placing c closed bound len) (branch_tree parent img)
    (fun _ t => placing c closed bound len t).
Proof.
  unfold branch_tree.
  eapply triple_bind; [apply triple_get|]. intro t0.
  eapply triple_bind; [apply triple_modify|]. intros [].
  eapply triple_bind.
  - eapply triple_conseq;
      [| |apply (triple_for_each (fun _ t => placing c closed bound len t))].
    + intros t [t1 [[Hpl _] ->]].
      apply (placing_same_nodes c closed bound len t1); try reflexivity.
      exact Hpl.
    + intros a t H. exact H.
    + intros lv [p ch] _.
      eapply triple_bind; [apply add_child_placing|]. intro child.
      apply triple_ret. auto.
  - intros [p [child|]]; [|apply triple_raise].
    eapply triple_bind; [apply triple_modify|]. intros [].
    apply triple_ret. intros t [t1 [Hpl ->]].
    apply (placing_same_nodes c closed bound len t1); try reflexivity.
    exact Hpl.
Qed.

Lemma place_branching_placing c closed bound len walker assignment level
    distances :
  triple (placing c closed bound len)
    (place_branching image walker assignment level distances)
    (fun _ t => placing c closed bound len t).
Proof.
  revert level. induction distances as [|d rest IH]; intro level; simpl.
  - apply triple_ret. auto.
  - eapply triple_bind; [apply triple_get|]. intro t0.
    eapply triple_bind; [apply triple_lift|]. intro size.
    destruct (Qlt_bool size d).
    + eapply triple_bind; [apply triple_lift|]. intro cs.
      eapply triple_bind; [apply triple_lift|]. intro max_n.
      destruct (Z.of_nat (List.length cs) <? max_n).
      * eapply triple_bind.
        -- eapply triple_conseq; [| |apply branch_tree_placing].
           ++ intros t H. decompose [and] H. eassumption.
           ++ intros a t H. exact H.
        -- intro a. apply triple_ret. auto.
      * eapply triple_conseq; [| |apply IH].
        -- intros t H. decompose [and] H. eassumption.
        -- auto.
    + eapply triple_conseq; [| |apply IH].
      * intros t H. decompose [and] H. eassumption.
      * auto.
Qed.

Lemma update_node_twice (l : list (node_id * NodeAttrs)) n f g :
  update_node (update_node l n f) n g = update_node l n (fun a => g (f a)).
Proof.
  induction l as [|[k a] l IH]; simpl; [reflexivity|].
  destruct (node_id_eqb n k) eqn:E; simpl; rewrite E;
    [reflexivity | f_equal; exact IH].
Qed.

Lemma Forall_update_node_lookup (P : node_id * NodeAttrs -> Prop)
    (l : list (node_id * NodeAttrs)) n f :
  Forall P l ->
  (forall a, lookup_node l n = Some a -> P (n, f a)) ->
  Forall P (update_node l n f).
Proof.
  intros Hl. induction Hl as [|[k a] l Hx Hl IH]; simpl; intro Hf;
    [constructor|].
  destruct (node_id_eqb n k) eqn:E.
  - apply node_id_eqb_eq in E. subst k.
    constructor; [apply Hf; reflexivity | exact Hl].
  - constructor; [exact Hx | apply IH; exact Hf].
Qed.

(** Pushing walker [k] onto a node: the count goes up by one and the index
    joins the list. *)
Lemma placing_push c closed k t nid a :
  placing c closed (S k) (S k) t ->
  lookup_node (nodes t) nid = Some a ->
  let t1 := with_nodes
              (update_node (nodes t) nid (set_n_walkers (n_walkers a + 1)))
              t in
  placing c closed (S k) (S k)
    (with_nodes
       (update_node (nodes t1) nid (set_walker_idxs (walker_idxs a ++ [k])))
       t1).
Proof.
  intros [H1 H2 H3 H4] Ha t1.
  constructor; try assumption.
  - intros Hc n j. unfold t1. rewrite !has_node_update. apply H1. exact Hc.
  - unfold t1. simpl. rewrite update_node_twice.
    apply Forall_update_node_lookup; [exact H2|].
    intros a' Ha'. rewrite Ha in Ha'. inversion Ha'; subst a'.
    rewrite Forall_forall in H2.
    destruct (H2 _ (lookup_node_In _ _ _ Ha)) as [Hb Hn]. simpl in *.
    split; simpl.
    + apply Forall_app. split; [exact Hb|]. constructor; [lia | constructor].
    + rewrite length_app. simpl. lia.
Qed.

Lemma placing_bound_mono c closed bound bound' len t :
  (bound <= bound')%nat ->
  placing c closed bound len t -> placing c closed bound' len t.
Proof.
  intros Hle [H1 H2 H3 H4]. constructor; try assumption.
  eapply Forall_impl; [|exact H2].
  intros [n a] [Hb Hn]. split; [|exact Hn].
  eapply Forall_impl; [|exact Hb]. simpl. intros i Hi. lia.
Qed.

Lemma place_walker_placing c closed k walker new_branches :
  triple (placing c closed k k)
    (place_walker image image_distance k walker new_branches)
    (fun _ t => placing c closed (S k) (S k) t).
Proof.
  unfold place_walker.
  eapply triple_bind; [apply triple_read|]. intros [assignment distances].
  eapply triple_bind.
  { eapply triple_conseq; [| |apply place_branching_placing].
    - intros t H. decompose [and] H. eassumption.
    - intros a t H. exact H. }
  intros [assignment' branches].
  eapply triple_bind; [apply triple_modify|]. intros [].
  eapply triple_bind; [apply triple_modify|]. intros [].
  eapply triple_bind.
  - eapply triple_conseq;
      [| |apply (triple_for_each
                   (fun _ t => placing c closed (S k) (S k) t))].
    + intros t [t1 [[t0 [Hpl ->]] ->]].
      destruct Hpl as [H1 H2 H3 H4].
      apply (placing_bound_mono c closed k); [lia|].
      constructor; try assumption.
      simpl. rewrite length_app. simpl. lia.
    + intros a t H. exact H.
    + intros level [] _.
      eapply triple_bind; [apply triple_read|]. intro a.
      eapply triple_bind; [apply triple_set_node|]. intros [].
      eapply triple_bind; [apply triple_read|]. intro a2.
      eapply triple_conseq; [| |apply triple_set_node].
      * intros t H. exact H.
      * intros [] t [t2 [[[t1 [[Hpl Ha] [_ ->]]] Ha2] [_ ->]]].
        unfold node, py_key in Ha.
        destruct (lookup_node (nodes t1) (firstn level assignment'))
          as [a0|] eqn:E; inversion Ha; subst a0.
        unfold node in Ha2. simpl in Ha2.
        rewrite lookup_update_same, E in Ha2. simpl in Ha2.
        inversion Ha2; subst a2. simpl.
        apply (placing_push c closed k t1 _ a Hpl E).
  - intros []. apply triple_ret. auto.
Qed.

Lemma place_each_placing c closed k walkers new_branches :
  triple (placing c closed k k)
    (place_each image image_distance k walkers new_branches)
    (fun _ t => exists k', placing c closed k' k' t).
Proof.
  revert k new_branches.
  induction walkers as [|w ws IH]; intros k nb; simpl.
  - apply triple_ret. eauto.
  - eapply triple_bind; [apply place_walker_placing|].
    intro nb'. apply IH.
Qed.

Lemma placing_clear_walkers c closed t :
  (closed = true -> forall n k, has_node t n = true ->
                                has_node t (firstn k n) = true) ->
  cfg t = c ->
  placing c closed 0 0 (clear_walkers t).
Proof.
  intros Hp Hc. constructor.
  - intros Hcl n k. unfold has_node. rewrite !lookup_clear_walkers.
    specialize (Hp Hcl n k). unfold has_node in Hp.
    destruct (lookup_node (nodes t) n); [|discriminate].
    destruct (lookup_node (nodes t) (firstn k n)); [reflexivity|].
    simpl. intro. apply Hp. reflexivity.
  - rewrite clear_walkers_nodes. apply Forall_forall.
    intros [n a] Hin. apply in_map_iff in Hin.
    destruct Hin as [[n0 a0] [E _]]. inversion E; subst.
    split; simpl; [constructor | reflexivity].
  - reflexivity.
  - exact Hc.
Qed.

Lemma place_all_placing closed walkers t new_branches t' :
  (closed = true -> forall n k, has_node t n = true ->
                                has_node t (firstn k n) = true) ->
  place_all image image_distance walkers t = (Ok new_branches, t') ->
  exists k, placing (cfg t) closed k k t'.
Proof.
  intros Hp H.
  assert (triple (fun t0 => t0 = t)
            (place_all image image_distance walkers)
            (fun _ t1 => exists k, placing (cfg t) closed k k t1)) as Ht.
  { unfold place_all.
    eapply triple_bind; [apply triple_modify|]. intros [].
    eapply triple_conseq; [| |apply (place_each_placing (cfg t) closed 0)].
    - intros t1 [t0 [-> ->]].
      apply (placing_clear_walkers (cfg t) closed); auto.
    - auto. }
  eapply Ht; eauto.
Qed.

Lemma prefix_closedb_spec t :
  prefix_closedb t = true ->
  forall n k, has_node t n = true -> has_node t (firstn k n) = true.
Proof.
  unfold prefix_closedb. rewrite forallb_forall. intros H n k Hn.
  destruct (Nat.lt_ge_cases k (List.length n)) as [Hk | Hk].
  - assert (In n (node_ids t)) as Hin.
    { apply lookup_node_in. unfold has_node in Hn.
      destruct (lookup_node (nodes t) n); [eauto | discriminate]. }
    specialize (H n Hin). rewrite forallb_forall in H.
    apply H. apply in_seq. lia.
  - rewrite firstn_all2 by exact Hk. exact Hn.
Qed.

Lemma place_walkers_unfold walkers t :
  place_walkers image image_distance walkers t =
  match place_all image image_distance walkers t with
  | (Ok new_branches, t1) =>
      match for_each (leaves t1) (fun n (_ : unit) => account_leaf n) tt t1
      with
      | (Ok _, t2) => (Ok new_branches, t2)
      | (Raise e, t2) => (Raise e, t2)
      end
  | (Raise e, t1) => (Raise e, t1)
  end.
Proof.
  unfold place_walkers, bind at 1.
  destruct (place_all image image_distance walkers t) as [[nb|e] t1];
    [|reflexivity].
  unfold bind at 1, account_leaves, bind at 1, read at 1.
  rewrite leaf_nodes_ok.
  destruct (for_each _ _ tt t1) as [[u|e] t2]; reflexivity.
Qed.

End Placement.







(** The two leaves of that run: the walker of weight 0.4 can be cloned
    three times, the walker of weight 0.2 once. *)
Example n_cloneable_two_leaves :
  let t' := snd (place_walkers Line.image Line.image_distance
                   [Line.walker 0 (4#10); Line.walker 5 (2#10)]
                   (Line.tree0 (Some 10))) in
  leaves t' = [[O]; [1%nat]] /\
  attr_of t' n_cloneable [O] = 3 /\ attr_of t' n_cloneable [1%nat] = 1 /\
  attr_of t' n_cloneable ROOT_NODE = 4.
Proof. vm_compute. repeat split. Qed.

(** ** The trees the code builds are descendable and prefix-closed *)

Section Reachable.

Context {State Image : Type}.
Variable image : State -> Image.
Variable image_distance : Image -> Image -> result Q.
Implicit Type t : @RegionTree Image.

Lemma descendableb_but t hole :
  descendableb t = true -> descendable_but t hole.
Proof.
  intro H. destruct (descendable_facts t H) as [H1 [H2 H3]].
  split; [exact H1|]. split; [exact H2|].
  intros n Hn Hl _. specialize (H3 n Hn Hl).
  destruct (successors t n) as [|v l] eqn:E; [congruence|].
  exists v. apply successors_edge. rewrite E. left. reflexivity.
Qed.

Lemma but_descendableb t hole :
  descendable_but t hole -> (_n_levels t <= List.length hole)%nat ->
  descendableb t = true.
Proof.
  intros [H1 [H2 H3]] Hh. unfold descendableb.
  rewrite !andb_true_iff, !forallb_forall. split; [split; [exact H1|]|].
  - intros [u v] Hin. destruct (H2 u v Hin) as [Hl [a [Ha Hi]]].
    rewrite Ha. apply andb_true_iff. split.
    + apply Nat.eqb_eq. exact Hl.
    + apply Nat.ltb_lt. exact Hi.
  - intros n Hn. apply orb_true_iff.
    destruct (Nat.le_gt_cases (_n_levels t) (List.length n)) as [Hle | Hgt].
    + left. apply Nat.leb_le. exact Hle.
    + right. apply lookup_node_in in Hn. destruct Hn as [a Ha].
      destruct (H3 n) as [v Hv].
      * unfold has_node. rewrite Ha. reflexivity.
      * exact Hgt.
      * intro E. subst. lia.
      * apply successors_edge in Hv.
        destruct (successors t n); [contradiction | reflexivity].
Qed.

Lemma has_edge_spec t u v : has_edge t u v = true <-> In (u, v) (edges t).
Proof.
  unfold has_edge. rewrite existsb_exists. split.
  - intros [[u' v'] [Hin H]]. simpl in H. apply andb_true_iff in H.
    destruct H as [Hu Hv]. apply node_id_eqb_eq in Hu, Hv. subst. exact Hin.
  - intro H. exists (u, v). split; [exact H|]. simpl.
    rewrite !node_id_eqb_refl. reflexivity.
Qed.

Lemma lookup_add_node_other t c idx n :
  n <> c ->
  lookup_node (nodes (add_node c idx t)) n = lookup_node (nodes t) n.
Proof.
  intro Hne. unfold add_node. destruct (has_node t c); simpl.
  - apply lookup_update_other. exact Hne.
  - rewrite lookup_node_app. destruct (lookup_node (nodes t) n); [reflexivity|].
    apply node_id_eqb_neq in Hne. rewrite Hne. reflexivity.
Qed.

Lemma lookup_add_node_same t c idx :
  exists a, lookup_node (nodes (add_node c idx t)) c = Some a /\
            image_idx a = idx.
Proof.
  unfold add_node, has_node.
  destruct (lookup_node (nodes t) c) as [a|] eqn:E; simpl.
  - rewrite lookup_update_same, E. simpl. eauto.
  - rewrite lookup_node_app, E, node_id_eqb_refl. eauto.
Qed.

Lemma add_node_fields t c idx :
  edges (add_node c idx t) = edges t /\
  _images (add_node c idx t) = _images t /\
  _n_levels (add_node c idx t) = _n_levels t.
Proof. unfold add_node. destruct (has_node t c); repeat split. Qed.

Lemma add_edge_fields t u v :
  nodes (add_edge u v t) = nodes t /\
  _images (add_edge u v t) = _images t /\
  _n_levels (add_edge u v t) = _n_levels t /\
  In (u, v) (edges (add_edge u v t)) /\
  (forall e, In e (edges (add_edge u v t)) <-> In e (edges t) \/ e = (u, v)).
Proof.
  unfold add_edge. destruct (has_edge t u v) eqn:E.
  - apply has_edge_spec in E. repeat split; try assumption.
    + intro H. left. exact H.
    + intros [H | ->]; assumption.
  - repeat split; simpl.
    + apply in_or_app. right. left. reflexivity.
    + intro H. apply in_app_or in H. destruct H as [H | [<- | []]]; auto.
    + intros [H | ->]; apply in_or_app; [left; exact H | right; left; reflexivity].
Qed.

(** Hanging a child under the hole moves the hole to the child. *)
Lemma descendable_but_add_child t parent x idx :
  descendable_but t parent -> has_node t parent = true ->
  (idx < List.length (_images t))%nat ->
  descendable_but (add_edge parent (parent ++ [x])
                     (add_node (parent ++ [x]) idx t))
    (parent ++ [x]).
Proof.
  intros [H1 [H2 H3]] Hp Hi.
  set (child := parent ++ [x]).
  set (t1 := add_node child idx t).
  destruct (add_node_fields t child idx) as [Fe [Fi Fl]].
  destruct (add_edge_fields t1 parent child) as [Gn [Gi [Gl [Gin Ge]]]].
  fold t1 in Fe, Fi, Fl.
  assert (forall n, has_node (add_edge parent child t1) n
                    = has_node t n || node_id_eqb n child) as Hhas.
  { intro n. unfold has_node at 1. rewrite Gn.
    fold (has_node t1 n). unfold t1. apply has_node_add_node. }
  assert (forall v,
            (exists a, lookup_node (nodes t) v = Some a /\
                       (image_idx a < List.length (_images t))%nat) ->
            exists a, lookup_node (nodes (add_edge parent child t1)) v = Some a
                      /\ (image_idx a
                          < List.length (_images (add_edge parent child t1)))%nat)
    as Hlook.
  { intros v [a [Ha Hia]]. rewrite Gn, Gi, Fi.
    destruct (list_eq_dec Nat.eq_dec v child) as [-> | Hne].
    - destruct (lookup_add_node_same t child idx) as [a' [Ha' Hidx]].
      exists a'. split; [exact Ha' | lia].
    - exists a. unfold t1. rewrite lookup_add_node_other by exact Hne. auto. }
  split; [rewrite Hhas, H1; reflexivity|]. split.
  - intros u v Hin. apply Ge in Hin. rewrite Fe in Hin.
    destruct Hin as [Hin | Heq].
    + destruct (H2 u v Hin) as [Hl Ha]. split; [exact Hl|].
      apply Hlook. exact Ha.
    + inversion Heq; subst u v. split.
      * unfold child. rewrite length_app. simpl. lia.
      * rewrite Gn, Gi, Fi.
        destruct (lookup_add_node_same t child idx) as [a [Ha Hidx]].
        exists a. split; [exact Ha | lia].
  - intros n Hn Hlen Hne. rewrite Hhas in Hn. rewrite Gl, Fl in Hlen.
    apply orb_true_iff in Hn. destruct Hn as [Hn | Hn];
      [|apply node_id_eqb_eq in Hn; contradiction].
    destruct (list_eq_dec Nat.eq_dec n parent) as [-> | Hnp].
    + exists child. exact Gin.
    + destruct (H3 n Hn Hlen Hnp) as [v Hv]. exists v.
      apply Ge. left. rewrite Fe. exact Hv.
Qed.

Lemma descendable_but_ext t t' hole :
  (forall n, option_map image_idx (lookup_node (nodes t') n)
             = option_map image_idx (lookup_node (nodes t) n)) ->
  edges t' = edges t ->
  (List.length (_images t) <= List.length (_images t'))%nat ->
  _n_levels t' = _n_levels t ->
  descendable_but t hole -> descendable_but t' hole.
Proof.
  intros Hl He Hi Hn [H1 [H2 H3]].
  assert (forall n, has_node t' n = has_node t n) as Hhas.
  { intro n. unfold has_node. specialize (Hl n).
    destruct (lookup_node (nodes t') n), (lookup_node (nodes t) n);
      simpl in Hl; congruence. }
  split; [rewrite Hhas; exact H1|]. split.
  - intros u v Hin. rewrite He in Hin.
    destruct (H2 u v Hin) as [Hlen [a [Ha Hia]]]. split; [exact Hlen|].
    specialize (Hl v). rewrite Ha in Hl.
    destruct (lookup_node (nodes t') v) as [a'|]; [|discriminate].
    exists a'. split; [reflexivity|]. simpl in Hl. inversion Hl. lia.
  - intros n Hhn Hlen Hne. rewrite Hhas in Hhn. rewrite Hn in Hlen.
    rewrite He. apply H3; assumption.
Qed.

Lemma descendableb_ext t t' :
  (forall n, option_map image_idx (lookup_node (nodes t') n)
             = option_map image_idx (lookup_node (nodes t) n)) ->
  edges t' = edges t ->
  (List.length (_images t) <= List.length (_images t'))%nat ->
  _n_levels t' = _n_levels t ->
  descendableb t = true -> descendableb t' = true.
Proof.
  intros Hl He Hi Hn H.
  apply (but_descendableb t' (repeat O (_n_levels t'))).
  - eapply descendable_but_ext; eauto. apply descendableb_but. exact H.
  - rewrite repeat_length. lia.
Qed.

Lemma descendableb_update t n f :
  (forall a, image_idx (f a) = image_idx a) ->
  descendableb t = true ->
  descendableb (with_nodes (update_node (nodes t) n f) t) = true.
Proof.
  intros Hf. apply descendableb_ext; [|reflexivity|simpl; lia|reflexivity].
  intro n'. simpl. destruct (list_eq_dec Nat.eq_dec n' n) as [-> | Hne].
  - rewrite lookup_update_same. destruct (lookup_node (nodes t) n);
      simpl; [rewrite Hf|]; reflexivity.
  - rewrite lookup_update_other by exact Hne. reflexivity.
Qed.

Lemma descendableb_clear_walkers t :
  descendableb t = true -> descendableb (clear_walkers t) = true.
Proof.
  apply descendableb_ext; [|reflexivity|simpl; lia|reflexivity].
  intro n. rewrite lookup_clear_walkers.
  destruct (lookup_node (nodes t) n); reflexivity.
Qed.

Lemma descendableb_erase_counts t t' :
  erase_counts t' = erase_counts t ->
  descendableb t = true -> descendableb t' = true.
Proof.
  intro He. apply descendableb_ext.
  - intro n. pose proof (erase_counts_lookup _ _ n He) as H.
    destruct (lookup_node (nodes t') n), (lookup_node (nodes t) n);
      simpl in *; try discriminate; [|reflexivity].
    inversion H. reflexivity.
  - exact (f_equal (@edges Image) He).
  - pose proof (f_equal (@_images Image) He) as H. simpl in H.
    rewrite H. lia.
  - exact (f_equal (@_n_levels Image) He).
Qed.

Lemma add_child_unfold parent idx t :
  add_child parent idx t =
  match children t parent with
  | Ok cs =>
      (Ok (parent ++ [List.length cs]),
       add_edge parent (parent ++ [List.length cs])
         (add_node (parent ++ [List.length cs]) idx t))
  | Raise e => (Raise e, t)
  end.
Proof.
  unfold add_child, bind, read, modify, ret.
  destruct (children t parent); reflexivity.
Qed.

Lemma add_child_branching levels idx i parent :
  triple (branching levels idx i parent) (add_child parent idx)
    (fun child t => branching levels idx (S i) child t).
Proof.
  intros t child t' [Hlen [Hd [Hp [Hi Hn]]]] H.
  rewrite add_child_unfold in H.
  destruct (children t parent) as [cs|e]; inversion H; subst.
  set (child := parent ++ [List.length cs]).
  destruct (add_node_fields t child idx) as [Fe [Fi Fl]].
  destruct (add_edge_fields (add_node child idx t) parent child)
    as [Gn [Gi [Gl _]]].
  split; [unfold child; rewrite length_app; simpl; lia|].
  split; [apply descendable_but_add_child; assumption|].
  split.
  - unfold has_node. rewrite Gn.
    destruct (lookup_add_node_same t child idx) as [a [-> _]]. reflexivity.
  - split; [rewrite Gi, Fi; exact Hi | rewrite Gl, Fl; reflexivity].
Qed.

Lemma triple_for_seq {S} (I : nat -> S -> @RegionTree Image -> Prop)
    (body : nat -> S -> @M Image S) (start n : nat) (s : S) :
  (forall i s, triple (I i s) (body i s) (I (Datatypes.S i))) ->
  triple (I start s) (for_each (seq start n) body s) (I (start + n)%nat).
Proof.
  intro Hb. revert start s. induction n as [|n IH]; intros start s; simpl.
  - apply triple_ret. intros t H. rewrite Nat.add_0_r. exact H.
  - eapply triple_bind; [apply Hb|]. intro s'.
    replace (start + Datatypes.S n)%nat with (Datatypes.S start + n)%nat by lia.
    apply IH.
Qed.

Lemma branch_tree_descendable parent img :
  triple (fun t => descendableb t = true /\ has_node t parent = true)
    (branch_tree parent img)
    (fun _ t => descendableb t = true).
Proof.
  unfold branch_tree.
  eapply triple_bind; [apply triple_get|]. intro t0.
  eapply triple_bind; [apply triple_modify|]. intros [].
  set (idx := List.length (_images t0)).
  set (levels := _n_levels t0).
  eapply triple_bind.
  - eapply triple_conseq;
      [| |apply (triple_for_seq
                   (fun i (s : node_id * option node_id) t =>
                      branching levels idx i (fst s) t /\
                      forall ch, snd s = Some ch -> ch = fst s))].
    + intros t [t1 [[[Hd Hp] ->] ->]]. simpl. split; [|discriminate].
      split; [reflexivity|]. split.
      * apply (descendable_but_ext t1);
          [reflexivity | reflexivity | | reflexivity |].
        -- simpl. rewrite length_app. lia.
        -- apply descendableb_but. exact Hd.
      * split; [exact Hp|]. split; [|reflexivity].
        simpl. rewrite length_app. simpl. unfold idx. lia.
    + intros a t H. exact H.
    + intros i [p c].
      eapply triple_bind.
      * eapply triple_conseq; [| |apply (add_child_branching levels idx i p)].
        -- intros t [H _]. exact H.
        -- intros a t H. exact H.
      * intro child. apply triple_ret. intros t H. simpl.
        split; [exact H|]. intros ch E. inversion E. reflexivity.
  - intros [p [child|]]; [|apply triple_raise].
    eapply triple_bind; [apply triple_modify|]. intros [].
    apply triple_ret.
    intros t [t1 [[[Hlen [Hd [_ [_ Hn]]]] _] ->]]. simpl in *.
    apply (descendableb_ext t1);
      [reflexivity | reflexivity | simpl; lia | reflexivity |].
    apply (but_descendableb t1 p); [exact Hd|].
    rewrite Hn, Hlen. unfold levels. lia.
Qed.

Lemma place_branching_descendable walker assignment level distances :
  triple (fun t => descendableb t = true)
    (place_branching image walker assignment level distances)
    (fun _ t => descendableb t = true).
Proof.
  revert level. induction distances as [|d rest IH]; intro level; simpl.
  - apply triple_ret. auto.
  - eapply triple_bind; [apply triple_get|]. intro t0.
    eapply triple_bind; [apply triple_lift|]. intro size.
    destruct (Qlt_bool size d).
    + eapply triple_bind; [apply triple_lift|]. intro cs.
      eapply triple_bind; [apply triple_lift|]. intro max_n.
      destruct (Z.of_nat (List.length cs) <? max_n).
      * eapply triple_bind.
        -- eapply triple_conseq; [| |apply branch_tree_descendable].
           ++ intros t [[[[Hd ->] _] Hcs] _]. split; [exact Hd|].
              unfold children in Hcs.
              destruct (has_node t (firstn level assignment));
                [reflexivity | discriminate].
           ++ intros a t H. exact H.
        -- intro a. apply triple_ret. auto.
      * eapply triple_conseq; [| |apply IH].
        -- intros t H. decompose [and] H. assumption.
        -- auto.
    + eapply triple_conseq; [| |apply IH].
      * intros t H. decompose [and] H. assumption.
      * auto.
Qed.

Lemma place_walker_descendable k walker new_branches :
  triple (fun t => descendableb t = true)
    (place_walker image image_distance k walker new_branches)
    (fun _ t => descendableb t = true).
Proof.
  unfold place_walker.
  eapply triple_bind; [apply triple_read|]. intros [assignment distances].
  eapply triple_bind.
  { eapply triple_conseq; [| |apply place_branching_descendable].
    - intros t H. decompose [and] H. assumption.
    - intros a t H. exact H. }
  intros [assignment' branches].
  eapply triple_bind; [apply triple_modify|]. intros [].
  eapply triple_bind; [apply triple_modify|]. intros [].
  eapply triple_bind.
  - eapply triple_conseq;
      [| |apply (triple_for_each (fun _ t => descendableb t = true))].
    + intros t [t1 [[t0 [Hd ->]] ->]].
      apply (descendableb_ext t0);
        [reflexivity | reflexivity | simpl; lia | reflexivity | exact Hd].
    + intros a t H. exact H.
    + intros level [] _.
      eapply triple_bind; [apply triple_read|]. intro a.
      eapply triple_bind; [apply triple_set_node|]. intros [].
      eapply triple_bind; [apply triple_read|]. intro a2.
      eapply triple_conseq; [| |apply triple_set_node].
      * intros t H. exact H.
      * intros [] t [t2 [[[t1 [[Hd _] [_ ->]]] _] [_ ->]]].
        apply descendableb_update; [reflexivity|].
        apply descendableb_update; [reflexivity | exact Hd].
  - intros []. apply triple_ret. auto.
Qed.

Lemma place_all_descendable walkers :
  triple (fun t => descendableb t = true)
    (place_all image image_distance walkers)
    (fun _ t => descendableb t = true).
Proof.
  unfold place_all.
  eapply triple_bind; [apply triple_modify|]. intros [].
  assert (forall k nb,
            triple (fun t => descendableb t = true)
              (place_each image image_distance k walkers nb)
              (fun _ t => descendableb t = true)) as H.
  { induction walkers as [|w ws IH]; intros k nb; simpl.
    - apply triple_ret. auto.
    - eapply triple_bind; [apply place_walker_descendable|].
      intro nb'. apply IH. }
  eapply triple_conseq; [| |apply H].
  - intros t [t0 [Hd ->]]. apply descendableb_clear_walkers. exact Hd.
  - auto.
Qed.

Lemma account_each_frame (ls : list node_id) t :
  erase_counts
    (snd (for_each ls (fun n (_ : unit) => account_leaf n) tt t))
  = erase_counts t.
Proof.
  revert t. induction ls as [|n ls IH]; intro t; [reflexivity|].
  simpl. unfold bind at 1.
  pose proof (account_leaf_frame n t) as [He _].
  destruct (account_leaf n t) as [[[]|e] t1]; simpl in *; [|exact He].
  rewrite IH. exact He.
Qed.

Lemma prefix_closedb_of t :
  (forall n k, has_node t n = true -> has_node t (firstn k n) = true) ->
  prefix_closedb t = true.
Proof.
  intro H. unfold prefix_closedb. apply forallb_forall. intros n Hn.
  apply forallb_forall. intros k _. apply H.
  apply lookup_node_in in Hn. destruct Hn as [a Ha].
  unfold has_node. rewrite Ha. reflexivity.
Qed.

(** X13.  Placing walkers keeps a tree descendable and prefix-closed, and leaves
    its parameters alone: also when the accounting of the leaves raises. *)
Lemma place_walkers_keeps_shape walkers t new_branches :
  descendableb t = true -> prefix_closedb t = true ->
  fst (place_all image image_distance walkers t) = Ok new_branches ->
  let t' := snd (place_walkers image image_distance walkers t) in
  descendableb t' = true /\ prefix_closedb t' = true /\
  _merge_method t' = _merge_method t /\
  _max_num_walkers t' = _max_num_walkers t.
Proof.
  intros Hd Hp Hok. rewrite place_walkers_unfold.
  destruct (place_all image image_distance walkers t) as [[nb|e] t1] eqn:E1;
    [|discriminate].
  pose proof (place_all_descendable walkers t nb t1 Hd E1) as Hd1.
  destruct (place_all_placing image image_distance true walkers t nb t1
              (fun _ => prefix_closedb_spec t Hp) E1) as [k [Hp1 _ _ Hc1]].
  pose proof (account_each_frame (leaves t1) t1) as He.
  assert (descendableb
            (snd (for_each (leaves t1)
                    (fun n (_ : unit) => account_leaf n) tt t1)) = true
          /\ prefix_closedb
               (snd (for_each (leaves t1)
                       (fun n (_ : unit) => account_leaf n) tt t1)) = true
          /\ _merge_method
               (snd (for_each (leaves t1)
                       (fun n (_ : unit) => account_leaf n) tt t1))
             = _merge_method t
          /\ _max_num_walkers
               (snd (for_each (leaves t1)
                       (fun n (_ : unit) => account_leaf n) tt t1))
             = _max_num_walkers t) as H.
  { destruct (erase_counts_fields _ _ He) as [_ [_ [Hm [Hmm _]]]].
    unfold cfg in Hc1. injection Hc1 as Hc1 Hc2 Hc3 Hc4.
    split; [eapply descendableb_erase_counts; eauto|].
    split; [|split; congruence].
    apply prefix_closedb_of. intros n j.
    rewrite !(erase_counts_has_node _ _ _ He). apply Hp1. reflexivity. }
  destruct (for_each (leaves t1) _ tt t1) as [[u|e] t2]; exact H.
Qed.

(** X12.  The constructor builds a descendable, prefix-closed tree for the
    ['single'] method. *)
Lemma RegionTree__init__shape (init_state : State) (max_n_regions : list Z)
    (max_region_sizes : list Q) (max_num_walkers : option Z)
    (min_num_walkers : Z) (pmin pmax : Q) (merge_method : string) t :
  RegionTree__init__ image init_state max_n_regions max_region_sizes
    max_num_walkers min_num_walkers pmin pmax merge_method = Ok t ->
  descendableb t = true /\ prefix_closedb t = true /\
  _merge_method t = "single"%string /\
  _max_num_walkers t = max_num_walkers.
Proof.
  unfold RegionTree__init__.
  destruct (negb _) eqn:Em; [discriminate|].
  apply negb_false_iff in Em. simpl in Em. rewrite orb_false_r in Em.
  apply String.eqb_eq in Em. subst merge_method.
  set (levels := List.length max_n_regions).
  set (t0 := mkRegionTree [] [] max_n_regions levels max_region_sizes pmin
               pmax max_num_walkers min_num_walkers "single" [] []
               [image init_state] []).
  set (step := fun '(t, parent_id) (_ : nat) =>
                 let child_id := parent_id ++ [O] in
                 (add_edge parent_id child_id (add_node child_id 0 t),
                  child_id)).
  set (c := cfg t0).
  assert (forall n start (s : @RegionTree Image * node_id),
            (branching levels 0 start (snd s) (fst s) /\
             placing c true 0 0 (fst s)) ->
            branching levels 0 (start + n)
              (snd (fold_left step (seq start n) s))
              (fst (fold_left step (seq start n) s)) /\
            placing c true 0 0 (fst (fold_left step (seq start n) s)))
    as Hfold.
  { induction n as [|n IH]; intros start [t1 p] [Hb Hpl]; simpl.
    - rewrite Nat.add_0_r. auto.
    - replace (start + S n)%nat with (S start + n)%nat by lia.
      apply IH. simpl in *.
      destruct Hb as [Hlen [Hd [Hp [Hi Hn]]]].
      destruct (add_node_fields t1 (p ++ [O]) 0) as [Fe [Fi Fl]].
      destruct (add_edge_fields (add_node (p ++ [O]) 0 t1) p (p ++ [O]))
        as [Gn [Gi [Gl _]]].
      split.
      + split; [rewrite length_app; simpl; lia|].
        split; [apply descendable_but_add_child; assumption|].
        split.
        * unfold has_node. rewrite Gn.
          destruct (lookup_add_node_same t1 (p ++ [O]) 0) as [a [-> _]].
          reflexivity.
        * split; [rewrite Gi, Fi; exact Hi | rewrite Gl, Fl; exact Hn].
      + apply placing_add_edge, placing_add_node; assumption. }
  specialize (Hfold levels O (add_node ROOT_NODE 0 t0, ROOT_NODE)).
  destruct (fold_left step (seq 0 levels) (add_node ROOT_NODE 0 t0, ROOT_NODE))
    as [t2 p2] eqn:Ef.
  intro H. inversion H; subst t. clear H.
  destruct Hfold as [[Hlen [Hd [_ [_ Hn]]]] [Hp _ _ Hc]].
  - simpl. split.
    + split; [reflexivity|]. split.
      * split; [reflexivity|]. split; [intros u v []|].
        intros n Hn _ Hne. exfalso. apply Hne.
        destruct n; [reflexivity | discriminate Hn].
      * split; [reflexivity|]. split; [simpl; lia | reflexivity].
    + constructor.
      * intros _ n k Hn. destruct n; [|discriminate Hn].
        rewrite firstn_nil. reflexivity.
      * simpl. constructor; [|constructor].
        split; simpl; [constructor | reflexivity].
      * reflexivity.
      * reflexivity.
  - simpl in *. unfold cfg in Hc. injection Hc as Hc1 Hc2 Hc3 Hc4.
    split; [|split; [|split; assumption]].
    + apply (descendableb_ext t2);
        [reflexivity | reflexivity | simpl; lia | reflexivity |].
      apply (but_descendableb t2 p2); [exact Hd | lia].
    + apply prefix_closedb_of. intros n k. apply Hp. reflexivity.
Qed.

End Reachable.

(** * Further properties of the module *)

(** ** The squashable count, for weights of any sign *)

Lemma squashable_loop_run (l : list Q) (max_weight : Q) :
  forall budget idx sum_weights merge_size,
    (idx < List.length l)%nat ->
    (List.length l - idx <= budget)%nat ->
    (sum_weights == prefix_sum l (S idx))%Q ->
    merge_size = Z.of_nat idx + 1 ->
    (forall j, (1 <= j <= idx)%nat -> (prefix_sum l j <= max_weight)%Q) ->
    exists k,
      squashable_loop budget l max_weight idx sum_weights merge_size
      = Ok (Z.of_nat k) /\
      (idx <= k <= List.length l)%nat /\
      (forall j, (1 <= j <= k)%nat -> (prefix_sum l j <= max_weight)%Q) /\
      ((k < List.length l)%nat -> (max_weight < prefix_sum l (S k))%Q).
Proof.
  induction budget as [|budget IH];
    intros idx sum_weights merge_size Hidx Hb Hsum Hms Hhist; [lia|].
  simpl. destruct (Qle_bool sum_weights max_weight) eqn:E.
  - apply Qle_bool_iff in E. rewrite Hsum in E.
    destruct (List.length l <=? idx + 1)%nat eqn:El.
    + apply Nat.leb_le in El. exists (S idx). split; [f_equal; lia|].
      split; [lia|]. split; [|lia].
      intros j Hj. destruct (Nat.eq_dec j (S idx)) as [-> | Hne];
        [exact E | apply Hhist; lia].
    + apply Nat.leb_gt in El.
      destruct (py_index_lt l (idx + 1)%nat El) as [w Hw]. rewrite Hw. simpl.
      destruct (IH (idx + 1)%nat (sum_weights + w)%Q (merge_size + 1))
        as [k [Hk [Hr [Hf Hs]]]].
      * lia.
      * lia.
      * apply py_index_ok in Hw. rewrite (prefix_sum_S l (idx + 1) w Hw).
        rewrite Hsum. replace (idx + 1)%nat with (S idx) by lia. reflexivity.
      * lia.
      * intros j Hj. destruct (Nat.eq_dec j (idx + 1)) as [-> | Hne].
        -- replace (idx + 1)%nat with (S idx) by lia. exact E.
        -- apply Hhist. lia.
      * exists k. split; [exact Hk|]. split; [lia|]. split; assumption.
  - exists idx. split; [f_equal; lia|].
    split; [lia|]. split; [exact Hhist|].
    intros _. rewrite <- Hsum. apply Qnot_le_lt. intro H.
    apply Qle_bool_iff in H. congruence.
Qed.

Lemma sort_weights_length (ws : list Q) :
  List.length (sort_weights ws) = List.length ws.
Proof.
  symmetry. apply Permutation_length. apply sort_weights_sorted_perm.
Qed.

(** What the function returns on any non-empty list. *)
Lemma calc_squashable_run (ws : list Q) (max_weight : Q) :
  ws <> [] ->
  exists k,
    calc_squashable_walkers_single_method ws max_weight
    = Ok (Z.of_nat k - 1) /\
    (k <= List.length ws)%nat /\
    (forall j, (1 <= j <= k)%nat ->
               (prefix_sum (sort_weights ws) j <= max_weight)%Q) /\
    ((k < List.length ws)%nat ->
     (max_weight < prefix_sum (sort_weights ws) (S k))%Q).
Proof.
  intros Hne. unfold calc_squashable_walkers_single_method.
  pose proof (sort_weights_length ws) as Hlen.
  set (sorted := sort_weights ws) in *.
  assert (0 < List.length sorted)%nat as Hpos.
  { rewrite Hlen. destruct ws; [congruence | simpl; lia]. }
  destruct (py_index_lt sorted O Hpos) as [w0 Hw0]. rewrite Hw0. simpl.
  destruct (squashable_loop_run sorted max_weight
              (List.length sorted) O w0 1) as [k [Hk [Hr [Hf Hs]]]].
  - exact Hpos.
  - lia.
  - apply py_index_ok in Hw0. rewrite (prefix_sum_S sorted O w0 Hw0).
    unfold prefix_sum, Qsum. simpl. ring.
  - reflexivity.
  - intros j Hj. lia.
  - rewrite Hk. simpl. exists k. split; [reflexivity|].
    rewrite <- Hlen. split; [lia|]. split; assumption.
Qed.

(** X2.  On an empty list the first read is out of range; on any other list the
    count lies between -1 and one less than the number of walkers, and it
    is -1 exactly when every weight exceeds [max_weight]. *)
Theorem calc_squashable_range (ws : list Q) (max_weight : Q) :
  match ws with
  | [] => calc_squashable_walkers_single_method ws max_weight
          = Raise IndexError
  | _ :: _ =>
      exists n,
        calc_squashable_walkers_single_method ws max_weight = Ok n /\
        -1 <= n <= Z.of_nat (List.length ws) - 1 /\
        (n = -1 <-> Forall (fun w => max_weight < w)%Q ws)
  end.
Proof.
  destruct ws as [|w0 ws']; [reflexivity|].
  set (ws := w0 :: ws').
  destruct (calc_squashable_run ws max_weight) as [k [Hk [Hr [Hf Hs]]]];
    [discriminate|].
  exists (Z.of_nat k - 1). split; [exact Hk|]. split; [lia|].
  destruct (sort_weights_sorted_perm ws) as [Hsorted Hperm].
  pose proof (sort_weights_length ws) as Hlen.
  destruct (sort_weights ws) as [|s0 sorted] eqn:Es; [discriminate Hlen|].
  assert (prefix_sum (s0 :: sorted) 1 == s0)%Q as H1.
  { unfold prefix_sum, Qsum. simpl. ring. }
  assert (In s0 ws) as Hin.
  { eapply Permutation_in; [apply Permutation_sym; exact Hperm|].
    left; reflexivity. }
  split.
  - intro Hn. assert (k = O) as -> by lia.
    assert (max_weight < s0)%Q as Hlt.
    { rewrite <- H1. apply Hs. subst ws. simpl. lia. }
    apply Forall_forall. intros w Hw.
    apply (Permutation_in _ Hperm) in Hw.
    destruct Hw as [<- | Hw]; [exact Hlt|].
    inversion Hsorted as [|? ? _ Hall]; subst.
    rewrite Forall_forall in Hall.
    eapply Qlt_le_trans; [exact Hlt | apply Hall; exact Hw].
  - intro Hall. rewrite Forall_forall in Hall.
    destruct k as [|k]; [reflexivity|]. exfalso.
    assert (prefix_sum (s0 :: sorted) 1 <= max_weight)%Q as Hle
      by (apply Hf; lia).
    rewrite H1 in Hle. apply (Qlt_not_le _ _ (Hall s0 Hin) Hle).
Qed.

(** ** Sorting positions and sorting values *)

Lemma insert_pos_perm (ws : list Q) (i : nat) (l : list nat) :
  Permutation (i :: l) (insert_pos ws i l).
Proof.
  induction l as [|y l IH]; simpl; [reflexivity|].
  destruct (Qlt_bool _ _); [reflexivity|].
  rewrite perm_swap. constructor. exact IH.
Qed.

Lemma np_argsort_perm (ws : list Q) :
  Permutation (seq 0 (List.length ws)) (np_argsort ws).
Proof.
  unfold np_argsort.
  assert (forall l acc,
            Permutation (l ++ acc)
              (fold_left (fun acc i => insert_pos ws i acc) l acc)) as H.
  { induction l as [|x l IH]; intros acc; simpl; [reflexivity|].
    rewrite <- IH. rewrite <- insert_pos_perm. apply Permutation_middle. }
  specialize (H (seq 0 (List.length ws)) []).
  rewrite app_nil_r in H. exact H.
Qed.

Lemma map_insert_pos (ws : list Q) (i : nat) (l : list nat) :
  map (fun j => nth j ws 0%Q) (insert_pos ws i l)
  = insert_sorted (nth i ws 0%Q) (map (fun j => nth j ws 0%Q) l).
Proof.
  induction l as [|y l IH]; simpl; [reflexivity|].
  destruct (Qlt_bool _ _); simpl; [reflexivity|]. rewrite IH. reflexivity.
Qed.

Lemma map_nth_all {A} (l : list A) (d : A) :
  map (fun j => nth j l d) (seq 0 (List.length l)) = l.
Proof.
  induction l as [|x l IH]; simpl; [reflexivity|].
  rewrite <- seq_shift, map_map. simpl. rewrite IH. reflexivity.
Qed.

(** The weights read along [np.argsort] are the weights sorted. *)
Lemma np_argsort_sort_weights (ws : list Q) :
  map (fun j => nth j ws 0%Q) (np_argsort ws) = sort_weights ws.
Proof.
  unfold np_argsort, sort_weights.
  assert (forall l acc,
            map (fun j => nth j ws 0%Q)
              (fold_left (fun acc i => insert_pos ws i acc) l acc)
            = fold_left (fun acc x => insert_sorted x acc)
                (map (fun j => nth j ws 0%Q) l)
                (map (fun j => nth j ws 0%Q) acc)) as H.
  { induction l as [|x l IH]; intros acc; simpl; [reflexivity|].
    rewrite IH, map_insert_pos. reflexivity. }
  rewrite H, map_nth_all. reflexivity.
Qed.

Lemma rmapM_py_index_nth (ws : list Q) (idxs : list nat) :
  Forall (fun i => (i < List.length ws)%nat) idxs ->
  rmapM (py_index ws) idxs = Ok (map (fun j => nth j ws 0%Q) idxs).
Proof.
  intro H. apply rmapM_ok_map. intros i Hi.
  rewrite Forall_forall in H. specialize (H i Hi).
  unfold py_index. destruct (nth_error ws i) as [x|] eqn:E.
  - rewrite (nth_error_nth _ _ _ E). reflexivity.
  - apply nth_error_None in E. lia.
Qed.

Lemma np_argsort_bound (ws : list Q) :
  Forall (fun i => (i < List.length ws)%nat) (np_argsort ws).
Proof.
  apply Forall_forall. intros i Hi.
  apply (Permutation_in _ (Permutation_sym (np_argsort_perm ws))) in Hi.
  apply in_seq in Hi. lia.
Qed.

Lemma Forall_firstn {A} (P : A -> Prop) (n : nat) (l : list A) :
  Forall P l -> Forall P (firstn n l).
Proof.
  intro H. rewrite <- (firstn_skipn n l) in H.
  apply Forall_app in H. tauto.
Qed.

(** ** The single merge group *)

(** X3.  The function returns exactly when the balance is negative; otherwise
    its assertion fails. *)
Theorem decide_merge_groups_returns_iff (walker_weights : list Q)
    (balance : Z) (max_weight : Q) :
  (balance < 0 ->
   exists r, decide_merge_groups_single_method walker_weights balance
               max_weight = Ok r) /\
  (0 <= balance ->
   decide_merge_groups_single_method walker_weights balance max_weight
   = Raise AssertionError).
Proof.
  unfold decide_merge_groups_single_method. split; intro H.
  - assert ((balance <? 0) = true) as -> by (apply Z.ltb_lt; exact H). simpl.
    rewrite rmapM_py_index_nth
      by (apply Forall_firstn, np_argsort_bound).
    simpl. eauto.
  - assert ((balance <? 0) = false) as -> by (apply Z.ltb_ge; exact H).
    reflexivity.
Qed.

(** What the function computes for a negative balance. *)
Lemma decide_merge_groups_run (walker_weights : list Q) (balance : Z)
    (max_weight : Q) :
  balance < 0 ->
  let k := Z.to_nat (1 - balance) in
  Forall (fun i => (i < List.length walker_weights)%nat)
    (firstn k (np_argsort walker_weights)) /\
  map (fun i => nth i walker_weights 0%Q)
    (firstn k (np_argsort walker_weights))
  = firstn k (sort_weights walker_weights) /\
  decide_merge_groups_single_method walker_weights balance max_weight
  = Ok ([firstn k (np_argsort walker_weights)],
        negb (Qlt_bool max_weight
                (prefix_sum (sort_weights walker_weights) k))).
Proof.
  intros H k. unfold decide_merge_groups_single_method.
  assert ((balance <? 0) = true) as -> by (apply Z.ltb_lt; exact H).
  cbn [negb]. cbv zeta.
  replace (Z.abs balance + 1) with (1 - balance) by lia. fold k.
  assert (Forall (fun i => (i < List.length walker_weights)%nat)
            (firstn k (np_argsort walker_weights))) as Hb
    by (apply Forall_firstn, np_argsort_bound).
  assert (map (fun i => nth i walker_weights 0%Q)
            (firstn k (np_argsort walker_weights))
          = firstn k (sort_weights walker_weights)) as Hmap
    by (rewrite <- firstn_map, np_argsort_sort_weights; reflexivity).
  split; [exact Hb|]. split; [exact Hmap|].
  rewrite (rmapM_py_index_nth _ _ Hb). cbv beta iota delta [rbind].
  rewrite Hmap. reflexivity.
Qed.



(** X5.  A debt within the squashable count is payable: when the count of a
    group of walkers is [n], the single merge group proposed for any debt
    of [n] walkers or fewer passes the weight check. *)
Theorem squashable_count_is_payable (walker_weights : list Q)
    (balance n : Z) (max_weight : Q) :
  calc_squashable_walkers_single_method walker_weights max_weight = Ok n ->
  balance < 0 -> - balance <= n ->
  exists group,
    decide_merge_groups_single_method walker_weights balance max_weight
    = Ok ([group], true).
Proof.
  intros Hn Hb Hle.
  destruct (decide_merge_groups_run walker_weights balance max_weight Hb)
    as [_ [_ Hrun]].
  exists (firstn (Z.to_nat (1 - balance)) (np_argsort walker_weights)).
  rewrite Hrun. f_equal. f_equal. apply negb_true_iff.
  destruct (Qlt_bool _ _) eqn:E; [|reflexivity].
  apply Qlt_bool_iff in E. exfalso. revert E. apply Qle_not_lt.
  destruct walker_weights as [|w0 ws']; [discriminate Hn|].
  destruct (calc_squashable_run (w0 :: ws') max_weight)
    as [k [Hk [_ [Hf _]]]]; [discriminate|].
  rewrite Hk in Hn. inversion Hn; subst n.
  apply Hf. lia.
Qed.

Lemma squashable_count_is_payable_witness :
  exists group,
    decide_merge_groups_single_method [3#10; 1#10; 2#10; 1#10] (-2) (1#2)
    = Ok ([group], true).
Proof.
  apply (squashable_count_is_payable [3#10; 1#10; 2#10; 1#10] (-2) 2 (1#2));
    [reflexivity | reflexivity | discriminate].
Defined.

(** ** The cloneable counts without a walker cap *)

Lemma max_num_clones_of_None (min_weight w : Q) :
  max_num_clones_of min_weight None w
  = if Qle_bool min_weight (w / 2) then Raise TypeError else Ok 0.
Proof.
  unfold max_num_clones_of. simpl.
  change (inject_Z 2) with 2%Q.
  destruct (Qle_bool min_weight (w / 2)); reflexivity.
Qed.

(** X6.  With [max_num_walkers] left at [None], the function returns only when
    no walker can be split even once, and then every count is 0; as soon
    as one walker has half its weight at [min_weight] or above, the
    comparison of the split number with [None] raises [TypeError]. *)
Theorem calc_max_num_clones_without_cap (walker_weights : list Q)
    (min_weight : Q) :
  calc_max_num_clones walker_weights min_weight None
  = if existsb (fun w => Qle_bool min_weight (w / 2)) walker_weights
    then Raise TypeError
    else Ok (repeat 0 (List.length walker_weights)).
Proof.
  unfold calc_max_num_clones.
  induction walker_weights as [|w l IH]; [reflexivity|].
  simpl. rewrite max_num_clones_of_None.
  destruct (Qle_bool min_weight (w / 2)); simpl; [reflexivity|].
  rewrite IH. destruct (existsb _ l); reflexivity.
Qed.

(** ** The cloneable counts with a walker cap *)

Lemma max_num_clones_of_run (pmin : Q) (m : Z) (w : Q) :
  exists n,
    max_num_clones_of pmin (Some m) w = Ok (n - 2) /\
    2 <= n /\
    (forall k, 2 <= k < n -> (pmin <= w / inject_Z k)%Q /\ k <= m) /\
    ~ ((pmin <= w / inject_Z n)%Q /\ n <= m).
Proof.
  unfold max_num_clones_of.
  destruct (n_splits_loop_stops w pmin m (n_splits_budget (Some m)) 2)
    as [n [Hr [Hle [Hall Hstop]]]]; [simpl; lia|].
  exists n. rewrite Hr. simpl.
  split; [f_equal; lia|]. split; [exact Hle|]. split; assumption.
Qed.

(** X7.  Every count lies between 0 and [max_num_walkers - 1] (0 when the cap is
    below 2), whatever the weights and [min_weight]. *)
Theorem calc_max_num_clones_bounds (walker_weights : list Q)
    (min_weight : Q) (max_num_walkers : Z) :
  exists counts,
    calc_max_num_clones walker_weights min_weight (Some max_num_walkers)
    = Ok counts /\
    List.length counts = List.length walker_weights /\
    Forall (fun c => 0 <= c <= Z.max 0 (max_num_walkers - 1)) counts.
Proof.
  unfold calc_max_num_clones.
  induction walker_weights as [|w l [counts [Hc [Hl Hf]]]]; simpl.
  - exists []. repeat split. constructor.
  - destruct (max_num_clones_of_run min_weight max_num_walkers w)
      as [n [Hn [H2 [Hall _]]]].
    rewrite Hn, Hc. simpl. exists (n - 2 :: counts).
    split; [reflexivity|]. split; [simpl; lia|].
    constructor; [|exact Hf].
    destruct (Z.eq_dec n 2) as [-> | Hne]; [lia|].
    destruct (Hall (n - 1)) as [_ Hm]; lia.
Qed.

Lemma Qdiv_le_compat_pos (w w' : Q) (k : Z) :
  0 < k -> (w <= w')%Q -> (w / inject_Z k <= w' / inject_Z k)%Q.
Proof.
  intros Hk Hw. unfold Qdiv.
  apply Qmult_le_compat_r; [exact Hw|].
  apply Qlt_le_weak, Qinv_lt_0_compat.
  change 0%Q with (inject_Z 0). rewrite <- Zlt_Qlt. exact Hk.
Qed.

(** X8.  A heavier walker is never allowed fewer clones. *)
Theorem calc_max_num_clones_monotone (ws ws' : list Q) (min_weight : Q)
    (max_num_walkers : Z) (counts counts' : list Z) :
  Forall2 Qle ws ws' ->
  calc_max_num_clones ws min_weight (Some max_num_walkers) = Ok counts ->
  calc_max_num_clones ws' min_weight (Some max_num_walkers) = Ok counts' ->
  Forall2 Z.le counts counts'.
Proof.
  unfold calc_max_num_clones. intro H. revert counts counts'.
  induction H as [|w w' l l' Hw _ IH]; intros counts counts' Hc Hc'.
  - inversion Hc; inversion Hc'; constructor.
  - simpl in Hc, Hc'.
    destruct (max_num_clones_of_run min_weight max_num_walkers w)
      as [n [Hn [H2 [Hall Hstop]]]].
    destruct (max_num_clones_of_run min_weight max_num_walkers w')
      as [n' [Hn' [H2' [Hall' Hstop']]]].
    rewrite Hn in Hc. rewrite Hn' in Hc'. simpl in Hc, Hc'.
    destruct (rmapM _ l) as [r|] eqn:E; [|discriminate].
    destruct (rmapM _ l') as [r'|] eqn:E'; [|discriminate].
    simpl in Hc, Hc'. inversion Hc; inversion Hc'; subst.
    constructor; [|apply IH; reflexivity].
    destruct (Z_le_gt_dec n n') as [Hle | Hgt]; [lia|].
    exfalso. apply Hstop'.
    destruct (Hall n') as [Ha Hb]; [lia|].
    split; [|exact Hb].
    eapply Qle_trans; [exact Ha|]. apply Qdiv_le_compat_pos; [lia | exact Hw].
Qed.

Lemma calc_max_num_clones_monotone_witness :
  Forall2 Z.le [0; 1] [3; 1].
Proof.
  apply (calc_max_num_clones_monotone [1#10; 2#10] [4#10; 2#10] (1#10) 10);
    [|reflexivity|reflexivity].
  repeat constructor; discriminate.
Defined.

(** ** What the clone-assignment loop hands out *)

Lemma list_set_length {A} (l : list A) (i : nat) (v : A) :
  List.length (list_set l i v) = List.length l.
Proof.
  revert i. induction l as [|x l IH]; intros [|i]; simpl; auto.
Qed.

Lemma Zsum_list_set (l : list Z) (i : nat) (x v : Z) :
  nth_error l i = Some x -> Zsum (list_set l i v) = Zsum l - x + v.
Proof.
  revert i. induction l as [|y l IH]; intros [|i] H; simpl in H;
    try discriminate.
  - inversion H; subst. simpl. rewrite !Zsum_cons. lia.
  - simpl. rewrite !Zsum_cons, (IH i H). lia.
Qed.

Lemma list_set_le (l : list Z) (i : nat) (x v : Z) :
  nth_error l i = Some x -> x <= v -> Forall2 Z.le l (list_set l i v).
Proof.
  revert i. induction l as [|y l IH]; intros [|i] H Hle; simpl in H;
    try discriminate.
  - inversion H; subst. simpl. constructor; [exact Hle|].
    clear. induction l; constructor; [lia | assumption].
  - simpl. constructor; [lia | eapply IH; eassumption].
Qed.

Lemma Forall2_Zle_refl (l : list Z) : Forall2 Z.le l l.
Proof. induction l; constructor; [lia | assumption]. Qed.

Lemma Forall2_Zle_trans (a b c : list Z) :
  Forall2 Z.le a b -> Forall2 Z.le b c -> Forall2 Z.le a c.
Proof.
  intro H. revert c. induction H as [|x y l l' Hxy _ IH]; intros c Hc;
    inversion Hc; subst; constructor; [lia | apply IH; assumption].
Qed.

(** One iteration gives one clone to one of the candidates. *)
Lemma clone_step_one (pmin : Q) (idxs : list nat) (ws : list Q)
    (clones clones' : list Z) :
  clone_step pmin idxs ws clones = Ok clones' ->
  exists idx n,
    In idx idxs /\ nth_error clones idx = Some n /\
    clones' = list_set clones idx (n + 1).
Proof.
  unfold clone_step. intro H.
  apply rbind_ok in H. destruct H as [cw [_ H]].
  destruct (forallb _ cw); [discriminate|].
  apply rbind_ok in H. destruct H as [pos [_ H]].
  apply rbind_ok in H. destruct H as [idx [Hidx H]].
  apply rbind_ok in H. destruct H as [n [Hn H]].
  inversion H; subst. exists idx, n.
  apply py_index_ok in Hidx, Hn.
  split; [eapply nth_error_In; exact Hidx|]. split; [exact Hn | reflexivity].
Qed.

(** When the loop completes it has handed out exactly [clones_left]
    clones: the counts add up to that many more, no count went down, the
    list keeps its length, and only candidates received clones. *)
Lemma clone_loop_run (clones_left : nat) (pmin : Q)
    (idxs : list nat) (ws : list Q) (clones clones' : list Z) :
  clone_loop clones_left pmin idxs ws clones = Ok clones' ->
  List.length clones' = List.length clones /\
  Zsum clones' = Zsum clones + Z.of_nat clones_left /\
  Forall2 Z.le clones clones' /\
  (forall i, ~ In i idxs -> nth_error clones' i = nth_error clones i).
Proof.
  revert clones. induction clones_left as [|n IH]; intros clones H.
  - simpl in H. inversion H; subst. split; [reflexivity|].
    split; [lia|]. split; [apply Forall2_Zle_refl | reflexivity].
  - simpl in H. apply rbind_ok in H. destruct H as [c1 [Hs H]].
    destruct (clone_step_one _ _ _ _ _ Hs) as [idx [x [Hin [Hx ->]]]].
    destruct (IH _ H) as [Hl [Hz [Hle Hout]]].
    split; [rewrite Hl; apply list_set_length|].
    split; [rewrite Hz, (Zsum_list_set _ _ _ _ Hx); lia|].
    split.
    + eapply Forall2_Zle_trans; [|exact Hle].
      eapply list_set_le; [exact Hx | lia].
    + intros i Hi. rewrite (Hout i Hi), list_set_nth_error.
      destruct (idx =? i)%nat eqn:E; [|reflexivity].
      apply Nat.eqb_eq in E. subst. contradiction.
Qed.

Section CloneLeaf.

Context {Image : Type}.
Implicit Type t : @RegionTree Image.

Lemma rmapM_taken_of_group (merge_groups : list (list nat)) r :
  rmapM taken_of_group merge_groups = Ok r -> merge_groups = [].
Proof.
  destruct merge_groups as [|g l]; [reflexivity|]. simpl.
  destruct g as [|a [|b [|c g]]]; discriminate.
Qed.

Lemma unzip_pairs_ok (pairs : list (nat * Q)) a b :
  unzip_pairs pairs = Ok (a, b) -> a = map fst pairs.
Proof. destruct pairs; [discriminate|]. intro H. inversion H. reflexivity. Qed.

(** X10.  The clone decision of a leaf returns only when no merge group was
    passed in (any group, empty or not, fails to unpack); it then adds
    exactly the leaf's balance, when positive, to the clone counts, and
    only walkers of the leaf receive clones. *)
Theorem _decide_clone_leaf_returns (leaf : node_id)
    (merge_groups : list (list nat)) (walkers_num_clones clones' : list Z)
    t :
  _decide_clone_leaf leaf merge_groups walkers_num_clones t = Ok clones' ->
  merge_groups = [] /\
  List.length clones' = List.length walkers_num_clones /\
  Zsum clones' = Zsum walkers_num_clones + Z.max 0 (attr_of t balance leaf) /\
  Forall2 Z.le walkers_num_clones clones' /\
  (forall i, ~ In i (walkers_of t leaf) ->
             nth_error clones' i = nth_error walkers_num_clones i).
Proof.
  unfold _decide_clone_leaf, node, attr_of, walkers_of. intro H.
  destruct (lookup_node (nodes t) leaf) as [a|]; [|discriminate].
  simpl in H.
  apply rbind_ok in H. destruct H as [lw [Hlw H]].
  apply rbind_ok in H. destruct H as [taken [Ht H]].
  apply rmapM_taken_of_group in Ht.
  apply rbind_ok in H. destruct H as [[ci cw] [Hu H]].
  apply rbind_ok in H. destruct H as [mx [_ H]].
  destruct (Zsum mx <? balance a); [discriminate|].
  apply clone_loop_run in H. destruct H as [Hl [Hz [Hle Hout]]].
  split; [exact Ht|]. split; [exact Hl|]. split; [lia|].
  split; [exact Hle|].
  intros i Hi. apply Hout. intro Hc. apply Hi.
  apply unzip_pairs_ok in Hu. subst ci.
  apply in_map_iff in Hc. destruct Hc as [[j w] [Hj Hc]]. simpl in Hj.
  subst j. apply filter_In in Hc. destruct Hc as [Hc _].
  apply in_combine_l in Hc. exact Hc.
Qed.

End CloneLeaf.

(** ** The tree the constructor builds *)

Section Constructor.

Context {State Image : Type}.
Variable image : State -> Image.

Lemma repeat_injective (a b : nat) : repeat O a = repeat O b -> a = b.
Proof.
  intro H. apply (f_equal (@List.length nat)) in H.
  rewrite !repeat_length in H. exact H.
Qed.

Lemma chain_nodes_S (n : nat) :
  chain_nodes (S n) = chain_nodes n ++ [(repeat O (S n), fresh_attrs 0)].
Proof.
  unfold chain_nodes. rewrite seq_S, map_app. reflexivity.
Qed.

Lemma chain_edges_S (n : nat) :
  chain_edges (S n) = chain_edges n ++ [(repeat O n, repeat O (S n))].
Proof.
  unfold chain_edges. rewrite seq_S, map_app. reflexivity.
Qed.

Lemma chain_nodes_fresh (n : nat) :
  lookup_node (chain_nodes n) (repeat O (S n)) = None.
Proof.
  destruct (lookup_node _ _) as [a|] eqn:E; [|reflexivity].
  apply lookup_node_In in E. unfold chain_nodes in E.
  apply in_map_iff in E. destruct E as [k [Hk Hin]].
  inversion Hk as [[Hr Ha]]. apply (repeat_injective k (S n)) in Hr.
  apply in_seq in Hin. lia.
Qed.

Lemma chain_edges_fresh (n : nat) :
  ~ In (repeat O n, repeat O (S n)) (chain_edges n).
Proof.
  unfold chain_edges. intro H. apply in_map_iff in H.
  destruct H as [k [Hk Hin]]. inversion Hk as [[Hr Ha]].
  apply (repeat_injective k n) in Hr. apply in_seq in Hin. lia.
Qed.

Lemma first_branch_step (t : @RegionTree Image) (i : nat) :
  nodes t = chain_nodes i -> edges t = chain_edges i ->
  add_edge (repeat O i) (repeat O i ++ [O])
    (add_node (repeat O i ++ [O]) 0 t)
  = with_edges (chain_edges (S i)) (with_nodes (chain_nodes (S i)) t).
Proof.
  intros Hn He.
  assert (repeat O i ++ [O] = repeat O (S i)) as ->
    by (symmetry; apply (repeat_cons i O)).
  assert (has_node t (repeat O (S i)) = false) as Hf
    by (unfold has_node; rewrite Hn, chain_nodes_fresh; reflexivity).
  unfold add_node. rewrite Hf. unfold add_edge.
  destruct (has_edge _ _ _) eqn:E.
  - apply has_edge_spec in E. cbn [edges with_nodes] in E. rewrite He in E.
    exfalso. apply (chain_edges_fresh i). exact E.
  - rewrite chain_nodes_S, chain_edges_S, <- Hn, <- He. reflexivity.
Qed.

Lemma first_branch_fold (t : @RegionTree Image) (n s i : nat) :
  nodes t = chain_nodes i -> edges t = chain_edges i ->
  fold_left
    (fun '(t, parent_id) (_ : nat) =>
       let child_id := parent_id ++ [O] in
       (add_edge parent_id child_id (add_node child_id O t), child_id))
    (seq s n) (t, repeat O i)
  = (with_edges (chain_edges (i + n))
       (with_nodes (chain_nodes (i + n)) t),
     repeat O (i + n)).
Proof.
  revert t s i. induction n as [|n IH]; intros t s i Hn He.
  - simpl. rewrite Nat.add_0_r, <- Hn, <- He. destruct t; reflexivity.
  - simpl. rewrite (first_branch_step t i Hn He).
    assert (repeat O i ++ [O] = repeat O (S i)) as ->
      by (symmetry; apply (repeat_cons i O)).
    rewrite (IH _ (S s) (S i)); [|reflexivity|reflexivity].
    replace (S i + n)%nat with (i + S n)%nat by lia. reflexivity.
Qed.

(** X11.  The constructor accepts the merge method ['single'] only, and then
    returns the chain of one node per level below the root, every node
    with the image of the initial state (image 0) and no walkers, and that
    chain's leaf as the single region. *)
Theorem RegionTree__init__chain (init_state : State)
    (max_n_regions : list Z) (max_region_sizes : list Q)
    (max_num_walkers : option Z) (min_num_walkers : Z) (pmin pmax : Q)
    (merge_method : string) :
  RegionTree__init__ image init_state max_n_regions max_region_sizes
    max_num_walkers min_num_walkers pmin pmax merge_method
  = if String.eqb merge_method "single" then
      let n := List.length max_n_regions in
      Ok (mkRegionTree (chain_nodes n) (chain_edges n) max_n_regions n
            max_region_sizes pmin pmax max_num_walkers min_num_walkers
            merge_method [] [] [image init_state] [repeat O n])
    else Raise AssertionError.
Proof.
  unfold RegionTree__init__, MERGE_METHODS. simpl existsb.
  rewrite orb_false_r.
  destruct (String.eqb merge_method "single"); [|reflexivity].
  cbn [negb].
  set (t1 := add_node ROOT_NODE 0 _).
  pose proof (first_branch_fold t1 (List.length max_n_regions) 0 0) as H.
  change (repeat O 0) with (@nil nat) in H.
  cbv zeta in H. cbv zeta. unfold ROOT_NODE, node_id in *.
  rewrite H; reflexivity.
Qed.

End Constructor.

(** ** Dispensing never completes *)

Section Dispensing.

Context {Image : Type}.
Implicit Type t : @RegionTree Image.

Lemma initial_shares_nodes (cs : list node_id) t :
  Forall (fun c => has_node t c = true) cs ->
  exists sh, initial_shares cs t = (Ok sh, t).
Proof.
  intro H. unfold initial_shares, read.
  assert (exists sh,
            rmapM (fun child_id =>
                     a <- node t child_id ;; Ok (child_id, walker_idxs a)) cs
            = Ok sh) as [sh ->]; [|eauto].
  induction H as [|c l Hc _ [sh IH]]; simpl; [eauto|].
  unfold node, has_node in *.
  destruct (lookup_node (nodes t) c); [|discriminate].
  simpl. rewrite IH. simpl. eauto.
Qed.

(** X15.  Whatever the balance and the number of children, dispensing a parental
    balance to children that are nodes ends in [UnboundLocalError]; with a
    single child the parental balance has been written to the child by
    then, otherwise the tree is as it was. *)
Theorem _dispense_parental_shares_unbound (budget : nat)
    (parental_balance : Z) (children_node_ids : list node_id) t :
  Forall (fun c => has_node t c = true) children_node_ids ->
  _dispense_parental_shares (S budget) parental_balance children_node_ids t
  = (Raise UnboundLocalError,
     match children_node_ids with
     | [child] =>
         with_nodes
           (update_node (nodes t) child (set_balance parental_balance)) t
     | _ => t
     end).
Proof.
  intro H. destruct children_node_ids as [|c1 [|c2 cs]].
  - reflexivity.
  - inversion H; subst. unfold has_node in *.
    unfold _dispense_parental_shares, bind, lift, set_node, ret, local,
      raise. simpl.
    destruct (lookup_node (nodes t) c1); [reflexivity | discriminate].
  - destruct (initial_shares_nodes _ t H) as [sh Hsh].
    unfold _dispense_parental_shares. unfold bind at 1.
    cbn [List.length Nat.eqb Nat.ltb Nat.leb].
    destruct (parental_balance <? 0).
    + unfold _dispense_debit_shares, bind. rewrite Hsh. reflexivity.
    + destruct (0 <? parental_balance); [|reflexivity].
      unfold _dispense_credit_shares, bind. rewrite Hsh. reflexivity.
Qed.

Variable bfs_successors :
  @RegionTree Image -> node_id -> list (node_id * list node_id).

(** X16.  No call of [balance_tree] returns.  It raises [RegionTreeError] only
    when the breadth-first traversal from the root yields no pair at all:
    as soon as there is a parent to visit, the call ends in the dispensing
    of that parent's balance. *)
Theorem balance_tree_never_returns (budget : nat)
    (max_num_walkers min_num_walkers delta_walkers : Z) t :
  exists e,
    fst (balance_tree bfs_successors budget max_num_walkers min_num_walkers
           delta_walkers t) = Raise e /\
    (e = RegionTreeError ->
     bfs_successors
       (with_nodes
          (update_node (nodes t) ROOT_NODE (set_balance delta_walkers)) t)
       ROOT_NODE = []).
Proof.
  unfold balance_tree, balance_tree_propagate.
  unfold bind at 1 2. unfold set_node.
  destruct (lookup_node (nodes t) ROOT_NODE);
    [|simpl; eexists; split; [reflexivity | discriminate]].
  unfold bind at 1. unfold get at 1.
  set (t1 := with_nodes _ t).
  destruct (bfs_successors t1 ROOT_NODE) as [|[parent cs] rest].
  - cbn [for_each ret].
    unfold balance_tree_settle, bind, read.
    destruct (leaf_balances t1);
      [|simpl; eexists; split; [reflexivity | intros; reflexivity]].
    destruct (negb _); simpl; eexists; split;
      try reflexivity; intros; reflexivity.
  - cbn [for_each]. unfold bind at 1 2. unfold read at 1.
    destruct (node_error t1 parent) as [[a ->] | ->];
      [|simpl; eexists; split; [reflexivity | discriminate]].
    unfold _propagate_and_balance_shares. unfold bind at 1.
    destruct (_dispense_parental_shares_raises budget (balance a) cs t1)
      as [e [He Hne]].
    destruct (_dispense_parental_shares budget (balance a) cs t1)
      as [[sh|e'] t2]; simpl in He; [discriminate|].
    inversion He; subst e'. simpl. exists e. split; [reflexivity|].
    intro Hc. contradiction.
Qed.

End Dispensing.

Lemma _dispense_parental_shares_unbound_witness :
  _dispense_parental_shares 1 (-1) [[O]; [1%nat]]
    (Line.two_leaves (Some 10))
  = (Raise UnboundLocalError, Line.two_leaves (Some 10)).
Proof.
  apply (_dispense_parental_shares_unbound O (-1) [[O]; [1%nat]]
           (Line.two_leaves (Some 10))).
  repeat constructor.
Defined.


(** ** Placing no walker *)

Section Idle.

Context {State Image : Type}.
Variable image : State -> Image.
Variable image_distance : Image -> Image -> result Q.
Implicit Type t : @RegionTree Image.

Lemma account_each_idle (ls : list node_id) t :
  (forall n a, lookup_node (nodes t) n = Some a ->
               n_walkers a = 0 /\ walker_idxs a = []) ->
  (forall n, In n ls -> has_node t n = true) ->
  for_each ls (fun n (_ : unit) => account_leaf n) tt t = (Ok tt, t).
Proof.
  intros Hz. induction ls as [|n ls IH]; intro Hn; [reflexivity|].
  cbn [for_each]. unfold bind. rewrite account_leaf_unfold.
  assert (has_node t n = true) as Hh by (apply Hn; left; reflexivity).
  unfold has_node in Hh.
  destruct (lookup_node (nodes t) n) as [a|] eqn:E; [|discriminate].
  destruct (Hz n a E) as [H0 Hi]. rewrite Hi, H0. simpl.
  apply IH. intros n' Hn'. apply Hn. right. exact Hn'.
Qed.

(** X14.  Placing an empty list of walkers returns no new branch and leaves the
    tree as [clear_walkers] leaves it. *)
Theorem place_walkers_no_walker t :
  place_walkers image image_distance [] t = (Ok [], clear_walkers t).
Proof.
  rewrite place_walkers_unfold.
  change (place_all image image_distance [] t)
    with (@Ok (list (@Branch Image)) [], clear_walkers t).
  cbv beta iota.
  rewrite account_each_idle; [reflexivity | |].
  - intros n a Ha. apply clear_walkers_resets in Ha. tauto.
  - intros n Hn. apply leaves_are_nodes, lookup_node_in in Hn.
    destruct Hn as [a Ha]. unfold has_node. rewrite Ha. reflexivity.
Qed.

End Idle.

(** ** The clone-assignment loop and [pmin] *)

Lemma rmapM_ok_in {A B} (f : A -> result B) (l : list A) (r : list B)
    (x : A) :
  rmapM f l = Ok r -> In x l -> exists y, f x = Ok y.
Proof.
  revert r. induction l as [|a l IH]; simpl; intros r H Hin; [contradiction|].
  apply rbind_ok in H. destruct H as [y [Hy H]].
  apply rbind_ok in H. destruct H as [ys [Hys _]].
  destruct Hin as [<- | Hin]; [eauto | eapply IH; eauto].
Qed.

Lemma forallb_false_witness {A} (f : A -> bool) (l : list A) :
  forallb f l = false -> exists x, In x l /\ f x = false.
Proof.
  induction l as [|a l IH]; simpl; [discriminate|].
  destruct (f a) eqn:E; simpl; intro H.
  - destruct (IH H) as [x [Hx Hf]]. exists x. auto.
  - exists a. auto.
Qed.

Lemma marked_not_minus_one (pmin w : Q) (c : Z) :
  (0 < pmin)%Q -> Qeq_bool (marked pmin w c) (-1) = false ->
  (0 < marked pmin w c)%Q.
Proof.
  intros Hp. unfold marked.
  destruct (Qlt_bool (current_child_weight w c) pmin) eqn:E; intro H.
  - discriminate H.
  - eapply Qlt_le_trans; [exact Hp|]. apply Qnot_lt_le. intro Hlt.
    apply Qlt_bool_iff in Hlt. congruence.
Qed.

(** An iteration that completes gave its clone to a candidate whose
    children, under the clones it had, weighed [pmin] or more. *)
Lemma clone_step_eligible (pmin : Q) (idxs : list nat) (ws : list Q)
    (clones clones' : list Z) :
  (0 < pmin)%Q ->
  clone_step pmin idxs ws clones = Ok clones' ->
  exists pos idx w c,
    candidate idxs ws clones pos idx w c /\
    clones' = list_set clones idx (c + 1) /\
    (pmin <= current_child_weight w c)%Q.
Proof.
  intros Hp H. unfold clone_step in H.
  destruct (clone_child_weights pmin clones idxs ws) as [cws|] eqn:Hcws;
    [|discriminate].
  simpl in H.
  assert (forall pos idx w,
            nth_error idxs pos = Some idx -> nth_error ws pos = Some w ->
            (idx < List.length clones)%nat) as in_range.
  { intros pos idx w H1 H2.
    assert (In (idx, w) (combine idxs ws)) as Hin
      by (eapply nth_error_In; apply combine_nth_error; eauto).
    destruct (rmapM_ok_in _ _ _ _ Hcws Hin) as [y Hy].
    unfold clone_child_weight in Hy.
    destruct (py_index clones idx) as [n|] eqn:E; [|discriminate].
    apply py_index_ok in E. apply nth_error_Some. congruence. }
  destruct (clone_child_weights_ok pmin idxs ws clones in_range)
    as [cws' [Hcws' [Hlen Hnth]]].
  rewrite Hcws in Hcws'. inversion Hcws'; subst cws'. clear Hcws'.
  destruct (forallb _ cws) eqn:Eall; [discriminate|].
  apply forallb_false_witness in Eall. destruct Eall as [x0 [Hin0 Hx0]].
  apply In_nth_error in Hin0. destruct Hin0 as [pos0 Hn0].
  destruct (proj1 (Hnth pos0 x0) Hn0) as [idx0 [w0 [c0 [Hc0 ->]]]].
  pose proof (marked_not_minus_one pmin w0 c0 Hp Hx0) as Hpos0.
  assert (pos0 < List.length cws)%nat as Hlt0
    by (apply nth_error_Some; congruence).
  destruct (np_argsort_last cws) as [pos [Hlast [Hlt Hmax]]]; [lia|].
  rewrite Hlast in H. simpl in H.
  destruct (nth_error cws pos) as [cw|] eqn:Ecw;
    [|apply nth_error_None in Ecw; lia].
  destruct (proj1 (Hnth pos cw) Ecw) as [idx [w [c [Hc ->]]]].
  assert (marked pmin w0 c0 <= marked pmin w c)%Q as Hge.
  { specialize (Hmax pos0 Hlt0).
    rewrite (nth_error_nth _ _ 0%Q Hn0), (nth_error_nth _ _ 0%Q Ecw) in Hmax.
    exact Hmax. }
  destruct (marked_positive pmin w c) as [Hm He];
    [eapply Qlt_le_trans; eauto|].
  destruct Hc as [H1 [H2 H3]].
  assert (py_index idxs pos = Ok idx) as Hi by (apply py_index_ok; exact H1).
  rewrite Hi in H. simpl in H.
  assert (py_index clones idx = Ok c) as Hci by (apply py_index_ok; exact H3).
  rewrite Hci in H. simpl in H. inversion H.
  exists pos, idx, w, c. split; [repeat split; assumption|].
  split; [reflexivity | exact He].
Qed.

(** X9.  The loop checks [pmin] one clone behind.  With distinct candidates and
    a positive [pmin], a walker that has received clones ends with a count
    [c'] such that [weight / c'] is [pmin] or more: the weight its
    children had before the last clone was added. *)
Theorem clone_loop_respects_pmin (clones_left : nat) (pmin : Q)
    (idxs : list nat) (ws : list Q) (clones clones' : list Z) :
  (0 < pmin)%Q -> NoDup idxs ->
  clone_loop clones_left pmin idxs ws clones = Ok clones' ->
  forall pos idx w c c',
    candidate idxs ws clones pos idx w c ->
    nth_error clones' idx = Some c' -> c < c' ->
    (pmin <= w / inject_Z c')%Q.
Proof.
  intros Hp Hnd. revert clones.
  induction clones_left as [|n IH]; intros clones H pos idx w c c' Hc Hc' Hlt.
  - simpl in H. inversion H; subst clones'.
    destruct Hc as [_ [_ H3]]. rewrite H3 in Hc'. inversion Hc'. lia.
  - simpl in H. apply rbind_ok in H. destruct H as [clones1 [Hs H]].
    destruct (clone_step_eligible _ _ _ _ _ Hp Hs)
      as [pos1 [idx1 [w1 [c1 [[G1 [G2 G3]] [-> He]]]]]].
    destruct Hc as [H1 [H2 H3]].
    destruct (Nat.eq_dec idx1 idx) as [-> | Hne].
    + assert (pos1 = pos) as ->.
      { apply (proj1 (NoDup_nth_error idxs) Hnd).
        - apply nth_error_Some. congruence.
        - congruence. }
      assert (w1 = w) as -> by congruence.
      assert (c1 = c) as -> by congruence.
      destruct (Z.eq_dec c' (c + 1)) as [-> | Hd]; [exact He|].
      apply (IH _ H pos idx w (c + 1) c'); [|exact Hc'|lia].
      repeat split; try assumption.
      rewrite list_set_nth_error, Nat.eqb_refl, H3. reflexivity.
    + apply (IH _ H pos idx w c c'); [|exact Hc'|exact Hlt].
      repeat split; try assumption.
      rewrite list_set_nth_error.
      destruct (idx1 =? idx)%nat eqn:E; [|exact H3].
      apply Nat.eqb_eq in E. contradiction.
Qed.

Lemma clone_loop_respects_pmin_witness :
  (1#10 <= (4#10) / inject_Z 1)%Q.
Proof.
  apply (clone_loop_respects_pmin 2 (1#10) [O; 2%nat] [4#10; 3#10]
           [0; 0; 0] [1; 0; 1]
           ltac:(reflexivity)
           ltac:(repeat constructor; simpl; intuition discriminate)
           ltac:(reflexivity)
           O O (4#10) 0 1);
    [repeat split | reflexivity | reflexivity].
Defined.

(** ** Numbered trees *)

(** ** Sorting the children *)

Lemma node_id_ltb_snoc (p : node_id) (a b : nat) :
  node_id_ltb (p ++ [a]) (p ++ [b]) = (a <? b)%nat.
Proof.
  induction p as [|x p IH]; simpl.
  - destruct (a <? b)%nat eqn:E; [reflexivity|].
    destruct (b <? a)%nat; reflexivity.
  - rewrite Nat.ltb_irrefl. exact IH.
Qed.

Lemma sort_ids_snoc (l : list node_id) (x : node_id) :
  sort_ids (l ++ [x]) = insert_id x (sort_ids l).
Proof. unfold sort_ids. rewrite fold_left_app. reflexivity. Qed.

Lemma insert_id_last (p : node_id) (k s n : nat) :
  (s + n <= k)%nat ->
  insert_id (p ++ [k]) (map (fun i => p ++ [i]) (seq s n))
  = map (fun i => p ++ [i]) (seq s n) ++ [p ++ [k]].
Proof.
  revert s. induction n as [|n IH]; intros s H; simpl; [reflexivity|].
  rewrite node_id_ltb_snoc.
  assert ((k <? s)%nat = false) as -> by (apply Nat.ltb_ge; lia).
  rewrite IH by lia. reflexivity.
Qed.

Lemma kids_S (u : node_id) (k : nat) : kids u (S k) = kids u k ++ [u ++ [k]].
Proof. unfold kids. rewrite seq_S, map_app. reflexivity. Qed.

Lemma insert_id_kids (p : node_id) (k : nat) :
  insert_id (p ++ [k]) (kids p k) = kids p (S k).
Proof. rewrite kids_S. apply insert_id_last. lia. Qed.

Lemma kids_length (u : node_id) (k : nat) : List.length (kids u k) = k.
Proof. unfold kids. rewrite length_map, length_seq. reflexivity. Qed.

Lemma kids_In (u v : node_id) (k : nat) :
  In v (kids u k) <-> exists i, (i < k)%nat /\ v = u ++ [i].
Proof.
  unfold kids. rewrite in_map_iff. split.
  - intros [i [<- Hi]]. apply in_seq in Hi. exists i. split; [lia|reflexivity].
  - intros [i [Hi ->]]. exists i. split; [reflexivity|]. apply in_seq. lia.
Qed.

Lemma kids_nth (u : node_id) (k i : nat) :
  (i < k)%nat -> nth_error (kids u k) i = Some (u ++ [i]).
Proof.
  intro H. unfold kids. rewrite nth_error_map.
  rewrite (nth_error_nth' _ O) by (rewrite length_seq; exact H).
  rewrite seq_nth by exact H. reflexivity.
Qed.

Lemma snoc_injective (u : node_id) (i j : nat) : u ++ [i] = u ++ [j] -> i = j.
Proof. intro H. apply app_inv_head in H. inversion H. reflexivity. Qed.

Section Numbering.

Context {Image : Type}.
Implicit Type t : @RegionTree Image.

Lemma successors_add_edge t u v w :
  has_edge t u v = false ->
  successors (add_edge u v t) w
  = if node_id_eqb u w then successors t w ++ [v] else successors t w.
Proof.
  intro H. unfold add_edge. rewrite H. unfold successors. simpl.
  rewrite filter_app, map_app. simpl.
  destruct (node_id_eqb u w); simpl; [reflexivity | apply app_nil_r].
Qed.

Lemma successors_add_node t c idx w :
  successors (add_node c idx t) w = successors t w.
Proof.
  unfold successors. destruct (add_node_fields t c idx) as [-> _].
  reflexivity.
Qed.

Lemma children_kids_successors t u k v :
  children t u = Ok (kids u k) ->
  (In (u, v) (edges t) <-> exists i, (i < k)%nat /\ v = u ++ [i]).
Proof.
  unfold children. destruct (has_node t u); [|discriminate].
  intro H. inversion H as [H1].
  rewrite <- kids_In, <- H1, sort_ids_In. symmetry. apply successors_edge.
Qed.


Lemma add_node_edge_fresh t p c idx :
  has_node t c = false -> ~ In (p, c) (edges t) ->
  add_edge p c (add_node c idx t) = grown t p c idx.
Proof.
  intros Hn He. unfold add_node. rewrite Hn. unfold add_edge.
  destruct (has_edge _ p c) eqn:E; [|reflexivity].
  apply has_edge_spec in E. contradiction.
Qed.

Lemma lookup_grown t p c idx n :
  has_node t c = false ->
  lookup_node (nodes (grown t p c idx)) n
  = if node_id_eqb n c then Some (fresh_attrs idx)
    else lookup_node (nodes t) n.
Proof.
  intro Hn. unfold grown. cbn [nodes with_edges with_nodes].
  rewrite lookup_node_app.
  destruct (node_id_eqb n c) eqn:E.
  - apply node_id_eqb_eq in E. subst n. unfold has_node in Hn.
    destruct (lookup_node (nodes t) c); [discriminate | reflexivity].
  - destruct (lookup_node (nodes t) n); reflexivity.
Qed.

Lemma has_node_grown t p c idx n :
  has_node t c = false ->
  has_node (grown t p c idx) n = has_node t n || node_id_eqb n c.
Proof.
  intro Hn. unfold has_node at 1. rewrite lookup_grown by exact Hn.
  destruct (node_id_eqb n c) eqn:E.
  - rewrite orb_true_r. reflexivity.
  - rewrite orb_false_r. reflexivity.
Qed.

Lemma successors_grown t p c idx w :
  successors (grown t p c idx) w
  = if node_id_eqb p w then successors t w ++ [c] else successors t w.
Proof.
  unfold successors, grown. cbn [edges with_edges with_nodes].
  rewrite filter_app, map_app. simpl.
  destruct (node_id_eqb p w); simpl; [reflexivity | apply app_nil_r].
Qed.

Lemma children_grown t p c idx w :
  has_node t c = false -> has_node t w = true ->
  children (grown t p c idx) w
  = if node_id_eqb p w
    then cs <- children t w ;; Ok (insert_id c cs)
    else children t w.
Proof.
  intros Hn Hw. unfold children.
  rewrite has_node_grown by exact Hn. rewrite Hw. simpl.
  rewrite successors_grown.
  destruct (node_id_eqb p w); [|reflexivity].
  rewrite sort_ids_snoc. reflexivity.
Qed.

Lemma no_successors t u :
  (forall v, ~ In (u, v) (edges t)) -> successors t u = [].
Proof.
  intro H. destruct (successors t u) as [|v l] eqn:E; [reflexivity|].
  exfalso. apply (H v). apply successors_edge. rewrite E. left; reflexivity.
Qed.

Lemma snoc_neq (p : node_id) (k : nat) : p <> p ++ [k].
Proof.
  intro H. apply (f_equal (@List.length nat)) in H.
  rewrite length_app in H. simpl in H. lia.
Qed.

(** A new child keeps the tree numbered; the child becomes the node that
    still waits for a child of its own. *)
Lemma numbered_add_child t p idx hole k :
  numbered_but t hole -> (hole = None \/ hole = Some p) ->
  has_node t p = true -> (List.length p < _n_levels t)%nat ->
  (idx < List.length (_images t))%nat ->
  children t p = Ok (kids p k) ->
  Z.of_nat (S k) <= region_cap t (List.length p) ->
  has_node t (p ++ [k]) = false /\
  add_child p idx t = (Ok (p ++ [k]), grown t p (p ++ [k]) idx) /\
  numbered_but (grown t p (p ++ [k]) idx) (Some (p ++ [k])) /\
  children (grown t p (p ++ [k]) idx) (p ++ [k]) = Ok (kids (p ++ [k]) 0).
Proof.
  intros Hnb Hhole Hp Hlen Hidx Hk Hcap.
  set (c := p ++ [k]).
  assert (has_node t c = false) as Hfresh.
  { destruct (has_node t c) eqn:E; [|reflexivity]. exfalso.
    apply (nb_parent _ _ Hnb) in E.
    apply (children_kids_successors _ _ _ _ Hk) in E.
    destruct E as [i [Hi E]]. apply snoc_injective in E. lia. }
  assert (~ In (p, c) (edges t)) as Hnoedge.
  { intro E. apply (nb_edges _ _ Hnb) in E. destruct E as [_ E]. congruence. }
  assert (forall v, ~ In (c, v) (edges t)) as Hleaf.
  { intros v E. apply (nb_edges _ _ Hnb) in E. destruct E as [E _].
    congruence. }
  assert (children (grown t p c idx) c = Ok (kids c 0)) as Hc.
  { unfold children. rewrite has_node_grown by exact Hfresh.
    rewrite node_id_eqb_refl, orb_true_r. rewrite successors_grown.
    assert (node_id_eqb p c = false) as ->
      by (apply node_id_eqb_neq, snoc_neq).
    rewrite (no_successors t c Hleaf). reflexivity. }
  split; [exact Hfresh|]. split.
  { rewrite add_child_unfold, Hk, kids_length. fold c.
    rewrite (add_node_edge_fresh t p c idx Hfresh Hnoedge). reflexivity. }
  split; [|exact Hc].
  constructor.
  - rewrite has_node_grown by exact Hfresh.
    rewrite (nb_root _ _ Hnb). reflexivity.
  - intros u v E. unfold grown in E. cbn [edges with_edges with_nodes] in E.
    rewrite !has_node_grown by exact Hfresh.
    apply in_app_or in E. destruct E as [E | [E | []]].
    + apply (nb_edges _ _ Hnb) in E. destruct E as [-> ->]. split; reflexivity.
    + inversion E; subst u v. rewrite Hp, node_id_eqb_refl, orb_true_r.
      split; reflexivity.
  - intros u Hu. rewrite has_node_grown in Hu by exact Hfresh.
    destruct (node_id_eqb u c) eqn:Ec.
    + apply node_id_eqb_eq in Ec. subst u. exists O.
      split; [exact Hc|]. split; [unfold region_cap; lia|].
      intros _ Hne. exfalso. apply Hne. reflexivity.
    + rewrite orb_false_r in Hu.
      rewrite (children_grown t p c idx u Hfresh Hu).
      destruct (node_id_eqb p u) eqn:Ep.
      * apply node_id_eqb_eq in Ep. subst u. rewrite Hk. simpl.
        exists (S k). split; [unfold c; rewrite insert_id_kids; reflexivity|].
        split; [exact Hcap | intros; lia].
      * destruct (nb_kids _ _ Hnb u Hu) as [k' [H1 [H2 H3]]].
        exists k'. split; [exact H1|]. split; [exact H2|].
        intros Hl _. apply H3; [exact Hl|].
        apply node_id_eqb_neq in Ep.
        destruct Hhole as [-> | ->]; [discriminate | congruence].
  - intros u i Hu. rewrite has_node_grown in Hu by exact Hfresh.
    unfold grown. cbn [edges with_edges with_nodes]. apply in_or_app.
    destruct (node_id_eqb (u ++ [i]) c) eqn:Ec.
    + apply node_id_eqb_eq in Ec. unfold c in Ec.
      apply app_inj_tail in Ec. destruct Ec as [-> ->].
      right. left. reflexivity.
    + rewrite orb_false_r in Hu. left. apply (nb_parent _ _ Hnb). exact Hu.
  - intros u Hu. rewrite has_node_grown in Hu by exact Hfresh.
    change (_n_levels (grown t p c idx)) with (_n_levels t).
    destruct (node_id_eqb u c) eqn:Ec.
    + apply node_id_eqb_eq in Ec. subst u. unfold c.
      rewrite length_app. simpl. lia.
    + rewrite orb_false_r in Hu. apply (nb_depth _ _ Hnb). exact Hu.
  - intros u a Hu. rewrite lookup_grown in Hu by exact Hfresh.
    change (_images (grown t p c idx)) with (_images t).
    destruct (node_id_eqb u c).
    + inversion Hu; subst a. exact Hidx.
    + apply (nb_image _ _ Hnb u). exact Hu.
  - exact (nb_regions _ _ Hnb).
  - exact (nb_sizes _ _ Hnb).
Qed.


Lemma extends_refl t : extends t t.
Proof. constructor; try reflexivity; [auto | congruence]. Qed.

Lemma extends_trans t1 t2 t3 : extends t1 t2 -> extends t2 t3 -> extends t1 t3.
Proof.
  intros [A1 A2 A3 A4 A5] [B1 B2 B3 B4 B5]. constructor; try congruence.
  - auto.
  - intros n a H3 H1. destruct (lookup_node (nodes t2) n) as [a2|] eqn:E.
    + rewrite (B1 _ _ E) in H3. inversion H3; subst a2. apply (A2 n); auto.
    + apply (B2 n); auto.
Qed.

Lemma extends_has_node t t' n :
  extends t t' -> has_node t n = true -> has_node t' n = true.
Proof.
  intros E H. unfold has_node in *.
  destruct (lookup_node (nodes t) n) as [a|] eqn:Ea; [|discriminate].
  rewrite (ex_old _ _ E _ _ Ea). reflexivity.
Qed.

Lemma extends_grown t p c idx :
  has_node t c = false -> extends t (grown t p c idx).
Proof.
  intro Hf. constructor; try reflexivity.
  - intros n a H. rewrite lookup_grown by exact Hf.
    destruct (node_id_eqb n c) eqn:E; [|exact H].
    apply node_id_eqb_eq in E. subst n. unfold has_node in Hf.
    rewrite H in Hf. discriminate.
  - intros n a H Hn. rewrite lookup_grown in H by exact Hf.
    destruct (node_id_eqb n c); [|congruence].
    inversion H. split; reflexivity.
Qed.

Lemma numbered_but_leaf t h :
  numbered_but t (Some h) -> (_n_levels t <= List.length h)%nat ->
  numbered t.
Proof.
  intros [H1 H2 H3 H4 H5 H6 H7 H8] Hh. constructor; try assumption.
  intros u Hu. destruct (H3 u Hu) as [k [K1 [K2 K3]]].
  exists k. split; [exact K1|]. split; [exact K2|].
  intros Hl _. apply K3; [exact Hl|]. intro E. inversion E; subst. lia.
Qed.

Lemma numbered_hole t h : numbered t -> numbered_but t h.
Proof.
  intros [H1 H2 H3 H4 H5 H6 H7 H8]. constructor; try assumption.
  intros u Hu. destruct (H3 u Hu) as [k [K1 [K2 K3]]].
  exists k. split; [exact K1|]. split; [exact K2|].
  intros Hl _. apply K3; [exact Hl | discriminate].
Qed.

(** The loop of [branch_tree], entered at a node that can take one more
    child. *)
Lemma branch_loop (idx : nat) :
  forall levels s t cur last k hole,
    numbered_but t hole -> (hole = None \/ hole = Some cur) ->
    has_node t cur = true ->
    (List.length cur + S levels = _n_levels t)%nat ->
    (idx < List.length (_images t))%nat ->
    children t cur = Ok (kids cur k) ->
    Z.of_nat (S k) <= region_cap t (List.length cur) ->
    exists leaf t',
      for_each (seq s (S levels))
        (fun (_ : nat) '(parent_id, _) =>
           bind (add_child parent_id idx)
             (fun child_id => ret (child_id, Some child_id)))
        (cur, last) t
      = (Ok (leaf, Some leaf), t') /\
      numbered t' /\ extends t t' /\
      List.length leaf = _n_levels t /\
      firstn (S (List.length cur)) leaf = cur ++ [k] /\
      has_node t leaf = false /\
      lookup_node (nodes t') leaf = Some (fresh_attrs idx) /\
      _images t' = _images t /\ _regions t' = _regions t.
Proof.
  induction levels as [|levels IH];
    intros s t cur last k hole Hnb Hhole Hcur Hlen Hidx Hk Hcap.
  - destruct (numbered_add_child t cur idx hole k Hnb Hhole Hcur
                ltac:(lia) Hidx Hk Hcap) as [Hf [Ha [Hn Hc]]].
    exists (cur ++ [k]), (grown t cur (cur ++ [k]) idx).
    split.
    { cbn [seq for_each]. unfold bind at 1 2. rewrite Ha. reflexivity. }
    split.
    { apply (numbered_but_leaf _ _ Hn).
      change (_n_levels (grown t cur (cur ++ [k]) idx)) with (_n_levels t).
      rewrite length_app. simpl. lia. }
    split; [apply extends_grown; exact Hf|].
    split; [rewrite length_app; simpl; lia|].
    split.
    { replace (S (List.length cur)) with (List.length (cur ++ [k]))
        by (rewrite length_app; simpl; lia).
      apply firstn_all. }
    split; [exact Hf|].
    split; [rewrite lookup_grown, node_id_eqb_refl by exact Hf; reflexivity|].
    split; reflexivity.
  - destruct (numbered_add_child t cur idx hole k Hnb Hhole Hcur
                ltac:(lia) Hidx Hk Hcap) as [Hf [Ha [Hn Hc]]].
    set (c := cur ++ [k]) in *. set (t1 := grown t cur c idx) in *.
    assert (has_node t1 c = true) as Hc1.
    { unfold t1. rewrite has_node_grown, node_id_eqb_refl by exact Hf.
      apply orb_true_r. }
    destruct (IH (S s) t1 c (Some c) O (Some c) Hn (or_intror eq_refl) Hc1)
      as [leaf [t' [Hrun [Hn' [He [Hl [Hp [Hfl [Hlk [Hi Hr]]]]]]]]]].
    { unfold c. rewrite length_app. simpl.
      change (_n_levels t1) with (_n_levels t). lia. }
    { exact Hidx. }
    { exact Hc. }
    { unfold region_cap. lia. }
    exists leaf, t'.
    split.
    { change (seq s (S (S levels))) with (s :: seq (S s) (S levels)).
      cbn [for_each]. unfold bind at 1 2. rewrite Ha. unfold ret at 1.
      exact Hrun. }
    split; [exact Hn'|].
    split; [eapply extends_trans; [apply extends_grown; exact Hf | exact He]|].
    split; [exact Hl|].
    split.
    { assert (List.length c = S (List.length cur)) as Hlc
        by (unfold c; rewrite length_app; simpl; lia).
      assert (firstn (List.length c) (firstn (S (List.length c)) leaf)
              = firstn (List.length c) leaf) as Hq
        by (rewrite firstn_firstn; f_equal; lia).
      rewrite Hp, firstn_app, firstn_all, Nat.sub_diag in Hq.
      simpl in Hq. rewrite app_nil_r in Hq.
      rewrite <- Hlc. symmetry. exact Hq. }
    split.
    { destruct (has_node t leaf) eqn:E; [|reflexivity].
      assert (has_node t1 leaf = true) as E1
        by (eapply extends_has_node; [apply extends_grown; exact Hf|exact E]).
      congruence. }
    split; [exact Hlk|].
    split; [rewrite Hi | rewrite Hr]; reflexivity.
Qed.


Lemma numbered_with_images t h (img : Image) :
  numbered_but t h -> numbered_but (with_images (_images t ++ [img]) t) h.
Proof.
  intros [H1 H2 H3 H4 H5 H6 H7 H8]. constructor; try assumption.
  intros u a Hu. cbn [_images with_images]. rewrite length_app. simpl.
  specialize (H6 u a Hu). lia.
Qed.

Lemma numbered_with_regions t h (r : list node_id) :
  numbered_but t h -> numbered_but (with_regions r t) h.
Proof. intros [H1 H2 H3 H4 H5 H6 H7 H8]. constructor; assumption. Qed.

(** [branch_tree] under a node that can take one more region: the call
    returns a new leaf under a new child of the parent, adds the image
    and the region, and keeps the tree numbered; every node of before is
    as it was. *)
Lemma branch_tree_run t (parent_id : node_id) (img : Image) (k : nat) :
  numbered t -> has_node t parent_id = true ->
  (List.length parent_id < _n_levels t)%nat ->
  children t parent_id = Ok (kids parent_id k) ->
  Z.of_nat (S k) <= region_cap t (List.length parent_id) ->
  exists leaf t',
    branch_tree parent_id img t = (Ok leaf, t') /\
    numbered t' /\ extends t t' /\
    List.length leaf = _n_levels t /\
    firstn (S (List.length parent_id)) leaf = parent_id ++ [k] /\
    has_node t leaf = false /\
    lookup_node (nodes t') leaf
    = Some (fresh_attrs (List.length (_images t))) /\
    _images t' = _images t ++ [img] /\
    _regions t' = _regions t ++ [leaf].
Proof.
  intros Hnb Hp Hlen Hk Hcap.
  set (t0 := with_images (_images t ++ [img]) t).
  destruct (branch_loop (List.length (_images t))
              (_n_levels t - List.length parent_id - 1)
              (List.length parent_id) t0 parent_id None k None)
    as [leaf [t1 [Hrun [Hn [He [Hl [Hf [Hfr [Hlk [Hi Hr]]]]]]]]]].
  - apply numbered_with_images. exact Hnb.
  - left; reflexivity.
  - exact Hp.
  - change (_n_levels t0) with (_n_levels t). lia.
  - unfold t0. cbn [_images with_images]. rewrite length_app. simpl. lia.
  - exact Hk.
  - exact Hcap.
  - exists leaf, (with_regions (_regions t1 ++ [leaf]) t1).
    split.
    { unfold branch_tree. unfold bind at 1. unfold get at 1.
      unfold bind at 1. unfold modify at 1. fold t0.
      replace (_n_levels t - List.length parent_id)%nat
        with (S (_n_levels t - List.length parent_id - 1)) by lia.
      unfold bind at 1. rewrite Hrun. reflexivity. }
    split; [apply numbered_with_regions; exact Hn|].
    split.
    { destruct He as [E1 E2 E3 E4 E5]. constructor; assumption. }
    split; [exact Hl|]. split; [exact Hf|]. split; [exact Hfr|].
    split; [exact Hlk|].
    split; [exact Hi | cbn [_regions with_regions]; rewrite Hr; reflexivity].
Qed.

End Numbering.

(** ** Descending a numbered tree *)

Section Descend.

Context {State Image : Type}.
Variable image : State -> Image.
Variable image_distance : Image -> Image -> result Q.
Implicit Type t : @RegionTree Image.

Lemma numbered_prefix t h (n : node_id) (k : nat) :
  numbered_but t h -> has_node t n = true ->
  has_node t (firstn k n) = true.
Proof.
  intros Hnb. revert k. induction n as [|i u IH] using rev_ind; intros k Hn.
  - rewrite firstn_nil. exact Hn.
  - assert (has_node t u = true) as Hu.
    { apply (nb_parent _ _ Hnb) in Hn. apply (nb_edges _ _ Hnb) in Hn.
      tauto. }
    destruct (firstn_snoc u i k) as [-> | ->]; [exact Hn | apply IH; exact Hu].
Qed.

Lemma numbered_child t u k i :
  numbered t -> children t u = Ok (kids u k) -> (i < k)%nat ->
  has_node t (u ++ [i]) = true.
Proof.
  intros Hnb Hk Hi.
  assert (In (u, u ++ [i]) (edges t)) as E
    by (apply (children_kids_successors _ _ _ _ Hk); eauto).
  apply (nb_edges _ _ Hnb) in E. tauto.
Qed.

Hypothesis metric_total : forall x y, exists d, image_distance x y = Ok d.

Lemma assign_levels_numbered t st :
  numbered t ->
  forall levels nd cache,
    has_node t nd = true ->
    (List.length nd + levels = _n_levels t)%nat ->
    exists assignment dists,
      assign_levels image image_distance t st levels nd cache
      = Ok (assignment, dists) /\
      List.length assignment = levels /\ List.length dists = levels /\
      has_node t (nd ++ assignment) = true.
Proof.
  intros Hnb. induction levels as [|levels IH]; intros nd cache Hnd Hlen.
  - exists [], []. rewrite app_nil_r. repeat split. exact Hnd.
  - destruct (nb_kids _ _ Hnb nd Hnd) as [k [Hk [_ Hpos]]].
    specialize (Hpos ltac:(lia) ltac:(discriminate)).
    destruct (assign_level_dists_total image image_distance
                t st (kids nd k) cache) as [ds [cache' Hds]].
    { intros c Hc. apply kids_In in Hc. destruct Hc as [i [Hi ->]].
      pose proof (numbered_child t nd k i Hnb Hk Hi) as Hc.
      unfold has_node in Hc.
      destruct (lookup_node (nodes t) (nd ++ [i])) as [a|] eqn:Ea;
        [|discriminate].
      pose proof (nb_image _ _ Hnb _ _ Ea) as Hi'.
      destruct (nth_error (_images t) (image_idx a)) as [img|] eqn:Ei;
        [|apply nth_error_None in Ei; lia].
      destruct (metric_total (image st) img) as [d Hd].
      exists a, img, d. auto. }
    pose proof (assign_level_dists_length image image_distance _ _ _ _ _ _
                  Hds) as Hdl.
    rewrite kids_length in Hdl.
    destruct (np_argmin_first_min ds) as [i [d [Hi [Hd _]]]].
    { destruct ds; [simpl in Hdl; lia | discriminate]. }
    assert (i < k)%nat as Hik
      by (rewrite <- Hdl; apply nth_error_Some; congruence).
    destruct (IH (nd ++ [i]) cache') as [a [dists [Ha [Hla [Hld Hn]]]]].
    { apply (numbered_child t nd k i Hnb Hk Hik). }
    { rewrite length_app. simpl. lia. }
    exists (i :: a), (d :: dists).
    split.
    { simpl. rewrite Hk. simpl. rewrite Hds. simpl. rewrite Hi. simpl.
      assert (py_index ds i = Ok d) as -> by (apply py_index_ok; exact Hd).
      simpl.
      assert (py_index (kids nd k) i = Ok (nd ++ [i])) as ->
        by (apply py_index_ok, kids_nth; exact Hik).
      simpl. rewrite Ha. reflexivity. }
    split; [simpl; lia|]. split; [simpl; lia|].
    rewrite <- app_assoc in Hn. exact Hn.
Qed.

(** On a numbered tree, with a metric that answers, [assign] returns the
    identifier of a leaf of the tree, with one distance per level. *)
Lemma assign_leaf t (st : State) :
  numbered t ->
  exists assignment dists,
    assign image image_distance t st = Ok (assignment, dists) /\
    In assignment (leaves t) /\
    List.length dists = _n_levels t.
Proof.
  intro Hnb.
  destruct (assign_levels_numbered t st Hnb (_n_levels t) ROOT_NODE [])
    as [a [ds [Ha [Hla [Hld Hn]]]]].
  - exact (nb_root _ _ Hnb).
  - reflexivity.
  - exists a, ds. split; [exact Ha|]. split; [|exact Hld].
    unfold leaves. apply filter_In. split.
    + unfold node_ids. apply lookup_node_in. unfold has_node in Hn.
      simpl in Hn. destruct (lookup_node (nodes t) a); [eauto|discriminate].
    + apply Nat.eqb_eq. exact Hla.
Qed.


Lemma place_branching_cons (walker : @Walker State) (a : node_id)
    (level : nat) (d : Q) (rest : list Q) t :
  place_branching image walker a level (d :: rest) t =
  match py_index (_max_region_sizes t) level with
  | Raise e => (Raise e, t)
  | Ok size =>
      if Qlt_bool size d then
        match children t (firstn level a) with
        | Raise e => (Raise e, t)
        | Ok cs =>
            match py_index (_max_n_regions t) level with
            | Raise e => (Raise e, t)
            | Ok max_n =>
                if Z.of_nat (List.length cs) <? max_n then
                  match branch_tree (firstn level a) (image (state walker)) t
                  with
                  | (Ok leaf, t') =>
                      (Ok (leaf,
                           [mkBranch d level leaf (image (state walker))]),
                       t')
                  | (Raise e, t') => (Raise e, t')
                  end
                else place_branching image walker a (S level) rest t
            end
        end
      else place_branching image walker a (S level) rest t
  end.
Proof.
  cbn [place_branching]. unfold bind at 1. unfold get at 1.
  unfold bind at 1. unfold lift at 1.
  destruct (py_index (_max_region_sizes t) level) as [size|e];
    [|reflexivity].
  destruct (Qlt_bool size d); [|reflexivity].
  unfold bind at 1. unfold lift at 1.
  destruct (children t (firstn level a)) as [cs|e]; [|reflexivity].
  unfold bind at 1. unfold lift at 1.
  destruct (py_index (_max_n_regions t) level) as [max_n|e]; [|reflexivity].
  destruct (Z.of_nat (List.length cs) <? max_n); [|reflexivity].
  unfold bind.
  destruct (branch_tree (firstn level a) (image (state walker)) t)
    as [[leaf|e] t']; reflexivity.
Qed.

Lemma place_branching_numbered t (walker : @Walker State) (a : node_id) :
  numbered t -> has_node t a = true -> List.length a = _n_levels t ->
  forall distances level,
    (level + List.length distances = _n_levels t)%nat ->
    exists a' bs t',
      place_branching image walker a level distances t = (Ok (a', bs), t') /\
      numbered t' /\ extends t t' /\
      has_node t' a' = true /\ List.length a' = _n_levels t /\
      branched_at image walker a level distances t a' bs t'.
Proof.
  intros Hnb Ha Hla.
  induction distances as [|d rest IH]; intros level Hlen.
  - exists a, [], t. split; [reflexivity|]. split; [exact Hnb|].
    split; [apply extends_refl|]. split; [exact Ha|]. split; [exact Hla|].
    left. auto.
  - simpl in Hlen. rewrite place_branching_cons.
    assert (level < List.length (_max_region_sizes t))%nat as Hs
      by (pose proof (nb_sizes _ _ Hnb); lia).
    destruct (py_index_lt _ _ Hs) as [size Hsize]. rewrite Hsize.
    assert (forall a' bs t',
              branched_at image walker a (S level) rest t a' bs t' ->
              branched_at image walker a level (d :: rest) t a' bs t') as Hup.
    { intros a' bs t' [H | [lvl [d' [sz [H1 [H2 [H3 H4]]]]]]];
        [left; exact H|].
      right. exists lvl, d', sz. split; [exact H1|]. split; [lia|].
      split; [|exact H4].
      replace (lvl - level)%nat with (S (lvl - S level)) by lia. exact H3. }
    assert (exists a' bs t',
              place_branching image walker a (S level) rest t
              = (Ok (a', bs), t') /\
              numbered t' /\ extends t t' /\
              has_node t' a' = true /\ List.length a' = _n_levels t /\
              branched_at image walker a level (d :: rest) t a' bs t') as Hrec.
    { destruct (IH (S level)) as [a' [bs [t' [H1 [H2 [H3 [H4 [H5 H6]]]]]]]];
        [lia|].
      exists a', bs, t'. repeat (split; [assumption|]). apply Hup. exact H6. }
    destruct (Qlt_bool size d) eqn:Elt; [|exact Hrec].
    set (p := firstn level a).
    assert (has_node t p = true) as Hp
      by (apply (numbered_prefix t None); assumption).
    assert (List.length p = level) as Hlp
      by (unfold p; rewrite length_firstn; lia).
    destruct (nb_kids _ _ Hnb p Hp) as [k [Hk [Hcap _]]].
    rewrite Hk, kids_length.
    assert (level < List.length (_max_n_regions t))%nat as Hr
      by (rewrite (nb_regions _ _ Hnb); lia).
    destruct (py_index_lt _ _ Hr) as [max_n Hmax]. rewrite Hmax.
    destruct (Z.of_nat k <? max_n) eqn:Ek; [|exact Hrec].
    apply Z.ltb_lt in Ek.
    destruct (branch_tree_run t p (image (state walker)) k Hnb Hp)
      as [leaf [t' [Hrun [Hn' [He [Hl [Hf [Hfr [Hlk [Hi Hrg]]]]]]]]]].
    { lia. }
    { exact Hk. }
    { unfold region_cap. rewrite Hlp.
      apply py_index_ok in Hmax. rewrite (nth_error_nth _ _ 0 Hmax). lia. }
    rewrite Hrun.
    exists leaf, [mkBranch d level leaf (image (state walker))], t'.
    split; [reflexivity|]. split; [exact Hn'|]. split; [exact He|].
    split.
    { unfold has_node. rewrite Hlk. reflexivity. }
    split; [exact Hl|].
    right. exists level, d, size. split; [reflexivity|]. split; [lia|].
    split; [rewrite Nat.sub_diag; reflexivity|].
    split; [apply py_index_ok; exact Hsize|].
    split; [apply Qlt_bool_iff; exact Elt|].
    split; [exact Hfr|].
    split.
    { rewrite Hlp in Hf.
      assert (firstn level (firstn (S level) leaf) = firstn level leaf) as Hq
        by (rewrite firstn_firstn; f_equal; lia).
      rewrite Hf in Hq. rewrite <- Hq.
      rewrite firstn_app, Hlp, Nat.sub_diag. simpl. rewrite app_nil_r.
      unfold p. rewrite firstn_firstn. f_equal. lia. }
    split; [exact Hi|]. split; [exact Hrg | exact Hlk].
Qed.

End Descend.

(** ** Crediting a walker to its path *)

Section Credit.

Context {State Image : Type}.
Variable image : State -> Image.
Variable image_distance : Image -> Image -> result Q.
Implicit Type t : @RegionTree Image.

Lemma update_node_at (l : list (node_id * NodeAttrs)) n f g x :
  lookup_node l n = Some x -> f x = g x ->
  update_node l n f = update_node l n g.
Proof.
  induction l as [|[k a] l IH]; simpl; intros H E; [reflexivity|].
  destruct (node_id_eqb n k).
  - inversion H; subst. rewrite E. reflexivity.
  - f_equal. apply IH; assumption.
Qed.

(** One round of the last loop of a placement. *)
Lemma credit_step t (n : node_id) (walker_idx : nat) :
  has_node t n = true ->
  bind (read (fun t => node t n)) (fun a =>
  bind (set_node n (set_n_walkers (n_walkers a + 1))) (fun _ =>
  bind (read (fun t => node t n)) (fun a =>
  set_node n (set_walker_idxs (walker_idxs a ++ [walker_idx]))))) t
  = (Ok tt, with_nodes (update_node (nodes t) n (bump walker_idx)) t).
Proof.
  unfold has_node. intro H.
  destruct (lookup_node (nodes t) n) as [x|] eqn:E; [|discriminate].
  unfold bind, read, node, set_node. rewrite E. simpl.
  rewrite lookup_update_same, E. simpl.
  rewrite update_node_twice. f_equal.
  unfold with_nodes. simpl. f_equal.
  apply (update_node_at _ _ _ _ x E). reflexivity.
Qed.

Lemma has_node_credit walker_idx a levels t n :
  has_node (credit walker_idx a levels t) n = has_node t n.
Proof.
  revert t. induction levels as [|l levels IH]; intro t; [reflexivity|].
  unfold credit in *. simpl. rewrite IH. apply has_node_update.
Qed.

Lemma credit_loop_run walker_idx (a : node_id) (levels : list nat) t :
  (forall level, In level levels -> has_node t (firstn level a) = true) ->
  for_each levels
    (fun level (_ : unit) =>
       let node_id := firstn level a in
       bind (read (fun t => node t node_id)) (fun x =>
       bind (set_node node_id (set_n_walkers (n_walkers x + 1))) (fun _ =>
       bind (read (fun t => node t node_id)) (fun x =>
       set_node node_id (set_walker_idxs (walker_idxs x ++ [walker_idx]))))))
    tt t
  = (Ok tt, credit walker_idx a levels t).
Proof.
  revert t. induction levels as [|l levels IH]; intros t H; [reflexivity|].
  cbn [for_each]. unfold bind at 1. cbv zeta.
  rewrite credit_step by (apply H; left; reflexivity).
  rewrite IH; [reflexivity|].
  intros level Hl. rewrite has_node_update. apply H. right. exact Hl.
Qed.


Lemma credit_cons walker_idx a l levels t :
  credit walker_idx a (l :: levels) t
  = credit walker_idx a levels
      (with_nodes (update_node (nodes t) (firstn l a) (bump walker_idx)) t).
Proof. reflexivity. Qed.

Lemma lookup_bumped t n n' walker_idx :
  lookup_node
    (nodes (with_nodes (update_node (nodes t) n (bump walker_idx)) t)) n'
  = if node_id_eqb n' n then option_map (bump walker_idx)
                               (lookup_node (nodes t) n')
    else lookup_node (nodes t) n'.
Proof.
  cbn [nodes with_nodes]. destruct (node_id_eqb n' n) eqn:E.
  - apply node_id_eqb_eq in E. subst n'. apply lookup_update_same.
  - apply node_id_eqb_neq in E. apply lookup_update_other. exact E.
Qed.

Lemma lookup_credit walker_idx (a : node_id) (levels : list nat) t n :
  NoDup levels ->
  (forall l, In l levels -> (l <= List.length a)%nat) ->
  lookup_node (nodes (credit walker_idx a levels t)) n
  = if existsb (fun l => node_id_eqb n (firstn l a)) levels
    then option_map (bump walker_idx) (lookup_node (nodes t) n)
    else lookup_node (nodes t) n.
Proof.
  revert t. induction levels as [|l levels IH]; intros t Hnd Hle;
    [reflexivity|].
  inversion Hnd as [|? ? Hnotin Hnd']; subst.
  rewrite credit_cons, IH;
    [|exact Hnd' | intros l' Hl'; apply Hle; right; exact Hl'].
  rewrite lookup_bumped. cbn [existsb].
  destruct (node_id_eqb n (firstn l a)) eqn:E; [|reflexivity].
  cbn [orb]. apply node_id_eqb_eq in E.
  assert (existsb (fun l0 => node_id_eqb n (firstn l0 a)) levels = false)
    as ->; [|reflexivity].
  destruct (existsb _ levels) eqn:Ex; [|reflexivity]. exfalso.
  apply existsb_exists in Ex. destruct Ex as [l' [Hl' El']].
  apply node_id_eqb_eq in El'. rewrite E in El'.
  apply (f_equal (@List.length nat)) in El'.
  rewrite !length_firstn in El'.
  pose proof (Hle l (or_introl eq_refl)). pose proof (Hle l' (or_intror Hl')).
  assert (l = l') by lia. subst l'. contradiction.
Qed.

Lemma is_prefix_levels (n a : node_id) :
  existsb (fun l => node_id_eqb n (firstn l a)) (seq 0 (List.length a + 1))
  = true <-> is_prefix n a.
Proof.
  unfold is_prefix. rewrite existsb_exists. split.
  - intros [l [Hl E]]. apply node_id_eqb_eq in E. apply in_seq in Hl.
    rewrite E at 1. rewrite length_firstn.
    replace (Nat.min l (List.length a)) with l by lia. symmetry. exact E.
  - intro H. exists (List.length n). split.
    + apply in_seq. apply (f_equal (@List.length nat)) in H.
      rewrite length_firstn in H. lia.
    + apply node_id_eqb_eq. symmetry. exact H.
Qed.

Lemma is_prefix_dec (n a : node_id) : {is_prefix n a} + {~ is_prefix n a}.
Proof. unfold is_prefix. apply (list_eq_dec Nat.eq_dec). Qed.

(** The last loop of a placement adds the walker at the nodes of its path
    and nowhere else. *)
Lemma lookup_credit_path walker_idx (a : node_id) t n :
  lookup_node
    (nodes (credit walker_idx a (seq 0 (List.length a + 1)) t)) n
  = if is_prefix_dec n a
    then option_map (bump walker_idx) (lookup_node (nodes t) n)
    else lookup_node (nodes t) n.
Proof.
  rewrite lookup_credit;
    [|apply seq_NoDup | intros l Hl; apply in_seq in Hl; lia].
  destruct (is_prefix_dec n a) as [H | H].
  - apply is_prefix_levels in H. rewrite H. reflexivity.
  - destruct (existsb _ _) eqn:E; [|reflexivity].
    apply is_prefix_levels in E. contradiction.
Qed.

Lemma credit_fields walker_idx (a : node_id) (levels : list nat) t :
  edges (credit walker_idx a levels t) = edges t /\
  _walker_weights (credit walker_idx a levels t) = _walker_weights t /\
  _walker_assignments (credit walker_idx a levels t)
  = _walker_assignments t /\
  _images (credit walker_idx a levels t) = _images t /\
  _regions (credit walker_idx a levels t) = _regions t /\
  params (credit walker_idx a levels t) = params t /\
  node_ids (credit walker_idx a levels t) = node_ids t.
Proof.
  revert t. induction levels as [|l levels IH]; intro t;
    [repeat split; reflexivity|].
  rewrite credit_cons.
  destruct (IH (with_nodes
                  (update_node (nodes t) (firstn l a) (bump walker_idx)) t))
    as [H1 [H2 [H3 [H4 [H5 [H6 H7]]]]]].
  rewrite H1, H2, H3, H4, H5, H6, H7. repeat split.
  unfold node_ids. cbn [nodes with_nodes]. apply update_node_keys.
Qed.

(** Changes that touch neither the identifiers, nor the edges, nor the
    image indices, nor the parameters keep a tree numbered. *)
Lemma numbered_ext t t' h :
  (forall n, option_map image_idx (lookup_node (nodes t') n)
             = option_map image_idx (lookup_node (nodes t) n)) ->
  edges t' = edges t -> params t' = params t ->
  (List.length (_images t) <= List.length (_images t'))%nat ->
  numbered_but t h -> numbered_but t' h.
Proof.
  intros Hl He Hp Hi [H1 H2 H3 H4 H5 H6 H7 H8].
  assert (forall n, has_node t' n = has_node t n) as Hn.
  { intro n. unfold has_node. specialize (Hl n).
    destruct (lookup_node (nodes t') n), (lookup_node (nodes t) n);
      simpl in Hl; congruence. }
  assert (forall u, children t' u = children t u) as Hc.
  { intro u. unfold children, successors. rewrite Hn, He. reflexivity. }
  assert (_n_levels t' = _n_levels t) as Hlv
    by (unfold params in Hp; congruence).
  assert (forall l, region_cap t' l = region_cap t l) as Hcap
    by (intro l; unfold region_cap; unfold params in Hp;
        replace (_max_n_regions t') with (_max_n_regions t) by congruence;
        reflexivity).
  constructor.
  - rewrite Hn. exact H1.
  - intros u v E. rewrite He in E. rewrite !Hn. apply H2. exact E.
  - intros u Hu. rewrite Hn in Hu. rewrite Hc, Hcap, Hlv. apply H3. exact Hu.
  - intros u i Hu. rewrite Hn in Hu. rewrite He. apply H4. exact Hu.
  - intros u Hu. rewrite Hn in Hu. rewrite Hlv. apply H5. exact Hu.
  - intros u a Hu. specialize (Hl u). rewrite Hu in Hl.
    destruct (lookup_node (nodes t) u) as [a0|] eqn:E; [|discriminate].
    simpl in Hl. inversion Hl as [Hia]. rewrite Hia.
    specialize (H6 u a0 E). lia.
  - unfold params in Hp. replace (_max_n_regions t') with (_max_n_regions t)
      by congruence. rewrite Hlv. exact H7.
  - unfold params in Hp.
    replace (_max_region_sizes t') with (_max_region_sizes t) by congruence.
    rewrite Hlv. exact H8.
Qed.

Lemma image_idx_credit walker_idx (a : node_id) (levels : list nat) t n :
  option_map image_idx
    (lookup_node (nodes (credit walker_idx a levels t)) n)
  = option_map image_idx (lookup_node (nodes t) n).
Proof.
  revert t. induction levels as [|l levels IH]; intro t; [reflexivity|].
  rewrite credit_cons, IH, lookup_bumped.
  destruct (node_id_eqb n (firstn l a)); [|reflexivity].
  destruct (lookup_node (nodes t) n); reflexivity.
Qed.

Lemma numbered_credit walker_idx (a : node_id) (levels : list nat) t h :
  numbered_but t h -> numbered_but (credit walker_idx a levels t) h.
Proof.
  destruct (credit_fields walker_idx a levels t)
    as [H1 [H2 [H3 [H4 [H5 [H6 H7]]]]]].
  apply numbered_ext; try assumption.
  - apply image_idx_credit.
  - rewrite H4. lia.
Qed.

End Credit.

(** ** The books of a placement *)

Lemma nth_error_snoc {A} (l : list A) (x y : A) (i : nat) :
  nth_error (l ++ [x]) i = Some y
  <-> nth_error l i = Some y \/ (i = List.length l /\ y = x).
Proof.
  destruct (Nat.lt_ge_cases i (List.length l)) as [H | H].
  - rewrite nth_error_app1 by exact H. split; [auto|].
    intros [E | [E _]]; [exact E | lia].
  - rewrite nth_error_app2 by exact H.
    assert (nth_error l i = None) as -> by (apply nth_error_None; exact H).
    destruct (i - List.length l)%nat as [|j] eqn:Ej; simpl.
    + split.
      * intro E. inversion E. right. split; [lia | reflexivity].
      * intros [E | [_ ->]]; [discriminate | reflexivity].
    + split.
      * intro E. destruct j; discriminate.
      * intros [E | [E _]]; [discriminate | lia].
Qed.

Section Ledger.

Context {State Image : Type}.
Variable image : State -> Image.
Variable image_distance : Image -> Image -> result Q.
Implicit Type t : @RegionTree Image.

Lemma leaves_spec t (a : node_id) :
  In a (leaves t) <-> has_node t a = true /\ List.length a = _n_levels t.
Proof.
  unfold leaves. rewrite filter_In, Nat.eqb_eq. unfold node_ids.
  rewrite lookup_node_in. unfold has_node.
  destruct (lookup_node (nodes t) a); split; intros [H1 H2]; split;
    try assumption; try reflexivity; try discriminate; eauto.
  destruct H1; discriminate.
Qed.

Lemma grew_refl t : grew t [] t.
Proof.
  constructor; simpl; try (rewrite app_nil_r); try reflexivity; auto.
Qed.

Lemma params_levels t t' : params t' = params t -> _n_levels t' = _n_levels t.
Proof. unfold params. congruence. Qed.

Lemma params_sizes t t' :
  params t' = params t -> _max_region_sizes t' = _max_region_sizes t.
Proof. unfold params. congruence. Qed.

Lemma grew_trans t1 t2 t3 bs bs' :
  grew t1 bs t2 -> grew t2 bs' t3 -> grew t1 (bs ++ bs') t3.
Proof.
  intros [A1 A2 A3 A4 A5] [B1 B2 B3 B4 B5]. constructor.
  - rewrite B1, A1, map_app, app_assoc. reflexivity.
  - rewrite B2, A2, map_app, app_assoc. reflexivity.
  - congruence.
  - auto.
  - apply Forall_app. split.
    + eapply Forall_impl; [|exact A5].
      intros b [C1 [C2 [C3 C4]]]. split; [|auto].
      apply leaves_spec. apply leaves_spec in C1. destruct C1 as [D1 D2].
      split; [apply B4; exact D1|].
      rewrite (params_levels _ _ B3). exact D2.
    + eapply Forall_impl; [|exact B5].
      intros b [C1 [C2 [C3 [size [C4 C5]]]]]. split; [exact C1|].
      split.
      { destruct (has_node t1 (br_new_leaf_id b)) eqn:E; [|reflexivity].
        rewrite (A4 _ E) in C2. discriminate. }
      split; [rewrite <- (params_levels _ _ A3); exact C3|].
      exists size. rewrite <- (params_sizes _ _ A3). auto.
Qed.

Hypothesis metric_total : forall x y, exists d, image_distance x y = Ok d.

Lemma place_walker_ledger (ws : list (@Walker State)) (w : @Walker State)
    (new_branches : list (@Branch Image)) t :
  ledger ws t ->
  exists bs t',
    place_walker image image_distance (List.length ws) w new_branches t
    = (Ok (new_branches ++ bs), t') /\
    ledger (ws ++ [w]) t' /\ grew t bs t' /\ (List.length bs <= 1)%nat.
Proof.
  intros [Hnb Hw Hla Hlf Hwh Hct].
  destruct (assign_leaf image image_distance metric_total t
              (state w) Hnb) as [a [ds [Ha [Hal Hdl]]]].
  apply leaves_spec in Hal. destruct Hal as [Han Hall].
  destruct (place_branching_numbered image t w a Hnb Han Hall ds O)
    as [a' [bs [t1 [Hrun [Hn1 [He [Ha' [Hla' Hbr]]]]]]]]; [lia|].
  set (k := List.length ws).
  set (t2 := with_walker_weights (_walker_weights t1 ++ [weight w])
               (with_walker_assignments (_walker_assignments t1 ++ [a'])
                  t1)).
  set (t3 := credit k a' (seq 0 (List.length a' + 1)) t2).
  assert (numbered t2) as Hn2
    by (destruct Hn1; constructor; assumption).
  destruct (credit_fields k a' (seq 0 (List.length a' + 1)) t2)
    as [F1 [F2 [F3 [F4 [F5 [F6 F7]]]]]].
  fold t3 in F1, F2, F3, F4, F5, F6, F7.
  assert (forall n, has_node t3 n = has_node t1 n) as Hn31
    by (intro n; unfold t3; rewrite has_node_credit; reflexivity).
  assert (_n_levels t3 = _n_levels t) as Hlv.
  { rewrite (params_levels _ _ F6).
    change (_n_levels t2) with (_n_levels t1).
    apply params_levels. exact (ex_params _ _ He). }
  assert (_walker_assignments t3 = _walker_assignments t ++ [a']) as Has.
  { rewrite F3. unfold t2. cbn [_walker_assignments with_walker_weights
                                 with_walker_assignments].
    rewrite (ex_assignments _ _ He). reflexivity. }
  (* the books of [t1], in terms of the assignments of [t] *)
  assert (forall n x1 i,
            lookup_node (nodes t1) n = Some x1 ->
            (In i (walker_idxs x1) <->
             exists asg, nth_error (_walker_assignments t) i = Some asg /\
                         is_prefix n asg)) as Hwh1.
  { intros n x1 i Hx1.
    destruct (lookup_node (nodes t) n) as [x|] eqn:Ex.
    - rewrite (ex_old _ _ He _ _ Ex) in Hx1. inversion Hx1; subst x1.
      apply (Hwh n x i Ex).
    - destruct (ex_new _ _ He _ _ Hx1 Ex) as [_ Hi]. rewrite Hi.
      split; [contradiction|]. intros [asg [Hasg Hp]]. exfalso.
      apply nth_error_In in Hasg. rewrite Forall_forall in Hlf.
      apply Hlf, leaves_spec in Hasg. destruct Hasg as [Hasg _].
      pose proof (numbered_prefix t None asg (List.length n) Hnb Hasg) as Hq.
      unfold is_prefix in Hp. rewrite Hp in Hq. unfold has_node in Hq.
      rewrite Ex in Hq. discriminate. }
  assert (forall n x1,
            lookup_node (nodes t1) n = Some x1 ->
            n_walkers x1 = Z.of_nat (List.length (walker_idxs x1)) /\
            NoDup (walker_idxs x1)) as Hct1.
  { intros n x1 Hx1.
    destruct (lookup_node (nodes t) n) as [x|] eqn:Ex.
    - rewrite (ex_old _ _ He _ _ Ex) in Hx1. inversion Hx1; subst x1.
      apply (Hct n x Ex).
    - destruct (ex_new _ _ He _ _ Hx1 Ex) as [H0 Hi]. rewrite H0, Hi.
      split; [reflexivity | constructor]. }
  exists bs, t3. split; [|split; [|split]].
  4: { destruct Hbr as [[-> _] | [lvl [d [size [-> _]]]]]; simpl; lia. }
  - unfold place_walker. unfold bind at 1. unfold read at 1. rewrite Ha.
    unfold bind at 1. rewrite Hrun.
    unfold bind at 1. unfold modify at 1.
    unfold bind at 1. unfold modify at 1.
    unfold bind at 1.
    pose proof (credit_loop_run k a' (seq 0 (List.length a' + 1)) t2) as Hc.
    cbv zeta in Hc. cbv zeta.
    change (with_walker_weights _ _) with t2.
    rewrite Hc; [reflexivity|].
    intros level _. change (has_node t2 (firstn level a'))
      with (has_node t1 (firstn level a')).
    apply (numbered_prefix t1 None); assumption.
  - constructor.
    + apply numbered_credit. exact Hn2.
    + rewrite F2. unfold t2. cbn [_walker_weights with_walker_weights].
      rewrite (ex_weights _ _ He), Hw, map_app. reflexivity.
    + rewrite Has, !length_app, Hla. reflexivity.
    + rewrite Has. apply Forall_app. split.
      * eapply Forall_impl; [|exact Hlf]. intros asg Hasg.
        apply leaves_spec. apply leaves_spec in Hasg.
        destruct Hasg as [G1 G2]. rewrite Hn31, Hlv.
        split; [eapply extends_has_node; eauto | exact G2].
      * constructor; [|constructor]. apply leaves_spec.
        rewrite Hn31, Hlv. split; assumption.
    + intros n x3 i Hx3. unfold t3 in Hx3.
      rewrite lookup_credit_path in Hx3.
      change (lookup_node (nodes t2) n) with (lookup_node (nodes t1) n)
        in Hx3.
      rewrite Has.
      destruct (lookup_node (nodes t1) n) as [x1|] eqn:Ex1;
        [|destruct (is_prefix_dec n a'); discriminate].
      specialize (Hwh1 n x1 i Ex1).
      destruct (is_prefix_dec n a') as [Hp | Hp]; simpl in Hx3;
        inversion Hx3; subst x3.
      * unfold bump. cbn [walker_idxs set_walker_idxs].
        rewrite in_app_iff, Hwh1. split.
        -- intros [[asg [G1 G2]] | [<- | []]].
           ++ exists asg. split; [apply nth_error_snoc; left|]; assumption.
           ++ exists a'. split; [|exact Hp]. apply nth_error_snoc.
              right. split; [symmetry; exact Hla | reflexivity].
        -- intros [asg [G1 G2]]. apply nth_error_snoc in G1.
           destruct G1 as [G1 | [G1 _]]; [left; eauto|].
           right. left. rewrite G1, Hla. reflexivity.
      * rewrite Hwh1. split.
        -- intros [asg [G1 G2]]. exists asg.
           split; [apply nth_error_snoc; left|]; assumption.
        -- intros [asg [G1 G2]]. apply nth_error_snoc in G1.
           destruct G1 as [G1 | [_ ->]]; [eauto | contradiction].
    + intros n x3 Hx3. unfold t3 in Hx3.
      rewrite lookup_credit_path in Hx3.
      change (lookup_node (nodes t2) n) with (lookup_node (nodes t1) n)
        in Hx3.
      destruct (lookup_node (nodes t1) n) as [x1|] eqn:Ex1;
        [|destruct (is_prefix_dec n a'); discriminate].
      destruct (Hct1 n x1 Ex1) as [G1 G2].
      destruct (is_prefix_dec n a') as [Hp | Hp]; simpl in Hx3;
        inversion Hx3; subst x3; [|split; assumption].
      unfold bump. cbn [walker_idxs n_walkers set_walker_idxs set_n_walkers].
      rewrite length_app. simpl. split; [lia|].
      apply NoDup_app; [exact G2 | repeat constructor; simpl; tauto |].
      intros j Hj [<- | []].
      apply (Hwh1 n x1 k Ex1) in Hj. destruct Hj as [asg [Hj _]].
      assert (k < List.length (_walker_assignments t))%nat
        by (apply nth_error_Some; congruence).
      unfold k in *. lia.
  - constructor.
    + rewrite F4. change (_images t2) with (_images t1).
      destruct Hbr
        as [[-> [_ ->]]
           | [lvl [d [size [-> [_ [_ [_ [_ [_ [_ [Hi _]]]]]]]]]]]].
      * simpl. rewrite app_nil_r. reflexivity.
      * exact Hi.
    + rewrite F5. change (_regions t2) with (_regions t1).
      destruct Hbr
        as [[-> [_ ->]]
           | [lvl [d [size [-> [_ [_ [_ [_ [_ [_ [_ [Hr _]]]]]]]]]]]]].
      * simpl. rewrite app_nil_r. reflexivity.
      * exact Hr.
    + rewrite F6. change (params t2) with (params t1).
      exact (ex_params _ _ He).
    + intros n Hn. rewrite Hn31. eapply extends_has_node; eauto.
    + destruct Hbr
        as [[-> _] | [lvl [d [size [-> [G1 [_ [G3 [G4 [G5 _]]]]]]]]]];
        [constructor|].
      constructor; [|constructor]. cbn [br_new_leaf_id br_branching_level
                                        br_distance].
      split; [apply leaves_spec; rewrite Hn31, Hlv; split; assumption|].
      split; [exact G5|]. split; [lia|]. exists size. split; assumption.
Qed.


Lemma place_each_ledger (rest ws : list (@Walker State))
    (new_branches : list (@Branch Image)) t :
  ledger ws t ->
  exists bs t',
    place_each image image_distance (List.length ws) rest new_branches t
    = (Ok (new_branches ++ bs), t') /\
    ledger (ws ++ rest) t' /\ grew t bs t' /\
    (List.length bs <= List.length rest)%nat.
Proof.
  revert ws new_branches t.
  induction rest as [|w rest IH]; intros ws new_branches t Hl.
  - exists [], t. rewrite !app_nil_r. split; [reflexivity|].
    split; [exact Hl|]. split; [apply grew_refl | simpl; lia].
  - destruct (place_walker_ledger ws w new_branches t Hl)
      as [bs [t1 [Hrun [Hl1 [Hg1 Hb1]]]]].
    destruct (IH (ws ++ [w]) (new_branches ++ bs) t1 Hl1)
      as [bs' [t2 [Hrun' [Hl2 [Hg2 Hb2]]]]].
    exists (bs ++ bs'), t2.
    split.
    { cbn [place_each]. unfold bind. rewrite Hrun.
      rewrite length_app in Hrun'. simpl in Hrun'.
      replace (S (List.length ws)) with (List.length ws + 1)%nat by lia.
      rewrite Hrun', app_assoc. reflexivity. }
    split; [rewrite <- app_assoc in Hl2; exact Hl2|].
    split; [eapply grew_trans; eassumption|].
    rewrite length_app. simpl. lia.
Qed.

Lemma numbered_clear_walkers t h :
  numbered_but t h -> numbered_but (clear_walkers t) h.
Proof.
  apply numbered_ext; try reflexivity.
  intro n. rewrite lookup_clear_walkers.
  destruct (lookup_node (nodes t) n); reflexivity.
Qed.

Lemma ledger_clear_walkers t :
  numbered t -> ledger (@nil (@Walker State)) (clear_walkers t).
Proof.
  intro Hnb. constructor.
  - apply numbered_clear_walkers. exact Hnb.
  - reflexivity.
  - reflexivity.
  - constructor.
  - intros n x i Hx. apply clear_walkers_resets in Hx.
    destruct Hx as [_ [-> _]]. split; [contradiction|].
    intros [a [Ha _]]. destruct i; discriminate.
  - intros n x Hx. apply clear_walkers_resets in Hx.
    destruct Hx as [-> [-> _]]. split; [reflexivity | constructor].
Qed.

Lemma has_node_clear_walkers t n :
  has_node (clear_walkers t) n = has_node t n.
Proof.
  unfold has_node. rewrite lookup_clear_walkers.
  destruct (lookup_node (nodes t) n); reflexivity.
Qed.

Lemma grew_clear_walkers t : grew t [] (clear_walkers t).
Proof.
  constructor; simpl; try (rewrite app_nil_r); try reflexivity.
  - intros n Hn. rewrite has_node_clear_walkers. exact Hn.
  - constructor.
Qed.

(** The placement loop of [place_walkers] completes on every numbered
    tree, and keeps the books. *)
Lemma place_all_ledger (walkers : list (@Walker State)) t :
  numbered t ->
  exists new_branches t',
    place_all image image_distance walkers t = (Ok new_branches, t') /\
    ledger walkers t' /\ grew t new_branches t' /\
    (List.length new_branches <= List.length walkers)%nat.
Proof.
  intro Hnb.
  destruct (place_each_ledger walkers [] [] (clear_walkers t)
              (ledger_clear_walkers t Hnb))
    as [bs [t' [Hrun [Hl [Hg Hb]]]]].
  exists bs, t'. split; [|split; [exact Hl|split; [|exact Hb]]].
  - unfold place_all, bind, modify. exact Hrun.
  - apply (grew_trans t (clear_walkers t) t' [] bs);
      [apply grew_clear_walkers | exact Hg].
Qed.

End Ledger.

(** ** The constructor builds a numbered tree *)

Section Built.

Context {State Image : Type}.
Variable image : State -> Image.
Implicit Type t : @RegionTree Image.

Lemma chain_numbered_but (t0 : @RegionTree Image) (i : nat) :
  nodes t0 = [] -> edges t0 = [] ->
  List.length (_max_n_regions t0) = _n_levels t0 ->
  (_n_levels t0 <= List.length (_max_region_sizes t0))%nat ->
  (0 < List.length (_images t0))%nat ->
  (i <= _n_levels t0)%nat ->
  let t := with_edges (chain_edges i) (with_nodes (chain_nodes i) t0) in
  numbered_but t (Some (repeat O i)) /\
  children t (repeat O i) = Ok (kids (repeat O i) 0).
Proof.
  intros Hn He Hr Hs Hi. induction i as [|i IH]; intro Hle.
  - cbv zeta. split; [|reflexivity]. constructor.
    + reflexivity.
    + intros u v [].
    + intros u Hu. unfold has_node in Hu. simpl in Hu.
      destruct (node_id_eqb u []) eqn:E; [|discriminate].
      apply node_id_eqb_eq in E. subst u. exists O.
      split; [reflexivity|]. split; [unfold region_cap; lia|].
      intros _ Hh. exfalso. apply Hh. reflexivity.
    + intros u j Hu. unfold has_node in Hu. simpl in Hu.
      destruct (node_id_eqb (u ++ [j]) []) eqn:E; [|discriminate].
      apply node_id_eqb_eq in E. destruct u; discriminate.
    + intros u Hu. unfold has_node in Hu. simpl in Hu.
      destruct (node_id_eqb u []) eqn:E; [|discriminate].
      apply node_id_eqb_eq in E. subst u. simpl. lia.
    + intros u a Hu. simpl in Hu.
      destruct (node_id_eqb u []); [|discriminate].
      inversion Hu. exact Hi.
    + exact Hr.
    + exact Hs.
  - destruct (IH ltac:(lia)) as [Hnb Hk]. cbv zeta in *.
    set (t := with_edges (chain_edges i) (with_nodes (chain_nodes i) t0))
      in *.
    destruct (numbered_add_child t (repeat O i) O (Some (repeat O i)) O)
      as [Hf [_ [Hnb' Hk']]]; try assumption.
    + right; reflexivity.
    + unfold has_node, t. cbn [nodes with_edges with_nodes].
      destruct (lookup_node (chain_nodes i) (repeat O i)) eqn:E;
        [reflexivity|].
      exfalso. assert (In (repeat O i) (map fst (chain_nodes i))) as Hin.
      { unfold chain_nodes. rewrite map_map.
        apply in_map_iff. exists i. split; [reflexivity|].
        apply in_seq. lia. }
      apply lookup_node_in in Hin. destruct Hin as [a Ha]. congruence.
    + rewrite repeat_length. exact Hle.
    + unfold region_cap. lia.
    + assert (repeat O i ++ [O] = repeat O (S i)) as Hrep
        by (symmetry; apply (repeat_cons i O)).
      rewrite Hrep in *.
      assert (grown t (repeat O i) (repeat O (S i)) 0
              = with_edges (chain_edges (S i))
                  (with_nodes (chain_nodes (S i)) t0)) as Hg.
      { unfold grown, t. rewrite chain_nodes_S, chain_edges_S. reflexivity. }
      rewrite Hg in *. split; assumption.
Qed.

(** The chain of the first branch, complete, is a numbered tree. *)
Lemma chain_numbered (t0 : @RegionTree Image) (r : list node_id) :
  nodes t0 = [] -> edges t0 = [] ->
  List.length (_max_n_regions t0) = _n_levels t0 ->
  (_n_levels t0 <= List.length (_max_region_sizes t0))%nat ->
  (0 < List.length (_images t0))%nat ->
  numbered
    (with_regions r
       (with_edges (chain_edges (_n_levels t0))
          (with_nodes (chain_nodes (_n_levels t0)) t0))).
Proof.
  intros Hn He Hr Hs Hi. apply numbered_with_regions.
  destruct (chain_numbered_but t0 (_n_levels t0) Hn He Hr Hs Hi)
    as [Hnb _]; [lia|].
  apply (numbered_but_leaf _ (repeat O (_n_levels t0))); [exact Hnb|].
  rewrite repeat_length. apply Nat.le_refl.
Qed.

(** The constructor returns a numbered tree, provided [max_region_sizes]
    has an entry for every level. *)
Lemma RegionTree__init__built (init_state : State)
    (max_n_regions : list Z) (max_region_sizes : list Q)
    (max_num_walkers : option Z) (min_num_walkers : Z) (pmin pmax : Q)
    (merge_method : string) t :
  (List.length max_n_regions <= List.length max_region_sizes)%nat ->
  RegionTree__init__ image init_state max_n_regions max_region_sizes
    max_num_walkers min_num_walkers pmin pmax merge_method = Ok t ->
  numbered t /\
  params t = (max_n_regions, List.length max_n_regions, max_region_sizes,
              pmin, pmax, max_num_walkers, min_num_walkers,
              "single"%string) /\
  _walker_weights t = [] /\ _walker_assignments t = [].
Proof.
  intros Hs H. unfold RegionTree__init__, MERGE_METHODS in H.
  simpl existsb in H. rewrite orb_false_r in H.
  destruct (String.eqb merge_method "single") eqn:Em; [|discriminate].
  apply String.eqb_eq in Em. subst merge_method.
  cbn [negb] in H. cbv zeta in H.
  set (t0 := mkRegionTree [] [] max_n_regions (List.length max_n_regions)
               max_region_sizes pmin pmax max_num_walkers min_num_walkers
               "single" [] [] [image init_state] []) in *.
  set (t1 := add_node ROOT_NODE 0 t0) in *.
  pose proof (first_branch_fold t1 (List.length max_n_regions) 0 0) as Hf.
  change (repeat O 0) with (@nil nat) in Hf.
  cbv zeta in Hf. unfold ROOT_NODE, node_id in *.
  rewrite Hf in H by reflexivity. inversion H; subst t. clear H Hf.
  split; [|repeat split].
  apply (chain_numbered t0); try reflexivity; [exact Hs | simpl; lia].
Qed.

End Built.

(** ** The accounting loop on the books *)

Section Books.

Context {State Image : Type}.
Variable image : State -> Image.
Variable image_distance : Image -> Image -> result Q.
Implicit Type t : @RegionTree Image.

Lemma erase_counts_rest t t' :
  erase_counts t' = erase_counts t ->
  edges t' = edges t /\ params t' = params t /\
  _walker_weights t' = _walker_weights t /\
  _walker_assignments t' = _walker_assignments t /\
  _images t' = _images t /\ _regions t' = _regions t.
Proof.
  intro H.
  pose proof (f_equal edges H) as H1.
  pose proof (f_equal params H) as H2.
  pose proof (f_equal _walker_weights H) as H3.
  pose proof (f_equal _walker_assignments H) as H4.
  pose proof (f_equal _images H) as H5.
  pose proof (f_equal _regions H) as H6.
  split; [exact H1|]. split; [exact H2|]. split; [exact H3|].
  split; [exact H4|]. split; [exact H5 | exact H6].
Qed.

Lemma numbered_erase t t' h :
  erase_counts t' = erase_counts t -> numbered_but t h -> numbered_but t' h.
Proof.
  intro H. destruct (erase_counts_rest _ _ H) as [H1 [H2 [_ [_ [H5 _]]]]].
  apply numbered_ext; try assumption; [|rewrite H5; lia].
  intro n. pose proof (erase_counts_lookup _ _ n H) as Hl.
  destruct (lookup_node (nodes t') n), (lookup_node (nodes t) n);
    simpl in *; try discriminate; [|reflexivity].
  inversion Hl. reflexivity.
Qed.

Lemma leaves_erase t t' :
  erase_counts t' = erase_counts t -> leaves t' = leaves t.
Proof.
  intro H. destruct (erase_counts_fields _ _ H) as [_ [_ [_ [_ [H5 H6]]]]].
  unfold leaves. rewrite H5, H6. reflexivity.
Qed.

Lemma ledger_erase (ws : list (@Walker State)) t t' :
  erase_counts t' = erase_counts t -> ledger ws t -> ledger ws t'.
Proof.
  intros H [L1 L2 L3 L4 L5 L6].
  destruct (erase_counts_rest _ _ H) as [H1 [H2 [H3 [H4 [H5 H6]]]]].
  constructor.
  - eapply numbered_erase; eauto.
  - congruence.
  - congruence.
  - rewrite H4, (leaves_erase _ _ H). exact L4.
  - intros n x' i Hx'. rewrite H4.
    destruct (erase_counts_attr _ _ _ _ H Hx') as [x [Hx [_ <-]]].
    apply (L5 n x i Hx).
  - intros n x' Hx'.
    destruct (erase_counts_attr _ _ _ _ H Hx') as [x [Hx [<- <-]]].
    apply (L6 n x Hx).
Qed.

Lemma grew_erase t0 (bs : list (@Branch Image)) t t' :
  erase_counts t' = erase_counts t -> grew t0 bs t -> grew t0 bs t'.
Proof.
  intros H [G1 G2 G3 G4 G5].
  destruct (erase_counts_rest _ _ H) as [H1 [H2 [H3 [H4 [H5 H6]]]]].
  constructor; try congruence.
  - intros n Hn. rewrite (erase_counts_has_node _ _ _ H). apply G4. exact Hn.
  - rewrite (leaves_erase _ _ H). exact G5.
Qed.

Lemma ledger_idxs (ws : list (@Walker State)) t n x :
  ledger ws t -> lookup_node (nodes t) n = Some x ->
  Forall (fun i => (i < List.length (_walker_weights t))%nat)
    (walker_idxs x).
Proof.
  intros [L1 L2 L3 L4 L5 L6] Hx. apply Forall_forall. intros i Hi.
  apply (L5 n x i Hx) in Hi. destruct Hi as [a [Ha _]].
  rewrite L2, length_map, <- L3. apply nth_error_Some. congruence.
Qed.

Lemma ledger_accountable (ws : list (@Walker State)) t m :
  ledger ws t -> _merge_method t = "single"%string ->
  _max_num_walkers t = Some m -> accountable t m.
Proof.
  intros Hl Hm Hc. constructor; try assumption.
  - intros n k Hn. apply (numbered_prefix t None); [|exact Hn].
    exact (lg_numbered _ _ Hl).
  - intros n a Ha. eapply ledger_idxs; eauto.
  - intros n a Ha. apply (lg_count _ _ Hl n a Ha).
Qed.

(** The accounting loop on leaves that hold one walker at most. *)
Lemma account_each_single (ls : list node_id) t m :
  accountable t m ->
  (forall n, In n ls -> exists a, lookup_node (nodes t) n = Some a /\
                                 n_walkers a <= 1) ->
  fst (for_each ls (fun n (_ : unit) => account_leaf n) tt t) = Ok tt.
Proof.
  revert t. induction ls as [|n ls IH]; intros t Hacc Hls; [reflexivity|].
  cbn [for_each]. unfold bind.
  destruct (Hls n (or_introl eq_refl)) as [a [Ha Hw]].
  pose proof (account_leaf_total n t m a Hacc Ha Hw) as Hok.
  pose proof (account_leaf_frame n t) as [He _].
  destruct (account_leaf n t) as [[[]|e] t1]; simpl in Hok, He;
    [|discriminate].
  apply IH.
  - eapply accountable_erase; eauto.
  - intros n' Hn'. destruct (Hls n' (or_intror Hn')) as [a' [Ha' Hw']].
    pose proof (erase_counts_lookup _ _ n' He) as Hl. rewrite Ha' in Hl.
    destruct (lookup_node (nodes t1) n') as [a1|]; [|discriminate].
    exists a1. split; [reflexivity|]. simpl in Hl. inversion Hl. lia.
Qed.

Lemma calc_max_num_clones_outcome (ws : list Q) (pmin : Q) (cap : option Z) :
  (exists counts, calc_max_num_clones ws pmin cap = Ok counts) \/
  calc_max_num_clones ws pmin cap = Raise TypeError.
Proof.
  destruct cap as [m|]; [left; apply calc_max_num_clones_total|].
  unfold calc_max_num_clones. apply rmapM_one_error. intro w.
  rewrite max_num_clones_of_None.
  destruct (Qle_bool pmin (w / 2)); eauto.
Qed.

(** What one leaf's accounting can end in, on the books of a placement. *)
Lemma account_leaf_outcome (ws : list (@Walker State)) t n :
  ledger ws t -> _merge_method t = "single"%string ->
  has_node t n = true ->
  fst (account_leaf n t) = Ok tt \/
  fst (account_leaf n t) = Raise NameError \/
  fst (account_leaf n t) = Raise TypeError.
Proof.
  intros Hl Hm Hn. rewrite account_leaf_unfold. unfold has_node in Hn.
  destruct (lookup_node (nodes t) n) as [a|] eqn:Ha; [|discriminate].
  destruct (rmapM_py_index_total _ _ (ledger_idxs ws t n a Hl Ha))
    as [lw ->].
  destruct (1 <? n_walkers a);
    [rewrite Hm; right; left; reflexivity|].
  destruct (0 <? n_walkers a); [|left; reflexivity].
  unfold _calc_max_num_clones.
  destruct (calc_max_num_clones_outcome lw (_pmin t) (_max_num_walkers t))
    as [[cl ->] | ->]; [|right; right; reflexivity].
  left.
  match goal with |- context [with_nodes ?l t] =>
    set (t1 := with_nodes l t) end.
  assert (forall n', has_node t1 n' = has_node t n') as Hh
    by (intro n'; apply has_node_update).
  apply propagate_total; [reflexivity | |].
  - rewrite Hh. unfold has_node. rewrite Ha. reflexivity.
  - intros level _. rewrite Hh.
    apply (numbered_prefix t None); [exact (lg_numbered _ _ Hl)|].
    unfold has_node. rewrite Ha. reflexivity.
Qed.

Lemma account_each_outcome (ws : list (@Walker State)) (ls : list node_id)
    t :
  ledger ws t -> _merge_method t = "single"%string ->
  (forall n, In n ls -> has_node t n = true) ->
  let r := fst (for_each ls (fun n (_ : unit) => account_leaf n) tt t) in
  r = Ok tt \/ r = Raise NameError \/ r = Raise TypeError.
Proof.
  revert t. induction ls as [|n ls IH]; intros t Hl Hm Hls r;
    [left; reflexivity|].
  subst r. cbn [for_each]. unfold bind.
  pose proof (account_leaf_outcome ws t n Hl Hm (Hls n (or_introl eq_refl)))
    as Ho.
  pose proof (account_leaf_frame n t) as [He _].
  destruct (account_leaf n t) as [[[]|e] t1]; simpl in Ho, He.
  - apply IH.
    + eapply ledger_erase; eauto.
    + destruct (erase_counts_fields _ _ He) as [_ [_ [_ [-> _]]]]. exact Hm.
    + intros n' Hn'. rewrite (erase_counts_has_node _ _ _ He).
      apply Hls. right. exact Hn'.
  - simpl. destruct Ho as [Ho | Ho]; [discriminate | right; exact Ho].
Qed.

End Books.

Section Placed.

Context {State Image : Type}.
Variable image : State -> Image.
Variable image_distance : Image -> Image -> result Q.
Implicit Type t : @RegionTree Image.

Hypothesis metric_total : forall x y, exists d, image_distance x y = Ok d.

(** [place_walkers] on a numbered tree: the placement loop completes, and
    whether the accounting loop completes or not, the tree left has the
    books of the placement. *)
Lemma place_walkers_books (walkers : list (@Walker State)) t :
  numbered t ->
  exists new_branches t1,
    place_all image image_distance walkers t = (Ok new_branches, t1) /\
    ledger walkers t1 /\ grew t new_branches t1 /\
    (List.length new_branches <= List.length walkers)%nat /\
    let run := for_each (leaves t1) (fun n (_ : unit) => account_leaf n)
                 tt t1 in
    place_walkers image image_distance walkers t
    = (match fst run with
       | Ok _ => Ok new_branches
       | Raise e => Raise e
       end, snd run) /\
    ledger walkers (snd run) /\ grew t new_branches (snd run).
Proof.
  intro Hnb.
  destruct (place_all_ledger image image_distance metric_total walkers t Hnb)
    as [nb [t1 [Hrun [Hl [Hg Hb]]]]].
  exists nb, t1. split; [exact Hrun|]. split; [exact Hl|].
  split; [exact Hg|]. split; [exact Hb|]. cbv zeta.
  pose proof (account_each_frame (leaves t1) t1) as He.
  split; [|split].
  - rewrite place_walkers_unfold, Hrun.
    destruct (for_each (leaves t1) _ tt t1) as [[u|e] t2]; reflexivity.
  - eapply ledger_erase; eauto.
  - eapply grew_erase; eauto.
Qed.

End Placed.

(** ** Assignment and branching on a numbered tree *)

Lemma Forall2_nth_error {A B} (R : A -> B -> Prop) (l : list A)
    (l' : list B) (i : nat) x y :
  Forall2 R l l' -> nth_error l i = Some x -> nth_error l' i = Some y ->
  R x y.
Proof.
  intro H. revert i. induction H as [|a b l l' Hab _ IH]; intros [|i] Hx Hy;
    simpl in *; try discriminate.
  - inversion Hx; inversion Hy; subst. exact Hab.
  - eapply IH; eauto.
Qed.

Section Paths.

Context {State Image : Type}.
Variable image : State -> Image.
Variable image_distance : Image -> Image -> result Q.
Implicit Type t : @RegionTree Image.

(** In a numbered tree the positions of a descent spell the identifiers of
    the nodes it passes, and each distance is the distance to the image of
    the node chosen at that level. *)
Lemma nearest_descent_path t (x : Image) nd levels a ds :
  numbered t ->
  nearest_descent image_distance t x nd levels a ds ->
  forall j d, nth_error ds j = Some d ->
              child_dist image_distance t x (nd ++ firstn (S j) a) d.
Proof.
  intros Hnb H.
  induction H as [|nd levels cs ds0 i d0 c a ds Hcs Hf Hm Hc _ IH];
    intros j d Hj; [destruct j; discriminate|].
  assert (c = nd ++ [i]) as ->.
  { assert (has_node t nd = true) as Hn.
    { unfold children in Hcs. destruct (has_node t nd); [reflexivity|].
      discriminate. }
    destruct (nb_kids _ _ Hnb nd Hn) as [k [Hk _]].
    rewrite Hk in Hcs. inversion Hcs; subst cs.
    assert (i < k)%nat as Hik.
    { rewrite <- (kids_length nd k). apply nth_error_Some. congruence. }
    rewrite (kids_nth nd k i Hik) in Hc. inversion Hc. reflexivity. }
  destruct j as [|j]; simpl in Hj.
  - inversion Hj; subst d. simpl. destruct Hm as [Hd _].
    eapply Forall2_nth_error; eauto.
  - specialize (IH j d Hj). rewrite <- app_assoc in IH. exact IH.
Qed.

Hypothesis metric_total : forall x y, exists d, image_distance x y = Ok d.

(** X19.  On a numbered tree, with a metric that answers, [assign] returns the
    identifier of a leaf of the tree and one distance per level: the
    distance from the state's image to the image of the node of the
    assignment at that level. *)
Theorem assign_returns_leaf t (st : State) :
  numbered t ->
  exists assignment dists,
    assign image image_distance t st = Ok (assignment, dists) /\
    In assignment (leaves t) /\
    List.length dists = _n_levels t /\
    forall level d,
      nth_error dists level = Some d ->
      child_dist image_distance t (image st) (firstn (S level) assignment) d.
Proof.
  intro Hnb.
  destruct (assign_leaf image image_distance metric_total t st Hnb)
    as [a [ds [Ha [Hl Hd]]]].
  exists a, ds. split; [exact Ha|]. split; [exact Hl|]. split; [exact Hd|].
  intros level d Hlv.
  apply (nearest_descent_path t (image st) ROOT_NODE (_n_levels t) a ds Hnb);
    [|exact Hlv].
  apply (assign_levels_sound image image_distance t st (_n_levels t)
           ROOT_NODE [] a ds); [|exact Ha].
  intros k d0 img Hk. discriminate.
Qed.

(** X18.  [branch_tree] under a node above leaf depth that has fewer children
    than its level allows: the call returns a leaf that was no node
    before, under the next free child number of the parent; the image
    table and the region list grow by the new image and the new leaf; the
    leaf refers to the new image and holds no walker; and no node of
    before is changed. *)
Theorem branch_tree_grows t (parent_id : node_id) (img : Image)
    (cs : list node_id) :
  numbered t -> children t parent_id = Ok cs ->
  (List.length parent_id < _n_levels t)%nat ->
  Z.of_nat (List.length cs)
  < nth (List.length parent_id) (_max_n_regions t) 0 ->
  exists leaf t',
    branch_tree parent_id img t = (Ok leaf, t') /\
    numbered t' /\
    In leaf (leaves t') /\ has_node t leaf = false /\
    is_prefix (parent_id ++ [List.length cs]) leaf /\
    _images t' = _images t ++ [img] /\
    _regions t' = _regions t ++ [leaf] /\
    lookup_node (nodes t') leaf
    = Some (fresh_attrs (List.length (_images t))) /\
    (forall n a, lookup_node (nodes t) n = Some a ->
                 lookup_node (nodes t') n = Some a).
Proof.
  intros Hnb Hcs Hlen Hcap.
  assert (has_node t parent_id = true) as Hp.
  { unfold children in Hcs. destruct (has_node t parent_id);
      [reflexivity | discriminate]. }
  destruct (nb_kids _ _ Hnb parent_id Hp) as [k [Hk _]].
  rewrite Hk in Hcs. inversion Hcs; subst cs. rewrite kids_length in *.
  destruct (branch_tree_run t parent_id img k Hnb Hp Hlen Hk)
    as [leaf [t' [Hrun [Hn' [He [Hl [Hf [Hfr [Hlk [Hi Hr]]]]]]]]]].
  { unfold region_cap. lia. }
  exists leaf, t'. split; [exact Hrun|]. split; [exact Hn'|].
  split.
  { apply leaves_spec. unfold has_node. rewrite Hlk.
    split; [reflexivity|]. rewrite Hl. symmetry.
    apply params_levels. exact (ex_params _ _ He). }
  split; [exact Hfr|].
  split.
  { unfold is_prefix. rewrite length_app. simpl.
    replace (List.length parent_id + 1)%nat with (S (List.length parent_id))
      by lia.
    exact Hf. }
  split; [exact Hi|]. split; [exact Hr|]. split; [exact Hlk|].
  exact (ex_old _ _ He).
Qed.

End Paths.

(** ** The outcomes of [place_walkers] *)

Section Outcome.

Context {State Image : Type}.
Variable image : State -> Image.
Variable image_distance : Image -> Image -> result Q.
Implicit Type t : @RegionTree Image.

Lemma grew_method t (bs : list (@Branch Image)) t' :
  grew t bs t' ->
  _merge_method t' = _merge_method t /\
  _max_num_walkers t' = _max_num_walkers t /\ _pmin t' = _pmin t.
Proof.
  intros [_ _ H _ _]. unfold params in H. inversion H. auto.
Qed.

Lemma leaves_has_node t n : In n (leaves t) -> has_node t n = true.
Proof. intro H. apply leaves_spec in H. tauto. Qed.

(** Without a walker cap, the accounting of a leaf that holds a walker
    cannot complete when every walker can be split once. *)
Lemma account_leaf_without_cap (ws : list (@Walker State)) t n a :
  ledger ws t -> _merge_method t = "single"%string ->
  _max_num_walkers t = None ->
  Forall (fun w => Qle_bool (_pmin t) (w / 2) = true) (_walker_weights t) ->
  lookup_node (nodes t) n = Some a -> 0 < n_walkers a ->
  fst (account_leaf n t) = Raise NameError \/
  fst (account_leaf n t) = Raise TypeError.
Proof.
  intros Hl Hm Hc Hw Ha Hn. rewrite account_leaf_unfold, Ha.
  pose proof (ledger_idxs ws t n a Hl Ha) as Hi.
  rewrite (rmapM_py_index_nth _ _ Hi).
  destruct (1 <? n_walkers a); [rewrite Hm; left; reflexivity|].
  assert ((0 <? n_walkers a) = true) as -> by (apply Z.ltb_lt; exact Hn).
  right. unfold _calc_max_num_clones. rewrite Hc.
  destruct (lg_count _ _ Hl n a Ha) as [Hcount _].
  destruct (walker_idxs a) as [|i idxs]; [simpl in Hcount; lia|].
  unfold calc_max_num_clones. simpl. rewrite max_num_clones_of_None.
  inversion Hi as [|? ? Hi0 _]; subst.
  assert (In (nth i (_walker_weights t) 0%Q) (_walker_weights t)) as Hin
    by (apply nth_In; exact Hi0).
  rewrite Forall_forall in Hw. rewrite (Hw _ Hin). reflexivity.
Qed.

Lemma account_each_without_cap (ws : list (@Walker State))
    (ls : list node_id) t :
  ledger ws t -> _merge_method t = "single"%string ->
  _max_num_walkers t = None ->
  Forall (fun w => Qle_bool (_pmin t) (w / 2) = true) (_walker_weights t) ->
  (forall n, In n ls -> has_node t n = true) ->
  (exists n a, In n ls /\ lookup_node (nodes t) n = Some a /\
               0 < n_walkers a) ->
  let r := fst (for_each ls (fun n (_ : unit) => account_leaf n) tt t) in
  r = Raise NameError \/ r = Raise TypeError.
Proof.
  revert t. induction ls as [|n ls IH];
    intros t Hl Hm Hc Hw Hls [n0 [a0 [Hin [Ha0 Hn0]]]] r; [contradiction|].
  subst r. cbn [for_each]. unfold bind.
  pose proof (account_leaf_outcome ws t n Hl Hm (Hls n (or_introl eq_refl)))
    as Ho.
  pose proof (account_leaf_frame n t) as [He _].
  destruct (account_leaf n t) as [[[]|e] t1] eqn:Erun; simpl in Ho, He.
  - destruct (erase_counts_fields _ _ He) as [F1 [F2 [F3 [F4 _]]]].
    apply IH.
    + eapply ledger_erase; eauto.
    + congruence.
    + congruence.
    + rewrite F1, F2. exact Hw.
    + intros n' Hn'. rewrite (erase_counts_has_node _ _ _ He).
      apply Hls. right. exact Hn'.
    + destruct Hin as [-> | Hin].
      * exfalso.
        destruct (account_leaf_without_cap ws t n0 a0 Hl Hm Hc Hw Ha0 Hn0)
          as [H | H]; rewrite Erun in H; discriminate.
      * pose proof (erase_counts_lookup _ _ n0 He) as Hlk.
        rewrite Ha0 in Hlk.
        destruct (lookup_node (nodes t1) n0) as [a1|] eqn:E1; [|discriminate].
        exists n0, a1. split; [exact Hin|]. split; [exact E1|].
        simpl in Hlk. inversion Hlk. lia.
  - simpl. destruct Ho as [Ho | Ho]; [discriminate | exact Ho].
Qed.

Hypothesis metric_total : forall x y, exists d, image_distance x y = Ok d.

(** X20.  On a numbered tree built for the ['single'] merge method, with a
    metric that answers, the placement loop of [place_walkers] always
    completes, and the call either returns the branches that loop
    recorded or raises [NameError] or [TypeError] in the accounting loop:
    no [KeyError], [IndexError], [ValueError] or [UnboundLocalError]. *)
Theorem place_walkers_outcome (walkers : list (@Walker State)) t :
  numbered t -> _merge_method t = "single"%string ->
  exists new_branches,
    fst (place_all image image_distance walkers t) = Ok new_branches /\
    (fst (place_walkers image image_distance walkers t) = Ok new_branches \/
     fst (place_walkers image image_distance walkers t) = Raise NameError \/
     fst (place_walkers image image_distance walkers t) = Raise TypeError).
Proof.
  intros Hnb Hm.
  destruct (place_walkers_books image image_distance metric_total walkers t
              Hnb) as [nb [t1 [Hrun [Hl [Hg [_ [Hpw _]]]]]]].
  cbv zeta in Hpw. exists nb. rewrite Hrun, Hpw. split; [reflexivity|].
  destruct (grew_method _ _ _ Hg) as [Hm1 _].
  pose proof (account_each_outcome walkers (leaves t1) t1 Hl
                ltac:(congruence) (leaves_has_node t1)) as Ho.
  cbv zeta in Ho. simpl.
  destruct Ho as [-> | [-> | ->]]; auto.
Qed.

(** X21.  With an integer walker cap, [place_walkers] returns exactly when the
    placement leaves no leaf with more than one walker; otherwise it
    raises [NameError]. *)
Theorem place_walkers_returns_iff (walkers : list (@Walker State)) t
    (m : Z) :
  numbered t -> _merge_method t = "single"%string ->
  _max_num_walkers t = Some m ->
  exists new_branches,
    fst (place_all image image_distance walkers t) = Ok new_branches /\
    let placed := snd (place_all image image_distance walkers t) in
    fst (place_walkers image image_distance walkers t)
    = if forallb (fun leaf =>
                    (List.length (walkers_of placed leaf) <=? 1)%nat)
           (leaves placed)
      then Ok new_branches else Raise NameError.
Proof.
  intros Hnb Hm Hc.
  destruct (place_walkers_books image image_distance metric_total walkers t
              Hnb) as [nb [t1 [Hrun [Hl [Hg [_ [Hpw _]]]]]]].
  cbv zeta in Hpw. exists nb. rewrite Hrun, Hpw. split; [reflexivity|].
  cbv zeta. cbn [fst snd].
  destruct (grew_method _ _ _ Hg) as [Hm1 [Hc1 _]].
  assert (accountable t1 m) as Hacc
    by (eapply ledger_accountable; eauto; congruence).
  destruct (forallb _ (leaves t1)) eqn:E.
  - rewrite (account_each_single (leaves t1) t1 m Hacc); [reflexivity|].
    intros n Hn. rewrite forallb_forall in E. specialize (E n Hn).
    apply Nat.leb_le in E. apply leaves_has_node in Hn.
    unfold has_node in Hn. unfold walkers_of in E.
    destruct (lookup_node (nodes t1) n) as [a|] eqn:Ea; [|discriminate].
    exists a. split; [reflexivity|].
    rewrite (acc_count _ _ Hacc n a Ea). lia.
  - rewrite (account_each_NameError (leaves t1) t1 m Hacc);
      [reflexivity | apply leaves_has_node |].
    apply forallb_false_witness in E. destruct E as [n [Hn E]].
    apply Nat.leb_gt in E. pose proof (leaves_has_node t1 n Hn) as Hh.
    unfold has_node in Hh. unfold walkers_of in E.
    destruct (lookup_node (nodes t1) n) as [a|] eqn:Ea; [|discriminate].
    exists n, a. split; [exact Hn|]. split; [exact Ea|].
    rewrite (acc_count _ _ Hacc n a Ea). lia.
Qed.

(** X22.  Without a walker cap (the constructor's default), [place_walkers]
    cannot return for a non-empty list of walkers that can each be split
    once ([weight / 2 >= pmin]): it raises [NameError] or [TypeError]. *)
Theorem place_walkers_without_cap (walkers : list (@Walker State)) t :
  numbered t -> _merge_method t = "single"%string ->
  _max_num_walkers t = None ->
  walkers <> [] ->
  Forall (fun w => (_pmin t <= weight w / 2)%Q) walkers ->
  fst (place_walkers image image_distance walkers t) = Raise NameError \/
  fst (place_walkers image image_distance walkers t) = Raise TypeError.
Proof.
  intros Hnb Hm Hc Hne Hw.
  destruct (place_walkers_books image image_distance metric_total walkers t
              Hnb) as [nb [t1 [Hrun [Hl [Hg [_ [Hpw _]]]]]]].
  cbv zeta in Hpw. rewrite Hpw. cbn [fst].
  destruct (grew_method _ _ _ Hg) as [Hm1 [Hc1 Hp1]].
  pose proof (account_each_without_cap walkers (leaves t1) t1 Hl
                ltac:(congruence) ltac:(congruence)) as Ho.
  cbv zeta in Ho.
  destruct Ho as [-> | ->]; auto.
  - rewrite (lg_weights _ _ Hl), Hp1. apply Forall_forall.
    intros q Hq. apply in_map_iff in Hq. destruct Hq as [w [<- Hin]].
    rewrite Forall_forall in Hw. apply Qle_bool_iff. apply Hw. exact Hin.
  - apply leaves_has_node.
  - destruct (nth_error (_walker_assignments t1) 0) as [a|] eqn:Ea.
    + pose proof (lg_leaf _ _ Hl) as Hlf. rewrite Forall_forall in Hlf.
      pose proof (Hlf a (nth_error_In _ _ Ea)) as Hin.
      pose proof (leaves_has_node t1 a Hin) as Hh. unfold has_node in Hh.
      destruct (lookup_node (nodes t1) a) as [x|] eqn:Ex; [|discriminate].
      exists a, x. split; [exact Hin|]. split; [exact Ex|].
      destruct (lg_count _ _ Hl a x Ex) as [-> _].
      assert (In O (walker_idxs x)) as H0.
      { apply (lg_where _ _ Hl a x O Ex). exists a. split; [exact Ea|].
        unfold is_prefix. apply firstn_all. }
      destruct (walker_idxs x); [contradiction | simpl; lia].
    + apply nth_error_None in Ea. rewrite (lg_assignments _ _ Hl) in Ea.
      destruct walkers; [congruence | simpl in Ea; lia].
Qed.

End Outcome.

(** ** Where the walkers are after [place_walkers] *)

Section Whereabouts.

Context {State Image : Type}.
Variable image : State -> Image.
Variable image_distance : Image -> Image -> result Q.
Implicit Type t : @RegionTree Image.

Lemma filter_chain_leaf (n : nat) :
  filter (fun u : node_id => (List.length u =? n)%nat)
    (map fst (chain_nodes n))
  = [repeat O n].
Proof.
  unfold chain_nodes. rewrite map_map. cbn [fst].
  rewrite seq_S, map_app, filter_app. cbn [map filter Nat.add].
  rewrite repeat_length, Nat.eqb_refl.
  assert (forall s m, (s + m <= n)%nat ->
            filter (fun u : node_id => (List.length u =? n)%nat)
              (map (fun k => repeat O k) (seq s m)) = []) as H.
  { intros s m. revert s. induction m as [|m IH]; intros s Hs;
      [reflexivity|].
    simpl. rewrite repeat_length.
    assert ((s =? n)%nat = false) as -> by (apply Nat.eqb_neq; lia).
    apply IH. lia. }
  rewrite H by lia. reflexivity.
Qed.

(** X17.  The constructor returns a numbered tree, provided [max_region_sizes]
    has an entry for every level; its only leaf is [(0, ..., 0)], which is
    also its only region. *)
Theorem RegionTree__init__numbered (init_state : State)
    (max_n_regions : list Z) (max_region_sizes : list Q)
    (max_num_walkers : option Z) (min_num_walkers : Z) (pmin pmax : Q)
    (merge_method : string) t :
  (List.length max_n_regions <= List.length max_region_sizes)%nat ->
  RegionTree__init__ image init_state max_n_regions max_region_sizes
    max_num_walkers min_num_walkers pmin pmax merge_method = Ok t ->
  numbered t /\
  leaves t = [repeat O (List.length max_n_regions)] /\
  _regions t = leaves t.
Proof.
  intros Hs H.
  destruct (RegionTree__init__built image init_state max_n_regions
              max_region_sizes max_num_walkers min_num_walkers pmin pmax
              merge_method t Hs H) as [Hnb _].
  split; [exact Hnb|].
  unfold RegionTree__init__, MERGE_METHODS in H.
  simpl existsb in H. rewrite orb_false_r in H.
  destruct (String.eqb merge_method "single"); [|discriminate].
  cbn [negb] in H. cbv zeta in H.
  set (t0 := mkRegionTree _ _ _ _ _ _ _ _ _ _ _ _ _ _) in H.
  set (t1 := add_node ROOT_NODE 0 t0) in *.
  pose proof (first_branch_fold t1 (List.length max_n_regions) 0 0) as Hf.
  change (repeat O 0) with (@nil nat) in Hf.
  cbv zeta in Hf. unfold ROOT_NODE, node_id in *.
  rewrite Hf in H by reflexivity. inversion H; subst t. clear H Hf.
  unfold leaves, node_ids.
  cbn [nodes _n_levels _regions with_regions with_edges with_nodes t1 t0
       add_node].
  rewrite filter_chain_leaf. split; reflexivity.
Qed.

Hypothesis metric_total : forall x y, exists d, image_distance x y = Ok d.

(** X23.  [place_walkers] keeps a tree numbered and its parameters as they are,
    whether it returns or raises in the accounting loop; in particular no
    node ends with more children than [max_n_regions] allows at its
    level (one child is always allowed). *)
Theorem place_walkers_keeps_numbered (walkers : list (@Walker State)) t :
  numbered t ->
  let t' := snd (place_walkers image image_distance walkers t) in
  numbered t' /\ params t' = params t /\
  forall n cs,
    children t' n = Ok cs ->
    Z.of_nat (List.length cs)
    <= Z.max 1 (nth (List.length n) (_max_n_regions t) 0).
Proof.
  intros Hnb.
  destruct (place_walkers_books image image_distance metric_total walkers t
              Hnb) as [nb [t1 [Hrun [_ [_ [_ [Hpw [Hl Hg]]]]]]]].
  cbv zeta in *. rewrite Hpw. cbn [snd].
  set (t' := snd (for_each _ _ tt t1)) in *.
  pose proof (lg_numbered _ _ Hl) as Hn'.
  split; [exact Hn'|]. split; [exact (gr_params _ _ _ Hg)|].
  intros n cs Hcs.
  assert (has_node t' n = true) as Hn.
  { unfold children in Hcs. destruct (has_node t' n);
      [reflexivity | discriminate]. }
  destruct (nb_kids _ _ Hn' n Hn) as [k [Hk [Hcap _]]].
  rewrite Hk in Hcs. inversion Hcs; subst cs. rewrite kids_length.
  unfold region_cap in Hcap.
  pose proof (gr_params _ _ _ Hg) as Hp. unfold params in Hp.
  replace (_max_n_regions t) with (_max_n_regions t') by congruence.
  exact Hcap.
Qed.

(** X24.  Where [place_walkers] puts the walkers, whether it returns or raises
    in the accounting loop: the weight table holds the walkers' weights in
    order; every walker is assigned a leaf; walker [i] is listed at a node
    exactly when the node lies on the path from the root to that leaf;
    and the walker count of a node is the length of its list, which has no
    repetition. *)
Theorem place_walkers_whereabouts (walkers : list (@Walker State)) t :
  numbered t ->
  let t' := snd (place_walkers image image_distance walkers t) in
  _walker_weights t' = map weight walkers /\
  List.length (_walker_assignments t') = List.length walkers /\
  (forall i a,
     nth_error (_walker_assignments t') i = Some a ->
     In a (leaves t') /\
     forall n, has_node t' n = true ->
               (In i (walkers_of t' n) <-> is_prefix n a)) /\
  (forall n i, In i (walkers_of t' n) -> (i < List.length walkers)%nat) /\
  (forall n, has_node t' n = true ->
             attr_of t' n_walkers n
             = Z.of_nat (List.length (walkers_of t' n)) /\
             NoDup (walkers_of t' n)).
Proof.
  intros Hnb.
  destruct (place_walkers_books image image_distance metric_total walkers t
              Hnb) as [nb [t1 [Hrun [_ [_ [_ [Hpw [Hl Hg]]]]]]]].
  cbv zeta in *. rewrite Hpw. cbn [snd].
  set (t' := snd (for_each _ _ tt t1)) in *.
  destruct Hl as [L1 L2 L3 L4 L5 L6].
  split; [exact L2|]. split; [exact L3|]. split; [|split].
  - intros i a Ha. split.
    + rewrite Forall_forall in L4. apply L4. eapply nth_error_In; eauto.
    + intros n Hn. unfold has_node in Hn. unfold walkers_of.
      destruct (lookup_node (nodes t') n) as [x|] eqn:Ex; [|discriminate].
      rewrite (L5 n x i Ex). split.
      * intros [a' [Ha' Hp]]. congruence.
      * intro Hp. eauto.
  - intros n i Hi. unfold walkers_of in Hi.
    destruct (lookup_node (nodes t') n) as [x|] eqn:Ex; [|contradiction].
    apply (L5 n x i Ex) in Hi. destruct Hi as [a [Ha _]].
    rewrite <- L3. apply nth_error_Some. congruence.
  - intros n Hn. unfold has_node in Hn. unfold walkers_of, attr_of.
    destruct (lookup_node (nodes t') n) as [x|] eqn:Ex; [|discriminate].
    apply (L6 n x Ex).
Qed.

(** X25.  The branches [place_walkers] records are the growth of the tree: the
    image table and the region list grow by the images and the leaves of
    the records, in order; there is at most one record per walker; every
    record names a leaf that was no node before, a level of the tree, and
    a distance above [max_region_sizes] at that level; and every node of
    before is still a node. *)
Theorem place_walkers_new_branches (walkers : list (@Walker State)) t :
  numbered t ->
  exists new_branches,
    fst (place_all image image_distance walkers t) = Ok new_branches /\
    (List.length new_branches <= List.length walkers)%nat /\
    grew t new_branches (snd (place_walkers image image_distance walkers t)).
Proof.
  intros Hnb.
  destruct (place_walkers_books image image_distance metric_total walkers t
              Hnb) as [nb [t1 [Hrun [_ [_ [Hb [Hpw [_ Hg]]]]]]]].
  cbv zeta in *. exists nb. rewrite Hrun, Hpw.
  split; [reflexivity|]. split; [exact Hb | exact Hg].
Qed.

(** X26.  A resampler as [WExploreResampler.__init__] builds it cannot assign a
    non-empty list of walkers that can each be split once
    ([weight / 2 >= pmin]): the tree has no walker cap, and [assign]
    raises [NameError] or [TypeError]. *)
Theorem WExploreResampler_assign_raises (pmin pmax : Q)
    (max_n_regions : list Z) (max_region_sizes : list Q)
    (init_state : State) (walkers : list (@Walker State)) t :
  (List.length max_n_regions <= List.length max_region_sizes)%nat ->
  WExploreResampler_region_tree image pmin pmax max_n_regions
    max_region_sizes init_state = Ok t ->
  walkers <> [] ->
  Forall (fun w => (pmin <= weight w / 2)%Q) walkers ->
  fst (WExploreResampler_assign image image_distance walkers t)
  = Raise NameError \/
  fst (WExploreResampler_assign image image_distance walkers t)
  = Raise TypeError.
Proof.
  intros Hs Ht Hne Hw. unfold WExploreResampler_region_tree in Ht.
  destruct (RegionTree__init__built image init_state max_n_regions
              max_region_sizes None 1 pmin pmax "single" t Hs Ht)
    as [Hnb [Hp _]].
  unfold params in Hp. inversion Hp as [[P1 P2 P3 P4 P5 P6 P7 P8]].
  destruct (place_walkers_books image image_distance metric_total walkers t
              Hnb) as [nb [t1 [Hrun [Hl [Hg [_ [Hpw _]]]]]]].
  cbv zeta in Hpw.
  destruct (grew_method _ _ _ Hg) as [Hm1 [Hc1 Hp1]].
  pose proof (account_each_without_cap walkers (leaves t1) t1 Hl
                ltac:(congruence) ltac:(congruence)) as Ho.
  cbv zeta in Ho.
  unfold WExploreResampler_assign, bind. rewrite Hpw.
  destruct Ho as [Ho | Ho]; try (rewrite Ho; cbn [fst]; auto).
  - rewrite (lg_weights _ _ Hl), Hp1, P4. apply Forall_forall.
    intros q Hq. apply in_map_iff in Hq. destruct Hq as [w [<- Hin]].
    rewrite Forall_forall in Hw. apply Qle_bool_iff. apply Hw. exact Hin.
  - apply leaves_has_node.
  - destruct (nth_error (_walker_assignments t1) 0) as [a|] eqn:Ea.
    + pose proof (lg_leaf _ _ Hl) as Hlf. rewrite Forall_forall in Hlf.
      pose proof (Hlf a (nth_error_In _ _ Ea)) as Hin.
      pose proof (leaves_has_node t1 a Hin) as Hh. unfold has_node in Hh.
      destruct (lookup_node (nodes t1) a) as [x|] eqn:Ex; [|discriminate].
      exists a, x. split; [exact Hin|]. split; [exact Ex|].
      destruct (lg_count _ _ Hl a x Ex) as [-> _].
      assert (In O (walker_idxs x)) as H0.
      { apply (lg_where _ _ Hl a x O Ex). exists a. split; [exact Ea|].
        unfold is_prefix. apply firstn_all. }
      destruct (walker_idxs x); [contradiction | simpl; lia].
    + apply nth_error_None in Ea. rewrite (lg_assignments _ _ Hl) in Ea.
      destruct walkers; [congruence | simpl in Ea; lia].
Qed.

End Whereabouts.

(** ** Instances *)


Lemma RegionTree__init__shape_witness :
  descendableb (Line.tree0 None) = true /\
  prefix_closedb (Line.tree0 None) = true /\
  _merge_method (Line.tree0 None) = "single"%string /\
  _max_num_walkers (Line.tree0 None) = None.
Proof.
  apply (RegionTree__init__shape Line.image 0%Q [2] [1%Q] None 1 (1#10)
           (1#2) "single" (Line.tree0 None)).
  reflexivity.
Defined.

Lemma place_walkers_keeps_shape_witness :
  let t := Line.tree0 (Some 10) in
  let t' := snd (place_walkers Line.image Line.image_distance
                   [Line.walker 0 (4#10); Line.walker 5 (2#10)] t) in
  descendableb t' = true /\ prefix_closedb t' = true /\
  _merge_method t' = _merge_method t /\
  _max_num_walkers t' = _max_num_walkers t.
Proof.
  apply (place_walkers_keeps_shape Line.image Line.image_distance
           [Line.walker 0 (4#10); Line.walker 5 (2#10)]
           (Line.tree0 (Some 10))
           [mkBranch (5%Q) O [1%nat] (5%Q)]);
    reflexivity.
Defined.

Lemma _decide_clone_leaf_returns_witness :
  let placed := snd (place_walkers Line.image Line.image_distance
                       [Line.walker 0 (4#10)] (Line.tree0 (Some 10))) in
  let t := with_nodes (update_node (nodes placed) [O] (set_balance 2))
             placed in
  ([] : list (list nat)) = [] /\
  List.length [2] = List.length [0] /\
  Zsum [2] = Zsum [0] + Z.max 0 (attr_of t balance [O]) /\
  Forall2 Z.le [0] [2] /\
  (forall i, ~ In i (walkers_of t [O]) -> nth_error [2] i = nth_error [0] i).
Proof.
  apply (_decide_clone_leaf_returns [O] [] [0] [2]).
  reflexivity.
Defined.

(** ** The one-dimensional instance is numbered *)

Lemma Line_metric_total :
  forall x y : Q, exists d, Line.image_distance x y = Ok d.
Proof. intros x y. eexists. reflexivity. Qed.

Lemma Line_tree0_numbered (m : option Z) : numbered (Line.tree0 m).
Proof.
  apply (RegionTree__init__built Line.image 0%Q [2] [1%Q] m 1 (1#10) (1#2)
           "single" (Line.tree0 m) (Nat.le_refl 1) (tree0_constructed m)).
Qed.

Lemma assign_returns_leaf_witness :
  exists assignment dists,
    assign Line.image Line.image_distance (Line.tree0 None) (3#10)
    = Ok (assignment, dists) /\
    In assignment (leaves (Line.tree0 None)) /\
    List.length dists = _n_levels (Line.tree0 None) /\
    forall level d,
      nth_error dists level = Some d ->
      child_dist Line.image_distance (Line.tree0 None) (Line.image (3#10))
        (firstn (S level) assignment) d.
Proof.
  apply (assign_returns_leaf Line.image Line.image_distance
           Line_metric_total (Line.tree0 None) (3#10)).
  apply Line_tree0_numbered.
Defined.

Lemma branch_tree_grows_witness :
  let t := Line.tree0 None in
  exists leaf t',
    branch_tree ROOT_NODE (5%Q) t = (Ok leaf, t') /\
    numbered t' /\
    In leaf (leaves t') /\ has_node t leaf = false /\
    is_prefix (ROOT_NODE ++ [List.length [[O]]]) leaf /\
    _images t' = _images t ++ [5%Q] /\
    _regions t' = _regions t ++ [leaf] /\
    lookup_node (nodes t') leaf
    = Some (fresh_attrs (List.length (_images t))) /\
    (forall n a, lookup_node (nodes t) n = Some a ->
                 lookup_node (nodes t') n = Some a).
Proof.
  apply (branch_tree_grows (Line.tree0 None) ROOT_NODE (5%Q) [[O]]);
    [apply Line_tree0_numbered | reflexivity | simpl; lia | reflexivity].
Defined.

Lemma place_walkers_outcome_witness :
  let walkers := [Line.walker 0 (4#10); Line.walker 5 (2#10)] in
  let t := Line.tree0 (Some 10) in
  exists new_branches,
    fst (place_all Line.image Line.image_distance walkers t)
    = Ok new_branches /\
    (fst (place_walkers Line.image Line.image_distance walkers t)
     = Ok new_branches \/
     fst (place_walkers Line.image Line.image_distance walkers t)
     = Raise NameError \/
     fst (place_walkers Line.image Line.image_distance walkers t)
     = Raise TypeError).
Proof.
  apply (place_walkers_outcome Line.image Line.image_distance
           Line_metric_total
           [Line.walker 0 (4#10); Line.walker 5 (2#10)]
           (Line.tree0 (Some 10)));
    [apply Line_tree0_numbered | reflexivity].
Defined.

Lemma place_walkers_returns_iff_witness :
  let walkers := [Line.walker 0 (4#10); Line.walker 5 (2#10)] in
  let t := Line.tree0 (Some 10) in
  exists new_branches,
    fst (place_all Line.image Line.image_distance walkers t)
    = Ok new_branches /\
    let placed := snd (place_all Line.image Line.image_distance walkers t) in
    fst (place_walkers Line.image Line.image_distance walkers t)
    = if forallb (fun leaf =>
                    (List.length (walkers_of placed leaf) <=? 1)%nat)
           (leaves placed)
      then Ok new_branches else Raise NameError.
Proof.
  apply (place_walkers_returns_iff Line.image Line.image_distance
           Line_metric_total
           [Line.walker 0 (4#10); Line.walker 5 (2#10)]
           (Line.tree0 (Some 10)) 10);
    [apply Line_tree0_numbered | reflexivity | reflexivity].
Defined.

Lemma place_walkers_without_cap_witness :
  let walkers := [Line.walker 0 (4#10); Line.walker 5 (2#10)] in
  fst (place_walkers Line.image Line.image_distance walkers
         (Line.tree0 None)) = Raise NameError \/
  fst (place_walkers Line.image Line.image_distance walkers
         (Line.tree0 None)) = Raise TypeError.
Proof.
  apply (place_walkers_without_cap Line.image Line.image_distance
           Line_metric_total
           [Line.walker 0 (4#10); Line.walker 5 (2#10)] (Line.tree0 None));
    [apply Line_tree0_numbered | reflexivity | reflexivity | discriminate |].
  repeat constructor; discriminate.
Defined.

Lemma RegionTree__init__numbered_witness :
  numbered (Line.tree0 None) /\
  leaves (Line.tree0 None) = [repeat O (List.length [2])] /\
  _regions (Line.tree0 None) = leaves (Line.tree0 None).
Proof.
  apply (RegionTree__init__numbered Line.image 0%Q [2] [1%Q] None 1 (1#10)
           (1#2) "single" (Line.tree0 None));
    [simpl; lia | reflexivity].
Defined.

Lemma place_walkers_keeps_numbered_witness :
  let walkers := [Line.walker 0 (4#10); Line.walker 5 (2#10)] in
  let t := Line.tree0 (Some 10) in
  let t' := snd (place_walkers Line.image Line.image_distance walkers t) in
  numbered t' /\ params t' = params t /\
  forall n cs,
    children t' n = Ok cs ->
    Z.of_nat (List.length cs)
    <= Z.max 1 (nth (List.length n) (_max_n_regions t) 0).
Proof.
  apply (place_walkers_keeps_numbered Line.image Line.image_distance
           Line_metric_total
           [Line.walker 0 (4#10); Line.walker 5 (2#10)]
           (Line.tree0 (Some 10))).
  apply Line_tree0_numbered.
Defined.

Lemma place_walkers_whereabouts_witness :
  let walkers := [Line.walker 0 (4#10); Line.walker 5 (2#10)] in
  let t' := snd (place_walkers Line.image Line.image_distance walkers
                   (Line.tree0 (Some 10))) in
  _walker_weights t' = map weight walkers /\
  List.length (_walker_assignments t') = List.length walkers /\
  (forall i a,
     nth_error (_walker_assignments t') i = Some a ->
     In a (leaves t') /\
     forall n, has_node t' n = true ->
               (In i (walkers_of t' n) <-> is_prefix n a)) /\
  (forall n i, In i (walkers_of t' n) -> (i < List.length walkers)%nat) /\
  (forall n, has_node t' n = true ->
             attr_of t' n_walkers n
             = Z.of_nat (List.length (walkers_of t' n)) /\
             NoDup (walkers_of t' n)).
Proof.
  apply (place_walkers_whereabouts Line.image Line.image_distance
           Line_metric_total
           [Line.walker 0 (4#10); Line.walker 5 (2#10)]
           (Line.tree0 (Some 10))).
  apply Line_tree0_numbered.
Defined.

Lemma place_walkers_new_branches_witness :
  let walkers := [Line.walker 0 (4#10); Line.walker 5 (2#10)] in
  let t := Line.tree0 (Some 10) in
  exists new_branches,
    fst (place_all Line.image Line.image_distance walkers t)
    = Ok new_branches /\
    (List.length new_branches <= List.length walkers)%nat /\
    grew t new_branches
      (snd (place_walkers Line.image Line.image_distance walkers t)).
Proof.
  apply (place_walkers_new_branches Line.image Line.image_distance
           Line_metric_total
           [Line.walker 0 (4#10); Line.walker 5 (2#10)]
           (Line.tree0 (Some 10))).
  apply Line_tree0_numbered.
Defined.

Lemma WExploreResampler_assign_raises_witness :
  let walkers := [Line.walker 0 (4#10); Line.walker 5 (2#10)] in
  fst (WExploreResampler_assign Line.image Line.image_distance walkers
         (Line.tree0 None)) = Raise NameError \/
  fst (WExploreResampler_assign Line.image Line.image_distance walkers
         (Line.tree0 None)) = Raise TypeError.
Proof.
  apply (WExploreResampler_assign_raises Line.image Line.image_distance
           Line_metric_total (1#10) (1#2) [2] [1%Q] 0%Q
           [Line.walker 0 (4#10); Line.walker 5 (2#10)] (Line.tree0 None));
    [simpl; lia | reflexivity | discriminate |].
  repeat constructor; discriminate.
Defined.
